(** * Physiotherapy pose detection: the pose-comparison pipeline

    A shallow embedding of the backend of the pose-comparison pipeline
    ([backend/utils.py], [backend/pose_engine.py], [backend/similarity.py],
    [backend/feedback.py], [backend/websocket_handler.py], [backend/app.py])
    and the properties its specification states about it.

    Conventions of the embedding.
    - A Python [float] is a real number: arithmetic is exact, so the general
      results below say nothing about binary64 rounding error; the numeric
      examples of the specification are replayed on binary64 numbers at the
      end.  Comparisons are the decidable order of [R]; [round(x, n)] is
      round-half-to-even on the n-th decimal.
    - A keypoint [[x, y, conf]] is a record, a skeleton a [list keypoint].
    - A Python [dict] with string keys is a [gmap string _]; a value that
      may be [None] is an [option].
    - A function that can raise ([IndexError], [KeyError], a NumPy shape
      error) returns an [option]; [None] stands for the raised exception.
    - The landmark detector is external: a frame is given by its shape and
      by what the detector answers on it. *)

From Stdlib Require Import Reals Lra Lia ZArith.
From Stdlib Require PrimFloat.
From stdpp Require Import base decidable option list strings gmap sorting.

Open Scope R_scope.

(** ** Python floats and the NumPy reductions the code uses *)

Module PyFloat.

#[global] Instance Rlt_decision : RelDecision Rlt := Rlt_dec.
#[global] Instance Rle_decision : RelDecision Rle := Rle_dec.
#[global] Instance Req_decision : EqDecision R := Req_dec_T.

(** Nearest integer, ties to the even one. *)
Definition round_half_even (x : R) : Z :=
  let f := Zfloor x in
  let r := x - IZR f in
  if decide (r < 1 / 2) then f
  else if decide (1 / 2 < r) then (f + 1)%Z
  else if Z.even f then f else (f + 1)%Z.

(** [round(x, ndigits)] *)
Definition py_round (x : R) (ndigits : nat) : R :=
  IZR (round_half_even (x * 10 ^ ndigits)) / 10 ^ ndigits.

(** [sum(l)] *)
Definition Rsum (l : list R) : R := foldr Rplus 0 l.

(** [np.mean(l)] on a non-empty one-dimensional array *)
Definition np_mean (l : list R) : R := Rsum l / INR (length l).

(** [np.linalg.norm] of a vector of two components *)
Definition np_norm (x y : R) : R := sqrt (x * x + y * y).

(** [np.clip(x, lo, hi)] *)
Definition np_clip (x lo hi : R) : R := Rmin (Rmax x lo) hi.

(** [np.degrees(x)] *)
Definition np_degrees (x : R) : R := x * (180 / PI).

(** [a[mask]]: the entries of [a] whose mask bit is set *)
Fixpoint np_select {A} (mask : list bool) (a : list A) : list A :=
  match mask, a with
  | b :: mask', x :: a' => if b then x :: np_select mask' a' else np_select mask' a'
  | _, _ => []
  end.

(** [mask.sum()] *)
Definition np_count (mask : list bool) : nat := length (filter (λ b, b = true) mask).

End PyFloat.
Import PyFloat.

(** ** backend/utils.py *)

Record keypoint := Kp { kx : R; ky : R; kc : R }.

Module Utils.

(** MediaPipe landmark index of each COCO-17 keypoint. *)
Definition MEDIAPIPE_INDICES : list nat :=
  [0; 2; 5; 7; 8; 11; 12; 13; 14; 15; 16; 23; 24; 25; 26; 27; 28]%nat.

(** (point_A, vertex, point_B): the angle is measured at the vertex.  The
    list keeps the insertion order of the Python dict. *)
Definition ANGLE_DEFINITIONS : list (string * (nat * nat * nat)) :=
  [ ("left_elbow",     (5, 7, 9));
    ("right_elbow",    (6, 8, 10));
    ("left_shoulder",  (7, 5, 11));
    ("right_shoulder", (8, 6, 12));
    ("left_knee",      (11, 13, 15));
    ("right_knee",     (12, 14, 16));
    ("left_hip",       (5, 11, 13));
    ("right_hip",      (6, 12, 14)) ]%nat.

(** Iterating the dict yields its keys. *)
Definition ANGLE_NAMES : list string := ANGLE_DEFINITIONS.*1.

Definition MIN_CONFIDENCE : R := 0.3.

Definition compute_angle (p1 p2 p3 : keypoint) : R :=
  let v1x := kx p1 - kx p2 in
  let v1y := ky p1 - ky p2 in
  let v2x := kx p3 - kx p2 in
  let v2y := ky p3 - ky p2 in
  let norm1 := np_norm v1x v1y in
  let norm2 := np_norm v2x v2y in
  if bool_decide (norm1 < 1e-8) || bool_decide (norm2 < 1e-8) then 0
  else
    let cos_angle := (v1x * v2x + v1y * v2y) / (norm1 * norm2) in
    let cos_angle := np_clip cos_angle (-1) 1 in
    np_degrees (acos cos_angle).

(** [kps[11]], [kps[12]] and [kps[5]] raise on a skeleton that is too
    short. *)
Definition normalize_keypoints (keypoints : list keypoint) : option (list keypoint) :=
  left_hip ← keypoints !! 11%nat;
  right_hip ← keypoints !! 12%nat;
  let torso_center_x := (kx left_hip + kx right_hip) / 2 in
  let torso_center_y := (ky left_hip + ky right_hip) / 2 in
  left_shoulder ← keypoints !! 5%nat;
  let torso_size := np_norm (kx left_shoulder - kx right_hip)
                            (ky left_shoulder - ky right_hip) in
  let torso_size := if decide (torso_size < 1e-8) then 1 else torso_size in
  Some (map (λ kp, Kp ((kx kp - torso_center_x) / torso_size)
                      ((ky kp - torso_center_y) / torso_size)
                      (kc kp)) keypoints).

End Utils.
Import Utils.

(** ** backend/pose_engine.py *)

(** One landmark as the detector reports it: a position relative to the
    frame and a visibility. *)
Record landmark := Lm { lm_x : R; lm_y : R; lm_visibility : R }.

(** A decoded frame, as far as the pipeline looks at it: its shape and the
    detector's answer on it ([result.pose_landmarks], one landmark list per
    detected person). *)
Record frame := Frame {
  frame_h : Z;
  frame_w : Z;
  pose_landmarks : list (list landmark) }.

Module PoseEngine.

(** The mutable fields of a [PoseEngine] instance. *)
Record engine := Engine {
  _prev_keypoints : option (list keypoint);
  _smooth_alpha : R }.

(** The engine as [__init__] leaves it. *)
Definition init : engine := Engine None 0.6.

(** The outer option is an exception (a landmark list shorter than the
    mapping needs), the inner one the [None] of "no pose detected". *)
Definition detect_keypoints (fr : frame) : option (option (list keypoint)) :=
  match pose_landmarks fr with
  | [] => Some None
  | landmarks :: _ =>
      let h := IZR (frame_h fr) in
      let w := IZR (frame_w fr) in
      Some <$> mapM (λ mp_idx,
                 lm ← landmarks !! mp_idx;
                 Some (Kp (lm_x lm * w) (lm_y lm * h) (lm_visibility lm)))
               MEDIAPIPE_INDICES
  end.

(** The body of the loop of [compute_joint_angles] for one definition. *)
Definition joint_angle (keypoints : list keypoint) (def : nat * nat * nat)
  : option (option R) :=
  let '(i, j, k) := def in
  p1 ← keypoints !! i;
  p2 ← keypoints !! j;
  p3 ← keypoints !! k;
  if bool_decide (kc p1 < MIN_CONFIDENCE)
     || bool_decide (kc p2 < MIN_CONFIDENCE)
     || bool_decide (kc p3 < MIN_CONFIDENCE)
  then Some None
  else Some (Some (py_round (compute_angle p1 p2 p3) 2)).

Definition compute_joint_angles (keypoints : list keypoint)
  : option (gmap string (option R)) :=
  foldl (λ acc '(name, def),
           angles ← acc;
           a ← joint_angle keypoints def;
           Some (<[name := a]> angles))
        (Some ∅) ANGLE_DEFINITIONS.

(** One iteration of the loop of [smooth_pose]; [prev[i]] is only read for
    a keypoint that is blended. *)
Definition smooth_keypoint (alpha : R) (prev current : list keypoint) (i : nat)
  : option keypoint :=
  cur ← current !! i;
  if decide (kc cur < MIN_CONFIDENCE) then Some cur
  else
    p ← prev !! i;
    Some (Kp (alpha * kx cur + (1 - alpha) * kx p)
             (alpha * ky cur + (1 - alpha) * ky p)
             (kc cur)).

(** Returns the smoothed skeleton and the engine after the call. *)
Definition smooth_pose (self : engine) (current : list keypoint)
  : option (list keypoint * engine) :=
  match _prev_keypoints self with
  | None => Some (current, Engine (Some current) (_smooth_alpha self))
  | Some prev =>
      smoothed ← mapM (smooth_keypoint (_smooth_alpha self) prev current)
                      (seq 0 (length current));
      Some (smoothed, Engine (Some smoothed) (_smooth_alpha self))
  end.

End PoseEngine.
Import PoseEngine.

(** ** backend/similarity.py *)

Module Similarity.

(** [a[:, 2]] on the array built from a list of keypoints; NumPy raises on
    the one-dimensional array an empty list becomes. *)
Definition np_confidences (a : list keypoint) : option (list R) :=
  match a with
  | [] => None
  | _ => Some (map kc a)
  end.

(** [m1 & m2] with NumPy's broadcasting of a one-element operand. *)
Definition np_and (m1 m2 : list bool) : option (list bool) :=
  if decide (length m1 = length m2) then Some (zip_with andb m1 m2)
  else match m1, m2 with
       | [b], _ => Some (map (andb b) m2)
       | _, [b] => Some (map (λ a, a && b) m1)
       | _, _ => None
       end.

(** [a[mask, :2]]; a mask of another length than [a] raises. *)
Definition np_index (mask : list bool) (a : list keypoint) : option (list keypoint) :=
  if decide (length mask = length a) then Some (np_select mask a) else None.

(** One row of [np.linalg.norm(live_pts - ref_pts, axis=1)]. *)
Definition keypoint_distance (l r : keypoint) : R :=
  np_norm (kx l - kx r) (ky l - ky r).

Definition compute_keypoint_similarity (live_kps ref_kps : list keypoint) : option R :=
  live_conf ← np_confidences live_kps;
  ref_conf ← np_confidences ref_kps;
  mask ← np_and (map (λ c, bool_decide (MIN_CONFIDENCE <= c)) live_conf)
                (map (λ c, bool_decide (MIN_CONFIDENCE <= c)) ref_conf);
  if decide (np_count mask < 3)%nat then Some 50
  else
    live_pts ← np_index mask live_kps;
    ref_pts ← np_index mask ref_kps;
    let distances := zip_with keypoint_distance live_pts ref_pts in
    let k := 2 in
    let similarities := map (λ d, exp (- k * d)) distances in
    Some (np_mean similarities * 100).

(** [d.get(name)]: [None] for a missing key as for a key bound to [None]. *)
Definition dict_get (d : gmap string (option R)) (name : string) : option R :=
  mjoin (d !! name).

(** The if-chain on [diff] in the loop of [compute_angle_similarity]. *)
Definition angle_score (diff : R) : R :=
  if decide (diff <= 15) then 100
  else if decide (diff <= 30) then 100 - (diff - 15) * 2
  else if decide (diff <= 60) then 70 - (diff - 30) * (40 / 30)
  else Rmax 0 (30 - (diff - 60)).

Definition compute_angle_similarity (live_angles ref_angles : gmap string (option R)) : R :=
  let scores :=
    foldl (λ scores name,
             match dict_get live_angles name, dict_get ref_angles name with
             | Some live_angle, Some ref_angle =>
                 let diff := Rabs (live_angle - ref_angle) in
                 scores ++ [angle_score diff]
             | _, _ => scores
             end)
          [] ANGLE_NAMES in
  match scores with
  | [] => 50
  | _ => np_mean scores
  end.

Definition compute_similarity (live_kps ref_kps : list keypoint)
    (live_angles ref_angles : gmap string (option R)) : option R :=
  kp_score ← compute_keypoint_similarity live_kps ref_kps;
  let angle_score := compute_angle_similarity live_angles ref_angles in
  let final := 0.25 * kp_score + 0.75 * angle_score in
  Some (py_round (Rmax 0 (Rmin 100 final)) 1).

End Similarity.
Import Similarity.

(** ** backend/feedback.py *)

Module Feedback.

Definition ANGLE_ISSUE_MESSAGES : gmap string (gmap string string) :=
  list_to_map
    [ ("left_elbow", list_to_map [("too_small", "Left elbow bent too much");
                                  ("too_large", "Left elbow not bent enough")]);
      ("right_elbow", list_to_map [("too_small", "Right elbow bent too much");
                                   ("too_large", "Right elbow not bent enough")]);
      ("left_shoulder", list_to_map [("too_small", "Left arm too close to body");
                                     ("too_large", "Left arm raised too high")]);
      ("right_shoulder", list_to_map [("too_small", "Right arm too close to body");
                                      ("too_large", "Right arm raised too high")]);
      ("left_knee", list_to_map [("too_small", "Left knee bent too much");
                                 ("too_large", "Left knee not bent enough")]);
      ("right_knee", list_to_map [("too_small", "Right knee bent too much");
                                  ("too_large", "Right knee not bent enough")]);
      ("left_hip", list_to_map [("too_small", "Left hip angle too narrow");
                                ("too_large", "Left hip angle too wide")]);
      ("right_hip", list_to_map [("too_small", "Right hip angle too narrow");
                                 ("too_large", "Right hip angle too wide")]) ].

Definition GOOD_MESSAGES : gmap string string :=
  list_to_map
    [ ("left_elbow", "Left elbow position correct");
      ("right_elbow", "Right elbow position correct");
      ("left_shoulder", "Left shoulder alignment correct");
      ("right_shoulder", "Right shoulder alignment correct");
      ("left_knee", "Left knee position correct");
      ("right_knee", "Right knee position correct");
      ("left_hip", "Left hip alignment correct");
      ("right_hip", "Right hip alignment correct") ].

Definition ANGLE_TOLERANCE : R := 25.

(** The dict [generate_feedback] returns. *)
Record feedback := MkFeedback {
  fb_similarity : R;
  fb_confidence : R;
  fb_issues : list string;
  fb_good : list string }.

(** [ANGLE_ISSUE_MESSAGES[name][direction]]; a missing key raises. *)
Definition issue_message (name direction : string) : option string :=
  by_direction ← ANGLE_ISSUE_MESSAGES !! name;
  by_direction !! direction.

(** One iteration of the loop, on the pair of lists built so far. *)
Definition feedback_step (live_angles ref_angles : gmap string (option R))
    (acc : list string * list string) (name : string)
  : option (list string * list string) :=
  let '(issues, good) := acc in
  match dict_get live_angles name, dict_get ref_angles name with
  | Some live_val, Some ref_val =>
      let diff := live_val - ref_val in
      if decide (Rabs diff <= ANGLE_TOLERANCE) then
        m ← GOOD_MESSAGES !! name; Some (issues, good ++ [m])
      else if decide (diff < - ANGLE_TOLERANCE) then
        m ← issue_message name "too_small"; Some (issues ++ [m], good)
      else
        m ← issue_message name "too_large"; Some (issues ++ [m], good)
  | _, _ => Some (issues, good)
  end.

Definition generate_feedback (live_angles ref_angles : gmap string (option R))
    (similarity confidence : R) : option feedback :=
  '(issues, good) ← foldl (λ acc name, acc ≫= λ a, feedback_step live_angles ref_angles a name)
                          (Some ([], [])) ANGLE_NAMES;
  Some {| fb_similarity := similarity;
          fb_confidence := py_round confidence 2;
          fb_issues := issues;
          fb_good := good |}.

End Feedback.
Import Feedback.

(** ** backend/websocket_handler.py *)

(** One entry of the table of reference poses. *)
Record reference := Reference {
  ref_keypoints : list keypoint;
  ref_angles : gmap string (option R) }.

(** [[round(kp[0] / w, 5), round(kp[1] / h, 5), round(kp[2], 4)]] for each
    keypoint; dividing by a zero width or height raises. *)
Definition relative_kps (keypoints : list keypoint) (h w : Z) : option (list (R * R * R)) :=
  mapM (λ kp,
          if bool_decide (w = 0%Z) || bool_decide (h = 0%Z) then None
          else Some (py_round (kx kp / IZR w) 5,
                     py_round (ky kp / IZR h) 5,
                     py_round (kc kp) 4))
       keypoints.

(** Mean of the confidences that meet the threshold, [0.0] when there is
    none. *)
Definition mean_confidence (keypoints : list keypoint) : R :=
  let valid_confs := filter (λ c, MIN_CONFIDENCE <= c) (map kc keypoints) in
  match valid_confs with
  | [] => 0
  | _ => np_mean valid_confs
  end.

(** ["green" if similarity >= 70 else "red"] *)
Definition skeleton_color_of (similarity : R) : string :=
  if decide (70 <= similarity) then "green" else "red".

Module WebsocketHandler.

(** The record sent back for one frame. *)
Record pose_result := PoseResult {
  detected : bool;
  skeleton_color : string;
  similarity : R;
  confidence : R;
  issues : list string;
  good : list string;
  keypoints : list (R * R * R) }.

(** [_process_frame], with the module-level table [_pose_references] as
    first argument; returns the record and the engine after the call.  The
    selected exercise is [None] until a selection message arrived. *)
Definition _process_frame (_pose_references : gmap string reference)
    (engine : PoseEngine.engine) (fr : frame) (current_exercise : option string)
  : option (pose_result * PoseEngine.engine) :=
  detection ← detect_keypoints fr;
  match detection with
  | None =>
      Some ({| detected := false;
               skeleton_color := "red";
               similarity := 0;
               confidence := 0;
               issues := ["No pose detected — make sure your full body is visible"];
               good := [];
               keypoints := [] |}, engine)
  | Some keypoints =>
      '(keypoints, engine) ← smooth_pose engine keypoints;
      live_angles ← compute_joint_angles keypoints;
      live_normalized ← normalize_keypoints keypoints;
      let mean_confidence := mean_confidence keypoints in
      let selected :=
        ex ← current_exercise;
        if decide (ex = "") then None else _pose_references !! ex in
      '(similarity, feedback_result) ←
        match selected with
        | Some ref =>
            similarity ← compute_similarity live_normalized (ref_keypoints ref)
                                            live_angles (ref_angles ref);
            feedback_result ← generate_feedback live_angles (ref_angles ref)
                                                similarity mean_confidence;
            Some (similarity, feedback_result)
        | None =>
            Some (0, {| fb_similarity := 0;
                        fb_confidence := py_round mean_confidence 2;
                        fb_issues := ["Select an exercise to start pose comparison"];
                        fb_good := [] |})
        end;
      relative ← relative_kps keypoints (frame_h fr) (frame_w fr);
      Some ({| detected := true;
               skeleton_color := skeleton_color_of similarity;
               similarity := fb_similarity feedback_result;
               confidence := fb_confidence feedback_result;
               issues := fb_issues feedback_result;
               good := fb_good feedback_result;
               keypoints := relative |}, engine)
  end.

End WebsocketHandler.

(** ** backend/app.py *)

Module App.

(** One entry of [angle_deviations]. *)
Record deviation := Deviation {
  dev_live : R;
  dev_reference : R;
  dev_deviation : R;
  dev_status : string }.

(** The fields of the response of [analyze_image] for a detected pose. *)
Record analysis := Analysis {
  exercise : string;
  similarity : R;
  keypoint_similarity : R;
  angle_similarity : R;
  confidence : R;
  skeleton_color : string;
  issues : list string;
  good : list string;
  keypoints : list (R * R * R);
  live_angles : gmap string (option R);
  reference_angles : gmap string (option R);
  angle_deviations : gmap string deviation }.

Inductive response :=
  | UnknownExercise
  | UndecodableImage
  | NoPoseDetected
  | Analysed (a : analysis).

(** [round(v, 1) if v else None]: [None] and [0.0] are both falsy. *)
Definition render_angle (v : option R) : option R :=
  match v with
  | Some x => if decide (x = 0) then None else Some (py_round x 1)
  | None => None
  end.

(** [analyze_image] from the lower-cased exercise label on; [decoded] is
    what [cv2.imdecode] returned, [None] for an undecodable upload.  The
    engine is only asked to detect, so its smoothing state is not touched. *)
Definition analyze_image (pose_references : gmap string reference)
    (exercise : string) (decoded : option frame) : option response :=
  match pose_references !! exercise with
  | None => Some UnknownExercise
  | Some ref =>
      match decoded with
      | None => Some UndecodableImage
      | Some fr =>
          detection ← detect_keypoints fr;
          match detection with
          | None => Some NoPoseDetected
          | Some keypoints =>
              live_angles ← compute_joint_angles keypoints;
              live_normalized ← normalize_keypoints keypoints;
              let mean_confidence := mean_confidence keypoints in
              kp_score ← compute_keypoint_similarity live_normalized (ref_keypoints ref);
              let angle_score := compute_angle_similarity live_angles (ref_angles ref) in
              overall_similarity ← compute_similarity live_normalized (ref_keypoints ref)
                                                      live_angles (ref_angles ref);
              feedback ← generate_feedback live_angles (ref_angles ref)
                                           overall_similarity mean_confidence;
              let angle_deviations :=
                map_imap (λ name live_val,
                            match dict_get (ref_angles ref) name, live_val with
                            | Some ref_val, Some live_val =>
                                Some {| dev_live := py_round live_val 1;
                                        dev_reference := py_round ref_val 1;
                                        dev_deviation := py_round (Rabs (live_val - ref_val)) 1;
                                        dev_status :=
                                          if decide (Rabs (live_val - ref_val) <= 25)
                                          then "correct" else "incorrect" |}
                            | _, _ => None
                            end) live_angles in
              relative ← relative_kps keypoints (frame_h fr) (frame_w fr);
              Some (Analysed
                {| exercise := exercise;
                   similarity := overall_similarity;
                   keypoint_similarity := py_round kp_score 1;
                   angle_similarity := py_round angle_score 1;
                   confidence := py_round mean_confidence 2;
                   skeleton_color := skeleton_color_of overall_similarity;
                   issues := fb_issues feedback;
                   good := fb_good feedback;
                   keypoints := relative;
                   live_angles := render_angle <$> live_angles;
                   reference_angles := render_angle <$> ref_angles ref;
                   angle_deviations := angle_deviations |})
          end
      end
  end.

End App.

(** ** data/yoga_reference.json *)

(** One entry of ["samples"] in the reference file. *)
Record sample := Sample {
  image_name : string;
  pose_label : string;
  sample_keypoints : list keypoint;
  sample_angles : gmap string (option R);
  confidence_mean : R }.

(** ** scripts/build_reference.py *)

Module BuildReference.

(** The body of the loop over [ANGLE_DEFINITIONS] for one definition. *)
Definition sample_angle (keypoints : list keypoint) (def : nat * nat * nat)
  : option (option R) :=
  let '(i, j, k) := def in
  p1 ← keypoints !! i;
  p2 ← keypoints !! j;
  p3 ← keypoints !! k;
  if bool_decide (MIN_CONFIDENCE <= kc p1)
     && bool_decide (MIN_CONFIDENCE <= kc p2)
     && bool_decide (MIN_CONFIDENCE <= kc p3)
  then Some (Some (py_round (compute_angle p1 p2 p3) 2))
  else Some None.

(** The body of the loop over the images of one label: [image] is what
    [cv2.imread] made of the file ([None] for an unreadable one), together
    with the detector's answer on it.  The outer option is an exception, the
    inner one a skipped image. *)
Definition build_sample (img_name label : string) (image : option frame)
  : option (option sample) :=
  match image with
  | None => Some None
  | Some fr =>
      match pose_landmarks fr with
      | [] => Some None
      | landmarks :: _ =>
          keypoints ← mapM (λ mp_idx,
                              lm ← landmarks !! mp_idx;
                              Some (Kp (lm_x lm) (lm_y lm) (lm_visibility lm)))
                           MEDIAPIPE_INDICES;
          normalized ← normalize_keypoints keypoints;
          angles ← foldl (λ acc '(name, def),
                            angles ← acc;
                            a ← sample_angle keypoints def;
                            Some (<[name := a]> angles))
                         (Some ∅) ANGLE_DEFINITIONS;
          let mean_conf := mean_confidence keypoints in
          Some (Some {| image_name := img_name;
                        pose_label := label;
                        sample_keypoints :=
                          (λ kp, Kp (py_round (kx kp) 6) (py_round (ky kp) 6)
                                    (py_round (kc kp) 6)) <$> normalized;
                        sample_angles := angles;
                        confidence_mean := py_round mean_conf 4 |})
      end
  end.

(** The two loops of [build_reference]: [dataset] lists the labels and, for
    each, its images in the order in which the loops visit them; the result
    is the list [samples] that is written to the file. *)
Definition build_reference (dataset : list (string * list (string * option frame)))
  : option (list sample) :=
  per_label ← mapM (λ '(label, images),
                      mapM (λ '(img_name, image), build_sample img_name label image)
                           images)
                   dataset;
  Some (omap (λ s : option sample, s) (mjoin per_label)).

End BuildReference.

(** ** backend/app.py: the reference table built at start-up *)

Module Startup.

(** [np.median] of a one-dimensional array: the middle of the sorted values,
    the mean of the two middle ones for an even number of values.  (On an
    empty array NumPy answers nan; the code never asks, and the embedding
    answers 0.) *)
Definition np_median (l : list R) : R :=
  let s := merge_sort Rle l in
  let n := length s in
  if Nat.even n
  then (default 0 (s !! (n / 2 - 1)%nat) + default 0 (s !! (n / 2)%nat)) / 2
  else default 0 (s !! (n / 2)%nat).

(** The values of one component of keypoint [i] across the skeletons. *)
Definition component (f : keypoint → R) (i : nat) (skeletons : list (list keypoint))
  : list R :=
  omap (λ sk : list keypoint, f <$> sk !! i) skeletons.

(** [np.median(skeletons, axis=0).tolist()]: the median over the samples,
    separately for each keypoint and each of x, y and confidence.  NumPy
    raises when the skeletons do not all have the same length. *)
Definition np_median_axis0 (skeletons : list (list keypoint)) : option (list keypoint) :=
  match skeletons with
  | [] => None
  | first :: _ =>
      if decide (Forall (λ sk, length sk = length first) skeletons) then
        Some ((λ i, Kp (np_median (component kx i skeletons))
                       (np_median (component ky i skeletons))
                       (np_median (component kc i skeletons)))
              <$> seq 0 (length first))
      else None
  end.

(** The dict [grouped], in insertion order: per label the keypoints and the
    angles of its samples. *)
Definition groups : Type :=
  list (string * (list (list keypoint) * list (gmap string (option R)))).

(** One iteration of the grouping loop. *)
Definition add_sample (grouped : groups) (s : sample) : groups :=
  let label := pose_label s in
  if decide (label ∈ grouped.*1) then
    (λ entry : string * (list (list keypoint) * list (gmap string (option R))),
       if decide (entry.1 = label)
       then (entry.1, (entry.2.1 ++ [sample_keypoints s],
                       entry.2.2 ++ [sample_angles s]))
       else entry) <$> grouped
  else grouped ++ [(label, ([sample_keypoints s], [sample_angles s]))].

(** The loop over [angle_keys] for one label: [a[key]] raises on a sample
    that lacks a key of the first sample. *)
Definition aggregate_angles (angle_dicts : list (gmap string (option R)))
  : option (gmap string (option R)) :=
  match angle_dicts with
  | [] => None
  | first :: _ =>
      avg ← mapM (λ key,
                    column ← mapM (λ a : gmap string (option R), a !! key) angle_dicts;
                    let vals := omap (λ v : option R, v) column in
                    Some (key, match vals with
                               | [] => None
                               | _ => Some (np_median vals)
                               end))
                 (map_to_list first).*1;
      Some (list_to_map avg)
  end.

(** The body of the loop over [grouped.items()]. *)
Definition aggregate (data : list (list keypoint) * list (gmap string (option R)))
  : option reference :=
  avg_kps ← np_median_axis0 data.1;
  avg_angles ← aggregate_angles data.2;
  Some (Reference avg_kps avg_angles).

(** The dict [pose_references] in insertion order; [file] is the list of
    samples of the reference file, [None] when the file does not exist. *)
Definition pose_references (file : option (list sample))
  : option (list (string * reference)) :=
  match file with
  | None => Some []
  | Some samples =>
      mapM (λ entry : string * (list (list keypoint) * list (gmap string (option R))),
              r ← aggregate entry.2; Some (entry.1, r))
           (foldl add_sample [] samples)
  end.

Definition ALL_EXERCISES : list string :=
  ["downdog"; "goddess"; "plank"; "tree"; "warrior2"].

(** [get_exercises], on the table in insertion order. *)
Definition get_exercises (table : list (string * reference)) : list string :=
  match table with
  | [] => ALL_EXERCISES
  | _ => table.*1
  end.

(** [start_session]: [lower] stands for [str.lower]; the answer is the
    lower-cased exercise and its reference angles, or [None] for the error
    record. *)
Definition start_session (lower : string → string) (table : list (string * reference))
    (request : string) : option (string * gmap string (option R)) :=
  let exercise := lower request in
  match (list_to_map table : gmap string reference) !! exercise with
  | None => None
  | Some ref => Some (exercise, ref_angles ref)
  end.

End Startup.

(** ** backend/websocket_handler.py: the receive loop *)

Module WebsocketPose.

(** A message of the client, a JSON object: [msg_exercise] is the string
    under ["exercise"] when the key is there; [msg_frame] is, when the key
    ["frame"] is there, what base64 and image decoding make of its string,
    [None] for a string that does not decode to an image. *)
Record message := Message {
  msg_exercise : option string;
  msg_frame : option (option frame) }.

(** What the loop sends back. *)
Inductive reply :=
  | SessionStarted (exercise : string)
  | Result (result : WebsocketHandler.pose_result).

(** The shared engine as a call of [_process_frame] leaves it, whether the
    call returns or raises: [smooth_pose] stores the smoothed skeleton
    before the later steps run, and nothing else writes to the engine. *)
Definition engine_after_frame (engine : PoseEngine.engine) (fr : frame)
  : PoseEngine.engine :=
  match detect_keypoints fr with
  | Some (Some keypoints) =>
      match smooth_pose engine keypoints with
      | Some (_, engine) => engine
      | None => engine
      end
  | _ => engine
  end.

(** One round of the loop of [websocket_pose]: the state is the local
    [current_exercise] and the shared engine; [lower] stands for
    [str.lower]. *)
Definition receive (lower : string → string)
    (_pose_references : gmap string reference)
    (state : option string * PoseEngine.engine) (data : message)
  : (option string * PoseEngine.engine) * option reply :=
  let '(current_exercise, engine) := state in
  match msg_exercise data with
  | Some exercise =>
      ((Some (lower exercise), engine), Some (SessionStarted (lower exercise)))
  | None =>
      match msg_frame data with
      | None | Some None => (state, None)
      | Some (Some fr) =>
          match WebsocketHandler._process_frame _pose_references engine fr
                                                current_exercise with
          | Some (result, engine) => ((current_exercise, engine), Some (Result result))
          | None => ((current_exercise, engine_after_frame engine fr), None)
          end
      end
  end.

(** The loop over the messages of one connection, from the state
    [state]; the replies are listed in the order in which they are sent. *)
Definition receive_all (lower : string → string)
    (_pose_references : gmap string reference)
    (state : option string * PoseEngine.engine) (messages : list message)
  : (option string * PoseEngine.engine) * list reply :=
  foldl (λ '(state, replies) data,
           let '(state, sent) := receive lower _pose_references state data in
           (state, replies ++ option_list sent))
        (state, []) messages.

(** [websocket_pose] on the messages of one connection: [current_exercise]
    starts as [None], the engine is the shared one; the result is the engine
    the connection leaves behind, and its replies. *)
Definition websocket_pose (lower : string → string)
    (_pose_references : gmap string reference)
    (engine : PoseEngine.engine) (messages : list message)
  : PoseEngine.engine * list reply :=
  let '((_, engine), replies) :=
    receive_all lower _pose_references (None, engine) messages in
  (engine, replies).

End WebsocketPose.

(** ** The quantities the specification speaks of

    Definitions that follow the wording of the specification; the
    properties below compare the code with them. *)

(** The absolute differences of the joints both angle sets define, in the
    order of the joint table. *)
Definition comparable_diffs (live_angles ref_angles : gmap string (option R)) : list R :=
  omap (λ name,
          l ← dict_get live_angles name;
          r ← dict_get ref_angles name;
          Some (Rabs (l - r)))
       ANGLE_NAMES.

(** The final score as the specification words it: the weighted blend,
    clamped to [[0,100]]. *)
Definition clamped_blend (positional angle : R) : R :=
  Rmax 0 (Rmin 100 (0.25 * positional + 0.75 * angle)).

(** The pairs of a live and a reference keypoint of the same index whose
    confidences both meet the threshold. *)
Definition jointly_confident (live ref : list keypoint) : list (keypoint * keypoint) :=
  filter (λ p, MIN_CONFIDENCE <= kc p.1 ∧ MIN_CONFIDENCE <= kc p.2) (zip live ref).

Definition euclidean_distance (p : keypoint * keypoint) : R :=
  sqrt ((kx p.1 - kx p.2) ^ 2 + (ky p.1 - ky p.2) ^ 2).

(** The positional sub-score as the specification words it. *)
Definition positional_score (live ref : list keypoint) : R :=
  let pairs := jointly_confident live ref in
  if decide (length pairs < 3)%nat then 50
  else 100 * (Rsum ((λ p, exp (- 2 * euclidean_distance p)) <$> pairs)
              / INR (length pairs)).

(** The mask [compute_keypoint_similarity] builds on two skeletons of the
    same length (the code's side of the comparison with
    [jointly_confident]). *)
Definition confidence_mask (live ref : list keypoint) : list bool :=
  zip_with andb (map (λ c, bool_decide (MIN_CONFIDENCE <= c)) (map kc live))
                (map (λ c, bool_decide (MIN_CONFIDENCE <= c)) (map kc ref)).

(** The Euclidean distance from the left shoulder (keypoint 5) to the right
    hip (keypoint 12) of a skeleton; 0 on a skeleton too short to have
    them. *)
Definition torso_distance (kps : list keypoint) : R :=
  match kps !! 5%nat, kps !! 12%nat with
  | Some left_shoulder, Some right_hip =>
      sqrt ((kx left_shoulder - kx right_hip) ^ 2 + (ky left_shoulder - ky right_hip) ^ 2)
  | _, _ => 0
  end.

(** The scale the specification divides by. *)
Definition torso_scale (kps : list keypoint) : R :=
  if decide (torso_distance kps < 1e-8) then 1 else torso_distance kps.

(** The midpoint of the two hip keypoints (11 and 12). *)
Definition hip_midpoint (kps : list keypoint) : R * R :=
  match kps !! 11%nat, kps !! 12%nat with
  | Some left_hip, Some right_hip =>
      ((kx left_hip + kx right_hip) / 2, (ky left_hip + ky right_hip) / 2)
  | _, _ => (0, 0)
  end.

(** A uniform scaling by [s] followed by a translation by [(tx, ty)] of the
    raw coordinates. *)
Definition scale_translate (s tx ty : R) (kps : list keypoint) : list keypoint :=
  (λ kp, Kp (s * kx kp + tx) (s * ky kp + ty) (kc kp)) <$> kps.

(** The length of the bone vector from the vertex of a joint to one of its
    two other keypoints. *)
Definition bone_length (vertex p : keypoint) : R :=
  sqrt ((kx p - kx vertex) ^ 2 + (ky p - ky vertex) ^ 2).

(** A confidence below the threshold on one of the three keypoints. *)
Definition low_confidence (p1 p2 p3 : keypoint) : Prop :=
  kc p1 < MIN_CONFIDENCE ∨ kc p2 < MIN_CONFIDENCE ∨ kc p3 < MIN_CONFIDENCE.

(** The engines a smoothing session goes through: the fresh engine, and the
    engine after each frame of 17 keypoints handed to [smooth_pose]. *)
Inductive session : PoseEngine.engine → Prop :=
  | session_start : session PoseEngine.init
  | session_frame (e e' : PoseEngine.engine) (current smoothed : list keypoint) :
      session e →
      length current = 17%nat →
      smooth_pose e current = Some (smoothed, e') →
      session e'.

(** The judgement of the classifier on one joint; [None] when one of the two
    angles is undefined. *)
Inductive verdict := Correct | TooSmall | TooLarge.

Definition joint_verdict (live_angles ref_angles : gmap string (option R))
    (name : string) : option verdict :=
  live_val ← dict_get live_angles name;
  ref_val ← dict_get ref_angles name;
  let diff := live_val - ref_val in
  if decide (Rabs diff <= 25) then Some Correct
  else if decide (diff < - 25) then Some TooSmall
  else Some TooLarge.

(** The positive message a joint contributes, if any. *)
Definition good_of (live_angles ref_angles : gmap string (option R))
    (name : string) : option string :=
  match joint_verdict live_angles ref_angles name with
  | Some Correct => GOOD_MESSAGES !! name
  | _ => None
  end.

(** The issue message a joint contributes, if any. *)
Definition issue_of (live_angles ref_angles : gmap string (option R))
    (name : string) : option string :=
  match joint_verdict live_angles ref_angles name with
  | Some TooSmall => issue_message name "too_small"
  | Some TooLarge => issue_message name "too_large"
  | _ => None
  end.

(** How often a message occurs in a list of messages. *)
Definition occurrences (m : string) (l : list string) : nat :=
  length (filter (λ x, x = m) l).

(** The pixel keypoint of a landmark on a frame of height [h] and width
    [w]. *)
Definition keypoint_of_landmark (h w : Z) (lm : landmark) : keypoint :=
  Kp (lm_x lm * IZR w) (lm_y lm * IZR h) (lm_visibility lm).

(** One entry of [keypoints[]] in a result record. *)
Definition relative_entry (h w : Z) (kp : keypoint) : R * R * R :=
  (py_round (kx kp / IZR w) 5, py_round (ky kp / IZR h) 5, py_round (kc kp) 4).

(** A frame on which the pipeline can run: a non-empty image on which the
    detector found a person, with the landmarks the COCO mapping reads. *)
Definition detected_frame (fr : frame) : Prop :=
  (0 < frame_h fr)%Z ∧ (0 < frame_w fr)%Z
  ∧ ∃ landmarks rest, pose_landmarks fr = landmarks :: rest
                      ∧ (29 ≤ length landmarks)%nat.

(** A table of reference poses whose skeletons all have 17 keypoints. *)
Definition well_formed_references (refs : gmap string reference) : Prop :=
  ∀ ex ref, refs !! ex = Some ref → length (ref_keypoints ref) = 17%nat.

(** How the single-image response shows an angle set: the same keys; an
    undefined angle and an angle of exactly 0 both as null, every other
    angle rounded to one decimal. *)
Definition rendered_angles (angles shown : gmap string (option R)) : Prop :=
  ∀ name,
    (angles !! name = None → shown !! name = None)
    ∧ (angles !! name = Some None → shown !! name = Some None)
    ∧ (angles !! name = Some (Some 0) → shown !! name = Some None)
    ∧ (∀ x, x ≠ 0 → angles !! name = Some (Some x) →
            shown !! name = Some (Some (py_round x 1))).

(** A keypoint moved by [(tx, ty)]. *)
Definition translate (tx ty : R) (kp : keypoint) : keypoint :=
  Kp (kx kp + tx) (ky kp + ty) (kc kp).

(** The dot product of the two bone vectors of a joint with vertex [p2]. *)
Definition bone_dot (p1 p2 p3 : keypoint) : R :=
  (kx p1 - kx p2) * (kx p3 - kx p2) + (ky p1 - ky p2) * (ky p3 - ky p2).

(** The keypoints of a skeleton whose confidence meets the threshold. *)
Definition confident_keypoints (sk : list keypoint) : list keypoint :=
  filter (λ kp, MIN_CONFIDENCE <= kc kp) sk.

(** The joints of the table for which an angle set has a value. *)
Definition defined_joints (angles : gmap string (option R)) : list string :=
  filter (λ name, is_Some (dict_get angles name)) ANGLE_NAMES.

(** The verdict on a joint when live and reference change places. *)
Definition swap_verdict (v : verdict) : verdict :=
  match v with
  | Correct => Correct
  | TooSmall => TooLarge
  | TooLarge => TooSmall
  end.

(** [smooth_pose] called on each frame of a sequence in turn: the smoothed
    skeletons, in order, and the engine after the last call. *)
Fixpoint smooth_frames (e : PoseEngine.engine) (frames : list (list keypoint))
  : option (list (list keypoint) * PoseEngine.engine) :=
  match frames with
  | [] => Some ([], e)
  | current :: rest =>
      '(out, e1) ← smooth_pose e current;
      '(outs, e2) ← smooth_frames e1 rest;
      Some (out :: outs, e2)
  end.

(** The reference [_process_frame] compares with: none until an exercise was
    selected, none for the empty label and none for a label the table does
    not have. *)
Definition selected_reference (refs : gmap string reference)
    (current_exercise : option string) : option reference :=
  ex ← current_exercise;
  if decide (ex = "") then None else refs !! ex.

(** One entry of [angle_deviations], for a joint with live angle [live_val]
    and reference angle [ref_val]. *)
Definition deviation_of (live_val ref_val : R) : App.deviation :=
  {| App.dev_live := py_round live_val 1;
     App.dev_reference := py_round ref_val 1;
     App.dev_deviation := py_round (Rabs (live_val - ref_val)) 1;
     App.dev_status := if decide (Rabs (live_val - ref_val) <= 25)
                       then "correct" else "incorrect" |}.

#[global] Instance Rle_antisymm : AntiSymm (=) Rle := Rle_antisym.
#[global] Instance Rle_total : Total Rle :=
  λ x y, match Rle_dec x y with
         | left H => or_introl H
         | right H => or_intror (Rlt_le y x (Rnot_le_lt x y H))
         end.

(** The defined values of joint [name] across the angle sets of the samples
    of one pose. *)
Definition defined_values (name : string) (angle_dicts : list (gmap string (option R)))
  : list R :=
  omap (λ a : gmap string (option R), mjoin (a !! name)) angle_dicts.

(** [x] lies in the closed interval from [a] to [b]. *)
Definition within (a b x : R) : Prop := a <= x <= b.

#[global] Instance within_dec a b x : Decision (within a b x) :=
  and_dec (Rle_dec a x) (Rle_dec x b).

(** The labels of a list in the order of their first appearance. *)
Fixpoint distinct (labels : list string) : list string :=
  match labels with
  | [] => []
  | x :: labels => x :: filter (λ y, y ≠ x) (distinct labels)
  end.

(** The samples of the file that carry a label, in the order of the file. *)
Definition samples_of (label : string) (samples : list sample) : list sample :=
  filter (λ s, pose_label s = label) samples.

(** What the grouping loop holds for a label. *)
Definition group_of (label : string) (samples : list sample)
  : string * (list (list keypoint) * list (gmap string (option R))) :=
  (label, (sample_keypoints <$> samples_of label samples,
           sample_angles <$> samples_of label samples)).

(** A landmark as the builder keeps it: its position relative to the image. *)
Definition relative_keypoint (lm : landmark) : keypoint :=
  Kp (lm_x lm) (lm_y lm) (lm_visibility lm).

(** A keypoint of the reference file: every component rounded to six
    decimals. *)
Definition round_keypoint (kp : keypoint) : keypoint :=
  Kp (py_round (kx kp) 6) (py_round (ky kp) 6) (py_round (kc kp) 6).

(** The images of a dataset that yield the sample [s]. *)
Definition yields (dataset : list (string * list (string * option frame)))
    (s : sample) : Prop :=
  ∃ label images img_name image,
    (label, images) ∈ dataset ∧ (img_name, image) ∈ images
    ∧ BuildReference.build_sample img_name label image = Some (Some s).

(** An image the builder can handle: unreadable, without a detected person,
    or with the 29 landmarks the keypoint mapping reaches for. *)
Definition readable (image : option frame) : Prop :=
  match image with
  | None => True
  | Some fr => match pose_landmarks fr with
               | [] => True
               | landmarks :: _ => (29 ≤ length landmarks)%nat
               end
  end.

(** The frames of a connection that reach [_process_frame]: those of the
    messages without an exercise whose frame decodes. *)
Definition processed_frames (messages : list WebsocketPose.message) : list frame :=
  omap (λ data, match WebsocketPose.msg_exercise data with
                | Some _ => None
                | None => mjoin (WebsocketPose.msg_frame data)
                end) messages.

(** The exercises a connection selects, lower-cased, in order. *)
Definition selections (lower : string → string)
    (messages : list WebsocketPose.message) : list string :=
  omap (λ data, lower <$> WebsocketPose.msg_exercise data) messages.

(** ** The arithmetic of the numeric examples, in binary64

    The same expressions as in [compute_angle_similarity], [smooth_pose]
    and [compute_similarity], on IEEE 754 binary64 numbers instead of
    reals, to replay the numeric examples of the specification with the
    rounding of the machine. *)

Module Binary64.
Import PrimFloat.

(** [max(a, b)] on two floats *)
Definition py_max (a b : float) : float := if (a <? b)%float then b else a.

(** [min(a, b)] on two floats *)
Definition py_min (a b : float) : float := if (b <? a)%float then b else a.

Definition angle_score (diff : float) : float :=
  if (diff <=? 15)%float then 100%float
  else if (diff <=? 30)%float then (100 - (diff - 15) * 2)%float
  else if (diff <=? 60)%float then (70 - (diff - 30) * (40 / 30))%float
  else py_max 0%float (30 - (diff - 60))%float.

(** [alpha * current + (1 - alpha) * previous] *)
Definition ema (alpha current previous : float) : float :=
  (alpha * current + (1 - alpha) * previous)%float.

(** [max(0.0, min(100.0, 0.25 * kp_score + 0.75 * angle_score))] *)
Definition clamped_blend (kp_score angle_score : float) : float :=
  py_max 0%float (py_min 100%float (0.25 * kp_score + 0.75 * angle_score)%float).

End Binary64.

(** * Properties *)

(** ** Rounding to a number of decimals *)

Section Rounding.

Lemma round_half_even_cases (x : R) :
  (round_half_even x = Zfloor x ∧ x - IZR (Zfloor x) <= 1 / 2)
  ∨ (round_half_even x = (Zfloor x + 1)%Z ∧ 1 / 2 <= x - IZR (Zfloor x)).
Proof.
  unfold round_half_even.
  repeat case_decide; try destruct (Z.even _); first [left; split; [reflexivity | lra] | right; split; [reflexivity | lra]].
Qed.

Lemma round_half_even_error (x : R) :
  Rabs (IZR (round_half_even x) - x) <= 1 / 2.
Proof.
  pose proof (Zfloor_bound x) as Hf.
  destruct (round_half_even_cases x) as [[-> H] | [-> H]];
    [| rewrite plus_IZR]; apply Rabs_le; lra.
Qed.

Lemma round_half_even_IZR (z : Z) : round_half_even (IZR z) = z.
Proof.
  unfold round_half_even. rewrite ZfloorZ.
  case_decide; [reflexivity | lra].
Qed.

Lemma round_half_even_ge (a : Z) (x : R) :
  IZR a <= x → (a ≤ round_half_even x)%Z.
Proof.
  intros Ha. apply Zfloor_lub in Ha.
  destruct (round_half_even_cases x) as [[-> _] | [-> _]]; lia.
Qed.

Lemma round_half_even_le (b : Z) (x : R) :
  x <= IZR b → (round_half_even x ≤ b)%Z.
Proof.
  intros Hb. pose proof (Zfloor_bound x) as Hf.
  destruct (round_half_even_cases x) as [[-> _] | [-> H]].
  - apply le_IZR. lra.
  - assert (IZR (Zfloor x) < IZR b) as Hlt by lra.
    apply lt_IZR in Hlt. lia.
Qed.

Lemma pow10_IZR (n : nat) : 10 ^ n = IZR (10 ^ Z.of_nat n).
Proof. rewrite <- pow_IZR. reflexivity. Qed.

Lemma pow10_pos (n : nat) : 0 < 10 ^ n.
Proof. apply pow_lt. lra. Qed.

Lemma py_round_bounds (a b : Z) (x : R) (n : nat) :
  IZR a <= x <= IZR b → IZR a <= py_round x n <= IZR b.
Proof.
  intros [Ha Hb]. unfold py_round.
  pose proof (pow10_pos n) as Hp.
  assert ((a * 10 ^ Z.of_nat n ≤ round_half_even (x * 10 ^ n))%Z) as H1.
  { apply round_half_even_ge. rewrite mult_IZR, <- pow10_IZR. nra. }
  assert ((round_half_even (x * 10 ^ n) ≤ b * 10 ^ Z.of_nat n)%Z) as H2.
  { apply round_half_even_le. rewrite mult_IZR, <- pow10_IZR. nra. }
  apply IZR_le in H1, H2. rewrite mult_IZR, <- pow10_IZR in H1, H2.
  split.
  - apply (Rmult_le_reg_r (10 ^ n)); [exact Hp |].
    unfold Rdiv. rewrite Rmult_assoc, Rinv_l by lra. lra.
  - apply (Rmult_le_reg_r (10 ^ n)); [exact Hp |].
    unfold Rdiv. rewrite Rmult_assoc, Rinv_l by lra. lra.
Qed.

Lemma py_round_error (x : R) (n : nat) :
  Rabs (py_round x n - x) <= (1 / 2) / 10 ^ n.
Proof.
  unfold py_round. pose proof (pow10_pos n) as Hp.
  pose proof (round_half_even_error (x * 10 ^ n)) as He.
  replace (IZR (round_half_even (x * 10 ^ n)) / 10 ^ n - x)
    with ((IZR (round_half_even (x * 10 ^ n)) - x * 10 ^ n) / 10 ^ n)
    by (field; lra).
  unfold Rdiv at 1. rewrite Rabs_mult, (Rabs_pos_eq (/ 10 ^ n)).
  - apply Rmult_le_compat_r; [| exact He].
    left. apply Rinv_0_lt_compat. exact Hp.
  - left. apply Rinv_0_lt_compat. exact Hp.
Qed.

Lemma py_round_decimal (z : Z) (n : nat) :
  py_round (IZR z / 10 ^ n) n = IZR z / 10 ^ n.
Proof.
  unfold py_round. pose proof (pow10_pos n) as Hp.
  replace (IZR z / 10 ^ n * 10 ^ n) with (IZR z) by (field; lra).
  rewrite round_half_even_IZR. reflexivity.
Qed.

Lemma py_round_IZR (z : Z) (n : nat) : py_round (IZR z) n = IZR z.
Proof.
  unfold py_round. rewrite pow10_IZR, <- mult_IZR, round_half_even_IZR, mult_IZR.
  field. rewrite <- pow10_IZR. pose proof (pow10_pos n). lra.
Qed.

End Rounding.

(** ** The angle sub-score *)

Section AngleScore.

Ltac curve_cases :=
  unfold angle_score, Rmax; repeat case_decide; repeat destruct (Rle_dec _ _); try lra.

Lemma angle_score_band1 (d : R) : d <= 15 → angle_score d = 100.
Proof. intros. curve_cases. Qed.

Lemma angle_score_band2 (d : R) : 15 < d <= 30 → angle_score d = 100 - (d - 15) * 2.
Proof. intros. curve_cases. Qed.

Lemma angle_score_band3 (d : R) :
  30 < d <= 60 → angle_score d = 70 - (d - 30) * (40 / 30).
Proof. intros. curve_cases. Qed.

Lemma angle_score_band4 (d : R) : 60 < d → angle_score d = Rmax 0 (30 - (d - 60)).
Proof. intros. unfold angle_score. repeat case_decide; try lra. Qed.

Lemma angle_score_range (d : R) : 0 <= angle_score d <= 100.
Proof. curve_cases. Qed.

(** The curve never moves faster than two points per degree, so it has no
    jump, at the band boundaries or elsewhere. *)
Lemma angle_score_lipschitz (a b : R) :
  Rabs (angle_score a - angle_score b) <= 2 * Rabs (a - b).
Proof.
  unfold Rabs. repeat destruct (Rcase_abs _); curve_cases.
Qed.

Lemma angle_scores_fold (live_angles ref_angles : gmap string (option R))
    (names : list string) (acc : list R) :
  foldl (λ scores name,
           match dict_get live_angles name, dict_get ref_angles name with
           | Some live_angle, Some ref_angle =>
               scores ++ [angle_score (Rabs (live_angle - ref_angle))]
           | _, _ => scores
           end) acc names
  = acc ++ (angle_score <$>
            omap (λ name, l ← dict_get live_angles name;
                          r ← dict_get ref_angles name;
                          Some (Rabs (l - r))) names).
Proof.
  revert acc. induction names as [| name names IH]; intros acc; simpl.
  - by rewrite app_nil_r.
  - rewrite IH.
    destruct (dict_get live_angles name) as [l |]; simpl;
      [destruct (dict_get ref_angles name) as [r |]; simpl |];
      try reflexivity.
    by rewrite <- app_assoc.
Qed.

Lemma compute_angle_similarity_mean (live_angles ref_angles : gmap string (option R)) :
  compute_angle_similarity live_angles ref_angles
  = match comparable_diffs live_angles ref_angles with
    | [] => 50
    | ds => Rsum (angle_score <$> ds) / INR (length ds)
    end.
Proof.
  unfold compute_angle_similarity. rewrite angle_scores_fold.
  rewrite app_nil_l. fold (comparable_diffs live_angles ref_angles).
  destruct (comparable_diffs live_angles ref_angles) as [| d ds]; [reflexivity |].
  unfold np_mean. by rewrite length_fmap.
Qed.

End AngleScore.

(** C2: the angle sub-score is the mean, over the joints both angle sets
    define, of the piecewise curve applied to the absolute difference, and
    exactly 50 when no joint is comparable; the curve follows the four bands
    of the specification, takes the values 100, 70, 30, 15 and 0 at 15, 30,
    60, 75 and 90 degrees, has no jump and is never negative. *)
Theorem angle_similarity_curve_mean (live_angles ref_angles : gmap string (option R)) :
  compute_angle_similarity live_angles ref_angles
  = match comparable_diffs live_angles ref_angles with
    | [] => 50
    | ds => Rsum (angle_score <$> ds) / INR (length ds)
    end
  ∧ (∀ d, (d <= 15 → angle_score d = 100)
        ∧ (15 < d <= 30 → angle_score d = 100 - (d - 15) * 2)
        ∧ (30 < d <= 60 → angle_score d = 70 - (d - 30) * (40 / 30))
        ∧ (60 < d → angle_score d = Rmax 0 (30 - (d - 60)))
        ∧ 0 <= angle_score d)
  ∧ (angle_score 15 = 100 ∧ angle_score 30 = 70 ∧ angle_score 60 = 30
     ∧ angle_score 75 = 15 ∧ angle_score 90 = 0)
  ∧ (∀ a b, Rabs (angle_score a - angle_score b) <= 2 * Rabs (a - b)).
Proof.
  split; [apply compute_angle_similarity_mean |].
  split.
  { intros d. pose proof (angle_score_range d).
    repeat split; auto using angle_score_band1, angle_score_band2,
                             angle_score_band3, angle_score_band4.
    lra. }
  split; [| apply angle_score_lipschitz].
  repeat split; unfold angle_score, Rmax;
    repeat case_decide; repeat destruct (Rle_dec _ _); lra.
Qed.

Lemma angle_similarity_curve_mean_witness :
  15 < 20 <= 30 ∧ angle_score 20 = 100 - (20 - 15) * 2.
Proof.
  split; [lra |].
  destruct (angle_similarity_curve_mean ∅ ∅) as (_ & Hbands & _).
  apply (Hbands 20). lra.
Defined.

Lemma dict_get_singleton (name : string) (v : option R) (name' : string) :
  dict_get {[ name := v ]} name' = if decide (name = name') then v else None.
Proof.
  unfold dict_get. case_decide as Hn.
  - subst. by rewrite lookup_singleton_eq.
  - by rewrite lookup_singleton_ne.
Qed.

(** The end-to-end scenario of the specification: a left elbow at 100
    degrees against a reference of 80 scores 90. *)
Example angle_similarity_left_elbow :
  compute_angle_similarity {[ "left_elbow" := Some 100 ]} {[ "left_elbow" := Some 80 ]} = 90.
Proof.
  rewrite compute_angle_similarity_mean.
  unfold comparable_diffs, ANGLE_NAMES, ANGLE_DEFINITIONS.
  cbn [fmap list_fmap fst omap list_omap].
  rewrite !dict_get_singleton.
  repeat (case_decide; [| try congruence]; try discriminate).
  cbn [mbind option_bind fmap list_fmap Rsum foldr length INR].
  replace (100 - 80) with 20 by lra.
  rewrite Rabs_pos_eq by lra.
  rewrite angle_score_band2 by lra. lra.
Qed.

(** ** The final score *)

Section FinalScore.

Lemma clamped_blend_range (positional angle : R) :
  0 <= clamped_blend positional angle <= 100.
Proof.
  unfold clamped_blend, Rmax, Rmin.
  repeat destruct (Rle_dec _ _); lra.
Qed.

Lemma compute_similarity_blend (live_kps ref_kps : list keypoint)
    (live_angles ref_angles : gmap string (option R)) :
  compute_similarity live_kps ref_kps live_angles ref_angles
  = (λ positional,
       py_round (clamped_blend positional
                   (compute_angle_similarity live_angles ref_angles)) 1)
    <$> compute_keypoint_similarity live_kps ref_kps.
Proof.
  unfold compute_similarity.
  destruct (compute_keypoint_similarity live_kps ref_kps); reflexivity.
Qed.

End FinalScore.

(** C1: the final similarity score is the blend 0.25 positional + 0.75
    angle, clamped to [[0,100]] and rounded to one decimal: it lies in
    [[0,100]], is a whole number of tenths and is within 0.05 of the clamped
    blend; sub-scores 0 and 0 give 0, sub-scores 100 and 100 give 100. *)
Theorem similarity_is_clamped_rounded_blend (live_kps ref_kps : list keypoint)
    (live_angles ref_angles : gmap string (option R)) :
  compute_similarity live_kps ref_kps live_angles ref_angles
  = (λ positional,
       py_round (clamped_blend positional
                   (compute_angle_similarity live_angles ref_angles)) 1)
    <$> compute_keypoint_similarity live_kps ref_kps
  ∧ (∀ positional angle,
       let final := py_round (clamped_blend positional angle) 1 in
       0 <= final <= 100
       ∧ (∃ tenths : Z, final = IZR tenths / 10)
       ∧ Rabs (final - clamped_blend positional angle) <= 0.05)
  ∧ py_round (clamped_blend 0 0) 1 = 0
  ∧ py_round (clamped_blend 100 100) 1 = 100.
Proof.
  split; [apply compute_similarity_blend |].
  split.
  { intros positional angle final. subst final.
    pose proof (clamped_blend_range positional angle) as Hc.
    split; [apply (py_round_bounds 0 100); exact Hc |].
    split.
    - eexists. unfold py_round. simpl pow. by rewrite Rmult_1_r.
    - pose proof (py_round_error (clamped_blend positional angle) 1) as He.
      simpl pow in He. lra. }
  split.
  - replace (clamped_blend 0 0) with (IZR 0);
      [apply py_round_IZR |].
    unfold clamped_blend, Rmax, Rmin. repeat destruct (Rle_dec _ _); lra.
  - replace (clamped_blend 100 100) with (IZR 100);
      [apply py_round_IZR |].
    unfold clamped_blend, Rmax, Rmin. repeat destruct (Rle_dec _ _); lra.
Qed.

(** ** The positional sub-score *)

Section PositionalScore.

Lemma confidence_mask_length (live ref : list keypoint) :
  length live = length ref → length (confidence_mask live ref) = length live.
Proof.
  intros Hlen. unfold confidence_mask.
  rewrite length_zip_with, !length_map. lia.
Qed.

Lemma confidence_mask_cons (l r : keypoint) (live ref : list keypoint) :
  confidence_mask (l :: live) (r :: ref)
  = (bool_decide (MIN_CONFIDENCE <= kc l) && bool_decide (MIN_CONFIDENCE <= kc r))
    :: confidence_mask live ref.
Proof. reflexivity. Qed.

Lemma jointly_confident_cons (l r : keypoint) (live ref : list keypoint) :
  jointly_confident (l :: live) (r :: ref)
  = if bool_decide (MIN_CONFIDENCE <= kc l) && bool_decide (MIN_CONFIDENCE <= kc r)
    then (l, r) :: jointly_confident live ref
    else jointly_confident live ref.
Proof.
  unfold jointly_confident. simpl zip. rewrite filter_cons. simpl.
  case_decide as H; repeat case_bool_decide; simpl; try reflexivity; tauto.
Qed.

Lemma np_count_cons (b : bool) (mask : list bool) :
  np_count (b :: mask) = if b then S (np_count mask) else np_count mask.
Proof.
  unfold np_count. rewrite filter_cons.
  destruct b; case_decide; simpl; congruence.
Qed.

Lemma np_count_mask (live ref : list keypoint) :
  length live = length ref →
  np_count (confidence_mask live ref) = length (jointly_confident live ref).
Proof.
  revert ref. induction live as [| l live IH]; intros [| r ref] Hlen;
    try discriminate; [reflexivity |].
  rewrite confidence_mask_cons, jointly_confident_cons, np_count_cons.
  rewrite IH by (simpl in Hlen; lia).
  destruct (_ && _); reflexivity.
Qed.

Lemma np_select_mask (live ref : list keypoint) :
  length live = length ref →
  zip (np_select (confidence_mask live ref) live)
      (np_select (confidence_mask live ref) ref)
  = jointly_confident live ref.
Proof.
  revert ref. induction live as [| l live IH]; intros [| r ref] Hlen;
    try discriminate; [reflexivity |].
  rewrite confidence_mask_cons, jointly_confident_cons.
  simpl np_select. destruct (_ && _); simpl; rewrite IH by (simpl in Hlen; lia);
    reflexivity.
Qed.

Lemma keypoint_distance_euclidean (l r : keypoint) :
  keypoint_distance l r = euclidean_distance (l, r).
Proof.
  unfold keypoint_distance, euclidean_distance, np_norm. simpl.
  f_equal. ring.
Qed.

Lemma zip_with_distance (ls rs : list keypoint) :
  zip_with keypoint_distance ls rs = euclidean_distance <$> zip ls rs.
Proof.
  revert rs. induction ls as [| l ls IH]; intros [| r rs]; simpl; try reflexivity.
  by rewrite IH, keypoint_distance_euclidean.
Qed.

Lemma jointly_confident_low_ref (live ref : list keypoint) :
  Forall (λ r, kc r < MIN_CONFIDENCE) ref → jointly_confident live ref = [].
Proof.
  intros Hlow. revert live.
  induction Hlow as [| r ref Hr _ IH]; intros [| l live]; try reflexivity.
  rewrite jointly_confident_cons, IH.
  rewrite (bool_decide_false (MIN_CONFIDENCE <= kc r)) by lra.
  by rewrite andb_false_r.
Qed.

Lemma compute_keypoint_similarity_spec (live ref : list keypoint) :
  length live = length ref → (0 < length live)%nat →
  compute_keypoint_similarity live ref = Some (positional_score live ref).
Proof.
  intros Hlen Hpos. unfold compute_keypoint_similarity, positional_score.
  destruct live as [| l live]; [simpl in Hpos; lia |].
  destruct ref as [| r ref]; [discriminate |].
  cbn [np_confidences mbind option_bind].
  unfold np_and. rewrite decide_True by (rewrite !length_map; exact Hlen).
  cbn [mbind option_bind].
  fold (confidence_mask (l :: live) (r :: ref)).
  rewrite np_count_mask by exact Hlen.
  case_decide as Hfew; [reflexivity |].
  unfold np_index.
  rewrite !decide_True
    by (rewrite confidence_mask_length by exact Hlen; first [reflexivity | exact Hlen]).
  cbn [mbind option_bind].
  rewrite zip_with_distance, np_select_mask by exact Hlen.
  f_equal. unfold np_mean.
  rewrite length_map, length_fmap, <- list_fmap_compose.
  unfold compose.
  rewrite (list_fmap_ext _ (λ p, exp (- 2 * euclidean_distance p)))
    by (intros; f_equal; lra).
  lra.
Qed.

End PositionalScore.

(** C3: on two skeletons of the same, non-zero number of keypoints the
    positional sub-score only looks at the keypoints whose live and
    reference confidences both reach 0.3; with fewer than three of them it
    is exactly 50, otherwise it is 100 times the mean of exp(-2 d) over
    them, d being the Euclidean distance of the pair. *)
Theorem positional_score_threshold_mean (live ref : list keypoint) :
  length live = length ref → (0 < length live)%nat →
  let pairs := jointly_confident live ref in
  compute_keypoint_similarity live ref = Some (positional_score live ref)
  ∧ ((length pairs < 3)%nat → compute_keypoint_similarity live ref = Some 50)
  ∧ (¬ (length pairs < 3)%nat →
     compute_keypoint_similarity live ref
     = Some (100 * (Rsum ((λ p, exp (- 2 * euclidean_distance p)) <$> pairs)
                    / INR (length pairs)))).
Proof.
  intros Hlen Hpos pairs.
  rewrite compute_keypoint_similarity_spec by assumption.
  unfold positional_score. fold pairs.
  split; [reflexivity |].
  split; intros Hn; case_decide; done.
Qed.

Lemma positional_score_threshold_mean_witness :
  let sk := replicate 17 (Kp 0 0 1) in
  compute_keypoint_similarity sk sk = Some (positional_score sk sk).
Proof.
  intros sk.
  apply (positional_score_threshold_mean sk sk); [reflexivity | simpl; lia].
Defined.

(** Two jointly confident keypoints are not enough: the sub-score is the
    neutral 50. *)
Example positional_score_neutral :
  compute_keypoint_similarity
    (replicate 17 (Kp 1 2 1))
    (Kp 1 2 1 :: Kp 5 5 1 :: replicate 15 (Kp 0 0 0))
  = Some 50.
Proof.
  apply positional_score_threshold_mean; [reflexivity | simpl; lia |].
  change (replicate 17 (Kp 1 2 1))
    with (Kp 1 2 1 :: Kp 1 2 1 :: replicate 15 (Kp 1 2 1)).
  rewrite !jointly_confident_cons.
  rewrite jointly_confident_low_ref
    by (apply Forall_replicate; unfold MIN_CONFIDENCE; simpl; lra).
  repeat destruct (_ && _); simpl; lia.
Qed.

(** ** Normalisation *)

Section Normalisation.

Lemma np_norm_pow (x y : R) : np_norm x y = sqrt (x ^ 2 + y ^ 2).
Proof. unfold np_norm. f_equal. ring. Qed.

Lemma np_norm_scale (s x y : R) : 0 <= s → np_norm (s * x) (s * y) = s * np_norm x y.
Proof.
  intros Hs. unfold np_norm.
  replace (s * x * (s * x) + s * y * (s * y)) with (s * s * (x * x + y * y)) by ring.
  rewrite sqrt_mult; [| nra | nra].
  by rewrite sqrt_square.
Qed.

Lemma torso_scale_lower (kps : list keypoint) : 1e-8 <= torso_scale kps.
Proof. unfold torso_scale. case_decide; lra. Qed.

(** On a skeleton that has keypoints 5, 11 and 12 the function returns, and
    what it returns is the translation to the hip midpoint followed by the
    division by the torso scale. *)
Lemma normalize_keypoints_spec (kps : list keypoint) :
  (12 < length kps)%nat →
  normalize_keypoints kps
  = Some ((λ kp, Kp ((kx kp - (hip_midpoint kps).1) / torso_scale kps)
                    ((ky kp - (hip_midpoint kps).2) / torso_scale kps)
                    (kc kp)) <$> kps).
Proof.
  intros Hlen.
  destruct (lookup_lt_is_Some_2 kps 11) as [lh Hlh]; [lia |].
  destruct (lookup_lt_is_Some_2 kps 12) as [rh Hrh]; [lia |].
  destruct (lookup_lt_is_Some_2 kps 5) as [ls Hls]; [lia |].
  unfold normalize_keypoints, hip_midpoint, torso_scale, torso_distance.
  rewrite Hlh, Hrh, Hls. cbn [mbind option_bind fst snd].
  by rewrite np_norm_pow.
Qed.

Lemma normalize_keypoints_short (kps : list keypoint) :
  (length kps ≤ 12)%nat → normalize_keypoints kps = None.
Proof.
  intros Hlen. unfold normalize_keypoints.
  destruct (kps !! 11%nat); [| reflexivity]. cbn [mbind option_bind].
  by rewrite (lookup_ge_None_2 kps 12) by lia.
Qed.

End Normalisation.

(** C5: on a skeleton of 17 keypoints normalisation returns 17 keypoints;
    each is the input keypoint translated by the midpoint of the two hips
    and divided by the torso scale, which is the left-shoulder to right-hip
    distance, or 1 when that distance is below 1e-8, and hence never below
    1e-8; the midpoint of the normalised hips is the origin; the 17
    confidences are the input's. *)
Theorem normalize_keypoints_torso_frame (kps : list keypoint) :
  length kps = 17%nat →
  ∃ out,
    normalize_keypoints kps = Some out
    ∧ length out = 17%nat
    ∧ (∀ i kp, kps !! i = Some kp →
               out !! i = Some (Kp ((kx kp - (hip_midpoint kps).1) / torso_scale kps)
                                   ((ky kp - (hip_midpoint kps).2) / torso_scale kps)
                                   (kc kp)))
    ∧ (torso_distance kps < 1e-8 → torso_scale kps = 1)
    ∧ (1e-8 <= torso_distance kps → torso_scale kps = torso_distance kps)
    ∧ 1e-8 <= torso_scale kps
    ∧ hip_midpoint out = (0, 0)
    ∧ kc <$> out = kc <$> kps.
Proof.
  intros Hlen. eexists. split; [apply normalize_keypoints_spec; lia |].
  pose proof (torso_scale_lower kps) as Hs.
  split; [by rewrite length_fmap |].
  split; [intros i kp Hi; by rewrite list_lookup_fmap, Hi |].
  split; [intros Hd; unfold torso_scale; by rewrite decide_True |].
  split; [intros Hd; unfold torso_scale; rewrite decide_False; [done | lra] |].
  split; [exact Hs |].
  split.
  - destruct (lookup_lt_is_Some_2 kps 11) as [lh Hlh]; [lia |].
    destruct (lookup_lt_is_Some_2 kps 12) as [rh Hrh]; [lia |].
    unfold hip_midpoint at 1. rewrite !list_lookup_fmap, Hlh, Hrh.
    cbn [fmap option_fmap option_map kx ky].
    unfold hip_midpoint. rewrite Hlh, Hrh. cbn [fst snd].
    f_equal; field; lra.
  - rewrite <- list_fmap_compose. reflexivity.
Qed.

Lemma normalize_keypoints_torso_frame_witness :
  ∃ out, normalize_keypoints (replicate 17 (Kp 3 4 1)) = Some out
         ∧ length out = 17%nat.
Proof.
  destruct (normalize_keypoints_torso_frame (replicate 17 (Kp 3 4 1)))
    as (out & Hout & Hlen & _); [reflexivity |].
  exists out. split; assumption.
Defined.

Section Invariance.

Variables (s tx ty : R).
Hypothesis s_pos : 0 < s.

Lemma torso_distance_scale_translate (kps : list keypoint) :
  torso_distance (scale_translate s tx ty kps) = s * torso_distance kps.
Proof.
  unfold torso_distance, scale_translate. rewrite !list_lookup_fmap.
  destruct (kps !! 5%nat) as [ls |]; cbn [fmap option_fmap option_map]; [| lra].
  destruct (kps !! 12%nat) as [rh |]; cbn [fmap option_fmap option_map kx ky]; [| lra].
  rewrite <- !np_norm_pow, <- np_norm_scale by lra.
  f_equal; ring.
Qed.

Lemma hip_midpoint_scale_translate (kps : list keypoint) :
  (12 < length kps)%nat →
  hip_midpoint (scale_translate s tx ty kps)
  = (s * (hip_midpoint kps).1 + tx, s * (hip_midpoint kps).2 + ty).
Proof.
  intros Hlen.
  destruct (lookup_lt_is_Some_2 kps 11) as [lh Hlh]; [lia |].
  destruct (lookup_lt_is_Some_2 kps 12) as [rh Hrh]; [lia |].
  unfold hip_midpoint, scale_translate. rewrite !list_lookup_fmap, Hlh, Hrh.
  cbn [fmap option_fmap option_map kx ky fst snd].
  f_equal; field.
Qed.

Lemma normalize_scale_translate (kps : list keypoint) :
  (12 < length kps)%nat →
  1e-8 <= torso_distance kps →
  1e-8 <= torso_distance (scale_translate s tx ty kps) →
  normalize_keypoints (scale_translate s tx ty kps) = normalize_keypoints kps.
Proof.
  intros Hlen Hd Hd'.
  rewrite !normalize_keypoints_spec
    by (unfold scale_translate; rewrite ?length_fmap; lia).
  f_equal.
  rewrite hip_midpoint_scale_translate by exact Hlen.
  unfold torso_scale. rewrite !decide_False by lra.
  rewrite torso_distance_scale_translate.
  unfold scale_translate. rewrite <- list_fmap_compose.
  apply list_fmap_ext. intros i kp _. unfold compose.
  cbn [kx ky kc fst snd].
  f_equal; field; lra.
Qed.

End Invariance.

(** C8: scaling the raw coordinates of a 17-keypoint skeleton by a positive
    factor and translating them does not change its normalisation, as long
    as the torso distance of the skeleton and of its image both reach 1e-8;
    the confidences of both normalisations are those of the input.  In
    exact arithmetic the two outputs are equal, hence within every
    tolerance. *)
Theorem normalize_translation_scale_invariant (kps : list keypoint) (s tx ty : R) :
  length kps = 17%nat →
  0 < s →
  1e-8 <= torso_distance kps →
  1e-8 <= torso_distance (scale_translate s tx ty kps) →
  ∃ out,
    normalize_keypoints kps = Some out
    ∧ normalize_keypoints (scale_translate s tx ty kps) = Some out
    ∧ kc <$> out = kc <$> kps
    ∧ kc <$> out = kc <$> scale_translate s tx ty kps.
Proof.
  intros Hlen Hs Hd Hd'.
  destruct (normalize_keypoints_torso_frame kps Hlen)
    as (out & Hout & _ & _ & _ & _ & _ & _ & Hconf).
  exists out. split; [exact Hout |].
  split; [rewrite normalize_scale_translate; [exact Hout | exact Hs | lia | exact Hd | exact Hd'] |].
  split; [exact Hconf |].
  rewrite Hconf. unfold scale_translate. rewrite <- list_fmap_compose. reflexivity.
Qed.

Lemma torso_distance_example :
  torso_distance (replicate 12 (Kp 0 0 1) ++ replicate 5 (Kp 3 4 1)) = 5.
Proof.
  unfold torso_distance. cbn [replicate app lookup list_lookup kx ky].
  replace ((0 - 3) ^ 2 + (0 - 4) ^ 2) with (5 * 5) by ring.
  apply sqrt_square. lra.
Qed.

Lemma normalize_translation_scale_invariant_witness :
  let sk := replicate 12 (Kp 0 0 1) ++ replicate 5 (Kp 3 4 1) in
  ∃ out, normalize_keypoints sk = Some out
         ∧ normalize_keypoints (scale_translate 2 1 1 sk) = Some out.
Proof.
  intros sk.
  destruct (normalize_translation_scale_invariant sk 2 1 1)
    as (out & H1 & H2 & _).
  - reflexivity.
  - lra.
  - subst sk. rewrite torso_distance_example. lra.
  - subst sk. rewrite torso_distance_scale_translate, torso_distance_example; lra.
  - exists out. split; assumption.
Defined.

(** ** Joint angles *)

Section JointAngles.

Lemma compute_angle_range (p1 p2 p3 : keypoint) : 0 <= compute_angle p1 p2 p3 <= 180.
Proof.
  unfold compute_angle. destruct (_ || _); [lra |].
  unfold np_degrees.
  match goal with |- context [acos ?c] => pose proof (acos_bound c) as Hb end.
  pose proof PI_RGT_0 as Hpi.
  split.
  - apply Rmult_le_pos; [lra |]. apply Rlt_le, Rdiv_lt_0_compat; lra.
  - replace 180 with (PI * (180 / PI)) at 2 by (field; lra).
    apply Rmult_le_compat_r; [| lra].
    apply Rlt_le, Rdiv_lt_0_compat; lra.
Qed.

Lemma compute_angle_degenerate (p1 p2 p3 : keypoint) :
  bone_length p2 p1 < 1e-8 ∨ bone_length p2 p3 < 1e-8 → compute_angle p1 p2 p3 = 0.
Proof.
  unfold bone_length, compute_angle. rewrite <- !np_norm_pow. intros Hdeg.
  destruct Hdeg as [H | H].
  - by rewrite (bool_decide_true _ H).
  - rewrite (bool_decide_true _ H). by rewrite orb_true_r.
Qed.

Lemma joint_angle_spec (kps : list keypoint) (i j k : nat) (p1 p2 p3 : keypoint) :
  kps !! i = Some p1 → kps !! j = Some p2 → kps !! k = Some p3 →
  joint_angle kps (i, j, k)
  = Some (if decide (low_confidence p1 p2 p3) then None
          else Some (py_round (compute_angle p1 p2 p3) 2)).
Proof.
  intros H1 H2 H3. unfold joint_angle, low_confidence.
  rewrite H1, H2, H3. cbn [mbind option_bind].
  case_decide as Hlow.
  - destruct Hlow as [H | [H | H]]; rewrite (bool_decide_true _ H);
      by rewrite ?orb_true_r.
  - rewrite !bool_decide_false by tauto. reflexivity.
Qed.

(** The loop of [compute_joint_angles] over a table without repeated
    names, started from the dict [acc]. *)
Lemma compute_joint_angles_fold (kps : list keypoint)
    (defs : list (string * (nat * nat * nat))) :
  NoDup defs.*1 →
  Forall (λ nd, is_Some (joint_angle kps nd.2)) defs →
  ∀ acc : gmap string (option R),
  ∃ angles : gmap string (option R),
    foldl (λ acc '(name, def),
             angles ← acc;
             a ← joint_angle kps def;
             Some (<[name := a]> angles)) (Some acc) defs = Some angles
    ∧ (∀ name def, (name, def) ∈ defs → angles !! name = joint_angle kps def)
    ∧ (∀ name, name ∉ defs.*1 → angles !! name = acc !! name).
Proof.
  induction defs as [| [n d] defs IH]; intros Hnd Hall acc.
  - exists acc. split; [reflexivity |]. split; [| done].
    intros name def Hin. by apply elem_of_nil in Hin.
  - apply NoDup_cons in Hnd as [Hn Hnd].
    apply Forall_cons in Hall as [[a Ha] Hall].
    simpl in Ha. cbn [foldl mbind option_bind]. rewrite Ha. cbn [mbind option_bind].
    destruct (IH Hnd Hall (<[n := a]> acc)) as (angles & Hfold & Hin & Hout).
    exists angles. split; [exact Hfold |]. split.
    + intros name def Hmem. apply elem_of_cons in Hmem as [Heq | Hmem].
      * injection Heq as -> ->.
        rewrite Hout by exact Hn. rewrite Ha. apply lookup_insert_eq.
      * by apply Hin.
    + intros name Hname. rewrite fmap_cons in Hname.
      apply not_elem_of_cons in Hname as [Hne Hname].
      rewrite Hout by exact Hname. simpl in Hne.
      by rewrite lookup_insert_ne.
Qed.

Lemma angle_definitions_nodup : NoDup ANGLE_NAMES.
Proof. compute_done. Qed.

Lemma angle_definitions_in_range :
  Forall (λ nd : string * (nat * nat * nat),
            let '(i, j, k) := nd.2 in (i < 17 ∧ j < 17 ∧ k < 17)%nat)
         ANGLE_DEFINITIONS.
Proof. repeat constructor. Qed.

Lemma joint_angle_is_Some (kps : list keypoint) :
  (17 ≤ length kps)%nat →
  Forall (λ nd, is_Some (joint_angle kps nd.2)) ANGLE_DEFINITIONS.
Proof.
  intros Hlen. eapply Forall_impl; [apply angle_definitions_in_range |].
  intros [name [[i j] k]] (Hi & Hj & Hk). cbn [snd] in *.
  destruct (lookup_lt_is_Some_2 kps i) as [p1 H1]; [lia |].
  destruct (lookup_lt_is_Some_2 kps j) as [p2 H2]; [lia |].
  destruct (lookup_lt_is_Some_2 kps k) as [p3 H3]; [lia |].
  rewrite (joint_angle_spec kps i j k p1 p2 p3) by assumption. eauto.
Qed.

End JointAngles.

(** C4: on a skeleton of 17 keypoints [compute_joint_angles] returns an
    angle set that binds exactly the 8 joint names.  For each joint with
    keypoints p1, p2 (the vertex), p3: when one of the three confidences is
    below 0.3 the angle is undefined; otherwise it is a number between 0 and
    180, and it is exactly 0 when one of the two bone vectors is shorter
    than 1e-8. *)
Theorem joint_angles_defined_bounded (kps : list keypoint) :
  length kps = 17%nat →
  ∃ angles : gmap string (option R),
    compute_joint_angles kps = Some angles
    ∧ (∀ name, name ∉ ANGLE_NAMES → angles !! name = None)
    ∧ (∀ name i j k, (name, (i, j, k)) ∈ ANGLE_DEFINITIONS →
       ∃ p1 p2 p3,
         kps !! i = Some p1 ∧ kps !! j = Some p2 ∧ kps !! k = Some p3
         ∧ (low_confidence p1 p2 p3 → angles !! name = Some None)
         ∧ (¬ low_confidence p1 p2 p3 →
            ∃ a, angles !! name = Some (Some a)
                 ∧ 0 <= a <= 180
                 ∧ (bone_length p2 p1 < 1e-8 ∨ bone_length p2 p3 < 1e-8 → a = 0))).
Proof.
  intros Hlen.
  destruct (compute_joint_angles_fold kps ANGLE_DEFINITIONS
              angle_definitions_nodup (joint_angle_is_Some kps ltac:(lia)) ∅)
    as (angles & Hfold & Hin & Hout).
  exists angles. split; [exact Hfold |].
  split; [intros name Hname; by rewrite Hout |].
  intros name i j k Hmem.
  pose proof angle_definitions_in_range as Hrange.
  rewrite Forall_forall in Hrange. specialize (Hrange _ Hmem) as (Hi & Hj & Hk).
  destruct (lookup_lt_is_Some_2 kps i) as [p1 H1]; [lia |].
  destruct (lookup_lt_is_Some_2 kps j) as [p2 H2]; [lia |].
  destruct (lookup_lt_is_Some_2 kps k) as [p3 H3]; [lia |].
  exists p1, p2, p3. repeat (split; [assumption |]).
  rewrite (Hin _ _ Hmem), (joint_angle_spec kps i j k p1 p2 p3) by assumption.
  split.
  - intros Hlow. by rewrite decide_True.
  - intros Hok. rewrite decide_False by exact Hok. eexists. split; [reflexivity |].
    split.
    + apply (py_round_bounds 0 180), compute_angle_range.
    + intros Hdeg. rewrite compute_angle_degenerate by exact Hdeg.
      apply (py_round_IZR 0).
Qed.

Lemma joint_angles_defined_bounded_witness :
  ∃ angles : gmap string (option R),
    compute_joint_angles (replicate 17 (Kp 0 0 1)) = Some angles
    ∧ angles !! "left_elbow" = Some (Some 0).
Proof.
  destruct (joint_angles_defined_bounded (replicate 17 (Kp 0 0 1)))
    as (angles & Hc & _ & Hj); [reflexivity |].
  exists angles. split; [exact Hc |].
  destruct (Hj "left_elbow" 5 7 9)%nat as (p1 & p2 & p3 & H1 & H2 & H3 & _ & Hdef).
  { apply list_elem_of_here. }
  injection H1 as <-. injection H2 as <-. injection H3 as <-.
  destruct Hdef as (a & Ha & _ & Hzero).
  { unfold low_confidence, MIN_CONFIDENCE. simpl. lra. }
  rewrite Ha, Hzero; [reflexivity |].
  left. unfold bone_length. cbn [kx ky].
  replace ((0 - 0) ^ 2 + (0 - 0) ^ 2) with 0 by ring.
  rewrite sqrt_0. lra.
Defined.

(** ** Temporal smoothing *)

Section Smoothing.

Lemma smooth_keypoint_low (alpha : R) (prev current : list keypoint) (i : nat)
    (cur : keypoint) :
  current !! i = Some cur → kc cur < MIN_CONFIDENCE →
  smooth_keypoint alpha prev current i = Some cur.
Proof.
  intros Hi Hlow. unfold smooth_keypoint. rewrite Hi. cbn [mbind option_bind].
  by rewrite decide_True.
Qed.

Lemma smooth_keypoint_blend (alpha : R) (prev current : list keypoint) (i : nat)
    (cur p : keypoint) :
  current !! i = Some cur → prev !! i = Some p → MIN_CONFIDENCE <= kc cur →
  smooth_keypoint alpha prev current i
  = Some (Kp (alpha * kx cur + (1 - alpha) * kx p)
             (alpha * ky cur + (1 - alpha) * ky p)
             (kc cur)).
Proof.
  intros Hi Hp Hok. unfold smooth_keypoint. rewrite Hi. cbn [mbind option_bind].
  rewrite decide_False by lra. by rewrite Hp.
Qed.

(** With a stored skeleton at least as long as the current one no index
    is out of range. *)
Lemma smooth_pose_later (alpha : R) (prev current : list keypoint) :
  (length current ≤ length prev)%nat →
  ∃ smoothed,
    smooth_pose (Engine (Some prev) alpha) current
    = Some (smoothed, Engine (Some smoothed) alpha)
    ∧ length smoothed = length current
    ∧ ∀ i cur, current !! i = Some cur →
        smooth_keypoint alpha prev current i = smoothed !! i.
Proof.
  intros Hlen. unfold smooth_pose. cbn [_prev_keypoints _smooth_alpha].
  destruct (mapM (smooth_keypoint alpha prev current) (seq 0 (length current)))
    as [smoothed |] eqn:Hm.
  - exists smoothed. split; [reflexivity |].
    pose proof (length_mapM _ _ _ Hm) as Hl. rewrite length_seq in Hl.
    split; [lia |].
    intros i cur Hi. apply mapM_Some in Hm.
    assert (seq 0 (length current) !! i = Some i) as Hseq.
    { apply lookup_seq. split; [reflexivity |]. by eapply lookup_lt_Some. }
    destruct (Forall2_lookup_l _ _ _ _ _ Hm Hseq) as (y & Hy & Hf).
    by rewrite Hy, Hf.
  - exfalso. apply mapM_None, Exists_exists in Hm as (i & Hi & Hnone).
    apply elem_of_seq in Hi as [_ Hi]. simpl in Hi.
    destruct (lookup_lt_is_Some_2 current i) as [cur Hcur]; [lia |].
    destruct (lookup_lt_is_Some_2 prev i) as [p Hp]; [lia |].
    destruct (decide (kc cur < MIN_CONFIDENCE)) as [Hlow | Hok].
    + by rewrite (smooth_keypoint_low _ _ _ _ _ Hcur Hlow) in Hnone.
    + rewrite (smooth_keypoint_blend _ _ _ _ _ _ Hcur Hp) in Hnone by lra.
      discriminate.
Qed.

(** What a session keeps: the coefficient 0.6, and a stored skeleton of 17
    keypoints once a frame was seen. *)
Lemma session_invariant (e : PoseEngine.engine) :
  session e →
  _smooth_alpha e = 0.6
  ∧ ∀ prev, _prev_keypoints e = Some prev → length prev = 17%nat.
Proof.
  induction 1 as [| e e' current smoothed _ [IHa IHp] Hlen Hstep].
  - split; [reflexivity | discriminate].
  - destruct e as [[prev |] alpha]; cbn [_smooth_alpha _prev_keypoints] in *.
    + destruct (smooth_pose_later alpha prev current) as (out & Hout & Hl & _).
      { rewrite (IHp prev eq_refl). lia. }
      rewrite Hout in Hstep. injection Hstep as <- <-.
      cbn [_smooth_alpha _prev_keypoints].
      split; [exact IHa |]. intros ? [= <-]. lia.
    + unfold smooth_pose in Hstep. cbn in Hstep. injection Hstep as <- <-.
      cbn [_smooth_alpha _prev_keypoints].
      split; [exact IHa |]. by intros ? [= <-].
Qed.

End Smoothing.

(** C7: in a smoothing session, the first frame is stored and returned
    unchanged; on a later frame the call returns and stores a skeleton in
    which a keypoint whose current confidence reaches 0.3 has the
    coordinates 0.6 current + 0.4 stored previous (and the current
    confidence), and a keypoint whose current confidence is below 0.3 is the
    current keypoint unchanged. *)
Theorem smooth_pose_ema (e : PoseEngine.engine) (current : list keypoint) :
  session e →
  length current = 17%nat →
  match _prev_keypoints e with
  | None =>
      smooth_pose e current = Some (current, Engine (Some current) 0.6)
  | Some prev =>
      ∃ smoothed,
        smooth_pose e current = Some (smoothed, Engine (Some smoothed) 0.6)
        ∧ length smoothed = 17%nat
        ∧ ∀ i cur, current !! i = Some cur →
            ∃ p, prev !! i = Some p
              ∧ (MIN_CONFIDENCE <= kc cur →
                 smoothed !! i = Some (Kp (0.6 * kx cur + 0.4 * kx p)
                                          (0.6 * ky cur + 0.4 * ky p)
                                          (kc cur)))
              ∧ (kc cur < MIN_CONFIDENCE → smoothed !! i = Some cur)
  end.
Proof.
  intros Hs Hlen. destruct (session_invariant e Hs) as [Ha Hp].
  destruct e as [[prev |] alpha]; cbn [_smooth_alpha _prev_keypoints] in *; subst alpha.
  - specialize (Hp prev eq_refl).
    destruct (smooth_pose_later 0.6 prev current) as (smoothed & Hout & Hl & Hkp);
      [lia |].
    exists smoothed. split; [exact Hout |]. split; [lia |].
    intros i cur Hi.
    destruct (lookup_lt_is_Some_2 prev i) as [p Hpi].
    { apply lookup_lt_Some in Hi. lia. }
    exists p. split; [exact Hpi |].
    rewrite <- (Hkp i cur Hi). split.
    + intros Hok. rewrite (smooth_keypoint_blend _ _ _ _ _ _ Hi Hpi Hok).
      do 2 f_equal; lra.
    + intros Hlow. by apply smooth_keypoint_low.
  - reflexivity.
Qed.

(** The first frame (10,10) everywhere, the second (20,20): the second
    call returns (16,16). *)
Lemma smooth_pose_ema_witness :
  ∃ smoothed e',
    smooth_pose (Engine (Some (replicate 17 (Kp 10 10 1))) 0.6)
                (replicate 17 (Kp 20 20 1)) = Some (smoothed, e')
    ∧ smoothed !! 0%nat = Some (Kp 16 16 1).
Proof.
  assert (session (Engine (Some (replicate 17 (Kp 10 10 1))) 0.6)) as Hs.
  { eapply (session_frame PoseEngine.init _ (replicate 17 (Kp 10 10 1)));
      [apply session_start | reflexivity | reflexivity]. }
  destruct (smooth_pose_ema _ (replicate 17 (Kp 20 20 1)) Hs eq_refl)
    as (smoothed & Hout & _ & Hkp).
  exists smoothed, (Engine (Some smoothed) 0.6). split; [exact Hout |].
  destruct (Hkp 0%nat (Kp 20 20 1) eq_refl) as (p & Hp & Hblend & _).
  injection Hp as <-.
  rewrite Hblend by (unfold MIN_CONFIDENCE; simpl; lra).
  cbn [kx ky kc]. do 2 f_equal; lra.
Defined.

(** ** Feedback *)

Section FeedbackLists.

(** The three messages of each of the 8 joints exist. *)
Lemma messages_exist :
  Forall (λ name, is_Some (GOOD_MESSAGES !! name)
                  ∧ is_Some (issue_message name "too_small")
                  ∧ is_Some (issue_message name "too_large")) ANGLE_NAMES.
Proof. compute_done. Qed.

(** No two joints share a positive message. *)
Lemma good_messages_distinct :
  Forall (λ n, Forall (λ n', n ≠ n' → GOOD_MESSAGES !! n ≠ GOOD_MESSAGES !! n')
                      ANGLE_NAMES) ANGLE_NAMES.
Proof. compute_done. Qed.

(** The 16 issue messages are pairwise distinct. *)
Lemma issue_messages_distinct :
  Forall (λ n, Forall (λ n',
     (n ≠ n' → issue_message n "too_small" ≠ issue_message n' "too_small"
               ∧ issue_message n "too_large" ≠ issue_message n' "too_large")
     ∧ issue_message n "too_small" ≠ issue_message n' "too_large")
     ANGLE_NAMES) ANGLE_NAMES.
Proof. compute_done. Qed.

Variables live_angles ref_angles : gmap string (option R).

Lemma feedback_step_spec (issues good : list string) (name : string) :
  is_Some (GOOD_MESSAGES !! name) →
  is_Some (issue_message name "too_small") →
  is_Some (issue_message name "too_large") →
  feedback_step live_angles ref_angles (issues, good) name
  = Some (issues ++ option_list (issue_of live_angles ref_angles name),
          good ++ option_list (good_of live_angles ref_angles name)).
Proof.
  intros [g Hg] [s Hs] [l Hl].
  unfold feedback_step, issue_of, good_of, joint_verdict, ANGLE_TOLERANCE.
  destruct (dict_get live_angles name) as [lv |]; cbn [mbind option_bind];
    [| by rewrite !app_nil_r].
  destruct (dict_get ref_angles name) as [rv |]; cbn [mbind option_bind];
    [| by rewrite !app_nil_r].
  repeat case_decide; rewrite ?Hg, ?Hs, ?Hl; cbn [mbind option_bind option_list];
    by rewrite ?app_nil_r.
Qed.

Lemma feedback_fold (names : list string) :
  Forall (λ name, is_Some (GOOD_MESSAGES !! name)
                  ∧ is_Some (issue_message name "too_small")
                  ∧ is_Some (issue_message name "too_large")) names →
  ∀ issues good,
    foldl (λ acc name, acc ≫= λ a, feedback_step live_angles ref_angles a name)
          (Some (issues, good)) names
    = Some (issues ++ omap (issue_of live_angles ref_angles) names,
            good ++ omap (good_of live_angles ref_angles) names).
Proof.
  induction 1 as [| name names (Hg & Hs & Hl) _ IH]; intros issues good.
  - by rewrite !app_nil_r.
  - cbn [foldl mbind option_bind].
    rewrite feedback_step_spec, IH by assumption.
    cbn [omap list_omap].
    destruct (issue_of _ _ name), (good_of _ _ name); cbn [option_list];
      by rewrite <- ?app_assoc, ?app_nil_r.
Qed.

End FeedbackLists.

Section Occurrences.

Context {A : Type} (f : A → option string).

Lemma occurrences_omap_absent (m : string) (names : list A) :
  (∀ n, n ∈ names → f n ≠ Some m) → m ∉ omap f names.
Proof.
  intros Hall Hin. apply list_elem_of_omap in Hin as (n & Hn & Hf).
  by apply (Hall n).
Qed.

Lemma occurrences_absent (m : string) (l : list string) :
  m ∉ l → occurrences m l = 0%nat.
Proof.
  intros Hm. unfold occurrences.
  induction l as [| x l IH]; [reflexivity |].
  apply not_elem_of_cons in Hm as [Hne Hm].
  rewrite filter_cons, decide_False by congruence. by apply IH.
Qed.

Lemma occurrences_omap_once (m : string) (names : list A) (n : A) :
  n ∈ names → f n = Some m →
  (∀ i j n', names !! i = Some n → names !! j = Some n' → i ≠ j → f n' ≠ Some m) →
  occurrences m (omap f names) = 1%nat.
Proof.
  intros Hin Hf Hothers. apply list_elem_of_lookup in Hin as [i Hi].
  revert i Hi Hothers. induction names as [| x names IH]; intros i Hi Hothers;
    [by rewrite lookup_nil in Hi |].
  destruct i as [| i]; cbn [omap list_omap].
  - injection Hi as ->. rewrite Hf.
    unfold occurrences. rewrite filter_cons, decide_True by reflexivity.
    cbn [length]. f_equal. apply occurrences_absent, occurrences_omap_absent.
    intros n' Hn'. apply list_elem_of_lookup in Hn' as [j Hj].
    by apply (Hothers 0%nat (S j) n').
  - assert (f x ≠ Some m) as Hx by (by apply (Hothers (S i) 0%nat x)).
    assert (occurrences m (omap f names) = 1%nat) as Hrest.
    { apply (IH i Hi). intros i' j n' Hi' Hj Hne.
      apply (Hothers (S i') (S j) n'); [done | done | lia]. }
    destruct (f x) as [y |]; [| exact Hrest].
    unfold occurrences. rewrite filter_cons, decide_False by congruence.
    exact Hrest.
Qed.

End Occurrences.

Section FeedbackVerdicts.

Variables live_angles ref_angles : gmap string (option R).

Lemma good_of_inj (name n' g : string) :
  name ∈ ANGLE_NAMES → n' ∈ ANGLE_NAMES →
  GOOD_MESSAGES !! name = Some g →
  good_of live_angles ref_angles n' = Some g →
  n' = name ∧ joint_verdict live_angles ref_angles n' = Some Correct.
Proof.
  intros Hn Hn' Hg Hof. unfold good_of in Hof.
  destruct (joint_verdict live_angles ref_angles n') as [[] |]; try discriminate.
  split; [| reflexivity].
  destruct (decide (n' = name)) as [| Hne]; [assumption | exfalso].
  pose proof good_messages_distinct as Hd. rewrite Forall_forall in Hd.
  specialize (Hd _ Hn'). rewrite Forall_forall in Hd.
  apply (Hd _ Hn Hne). congruence.
Qed.

Lemma issue_of_small_inj (name n' s : string) :
  name ∈ ANGLE_NAMES → n' ∈ ANGLE_NAMES →
  issue_message name "too_small" = Some s →
  issue_of live_angles ref_angles n' = Some s →
  n' = name ∧ joint_verdict live_angles ref_angles n' = Some TooSmall.
Proof.
  intros Hn Hn' Hs Hof. unfold issue_of in Hof.
  pose proof issue_messages_distinct as Hd. rewrite Forall_forall in Hd.
  destruct (joint_verdict live_angles ref_angles n') as [[] |]; try discriminate.
  - split; [| reflexivity].
    destruct (decide (n' = name)) as [| Hne]; [assumption | exfalso].
    specialize (Hd _ Hn'). rewrite Forall_forall in Hd.
    destruct (Hd _ Hn) as [Hdist _]. destruct (Hdist Hne) as [Hsm _].
    apply Hsm. congruence.
  - exfalso. specialize (Hd _ Hn). rewrite Forall_forall in Hd.
    destruct (Hd _ Hn') as [_ Hcross]. apply Hcross. congruence.
Qed.

Lemma issue_of_large_inj (name n' l : string) :
  name ∈ ANGLE_NAMES → n' ∈ ANGLE_NAMES →
  issue_message name "too_large" = Some l →
  issue_of live_angles ref_angles n' = Some l →
  n' = name ∧ joint_verdict live_angles ref_angles n' = Some TooLarge.
Proof.
  intros Hn Hn' Hl Hof. unfold issue_of in Hof.
  pose proof issue_messages_distinct as Hd. rewrite Forall_forall in Hd.
  destruct (joint_verdict live_angles ref_angles n') as [[] |]; try discriminate.
  - exfalso. specialize (Hd _ Hn'). rewrite Forall_forall in Hd.
    destruct (Hd _ Hn) as [_ Hcross]. apply Hcross. congruence.
  - split; [| reflexivity].
    destruct (decide (n' = name)) as [| Hne]; [assumption | exfalso].
    specialize (Hd _ Hn'). rewrite Forall_forall in Hd.
    destruct (Hd _ Hn) as [Hdist _]. destruct (Hdist Hne) as [_ Hlg].
    apply Hlg. congruence.
Qed.

(** A message that only the joint [name] can contribute, and contributes
    exactly under the verdict [v], occurs once under that verdict and not at
    all otherwise. *)
Lemma message_once_or_absent (f : string → option string) (name m : string)
    (v : verdict) :
  name ∈ ANGLE_NAMES →
  (∀ n', n' ∈ ANGLE_NAMES → f n' = Some m →
         n' = name ∧ joint_verdict live_angles ref_angles n' = Some v) →
  (joint_verdict live_angles ref_angles name = Some v → f name = Some m) →
  (joint_verdict live_angles ref_angles name = Some v →
   occurrences m (omap f ANGLE_NAMES) = 1%nat)
  ∧ (joint_verdict live_angles ref_angles name ≠ Some v →
     m ∉ omap f ANGLE_NAMES).
Proof.
  intros Hn Hinj Hf. split.
  - intros Hv. apply (occurrences_omap_once f m ANGLE_NAMES name Hn (Hf Hv)).
    intros i j n' Hi Hj Hne Hfn'.
    destruct (Hinj n') as [-> _]; [by eapply list_elem_of_lookup_2 | exact Hfn' |].
    apply Hne. eapply NoDup_lookup; eauto using angle_definitions_nodup.
  - intros Hv. apply occurrences_omap_absent. intros n' Hn' Hfn'.
    destruct (Hinj n' Hn' Hfn') as [-> Hv']. contradiction.
Qed.

End FeedbackVerdicts.

(** C6: [generate_feedback] returns a record that carries the similarity it
    was given and the confidence rounded to two decimals.  For each of the
    8 joints whose live and reference angles are both defined, with
    diff = live - reference: when |diff| <= 25 the joint's positive message
    occurs exactly once among the positive messages and neither of its issue
    messages is emitted; when diff < -25 its "too small" message occurs
    exactly once among the issues and its other two messages are not
    emitted; when diff > 25 the same holds of its "too large" message.  A
    joint with an undefined angle contributes none of its three messages. *)
Theorem feedback_classifies_joints (live_angles ref_angles : gmap string (option R))
    (similarity confidence : R) :
  ∃ fb,
    generate_feedback live_angles ref_angles similarity confidence = Some fb
    ∧ fb_similarity fb = similarity
    ∧ fb_confidence fb = py_round confidence 2
    ∧ ∀ name, name ∈ ANGLE_NAMES →
      ∃ g s l,
        GOOD_MESSAGES !! name = Some g
        ∧ issue_message name "too_small" = Some s
        ∧ issue_message name "too_large" = Some l
        ∧ match dict_get live_angles name, dict_get ref_angles name with
          | Some live_val, Some ref_val =>
              (Rabs (live_val - ref_val) <= 25 →
               occurrences g (fb_good fb) = 1%nat
               ∧ (s ∉ fb_issues fb) ∧ (l ∉ fb_issues fb))
              ∧ (live_val - ref_val < - 25 →
                 occurrences s (fb_issues fb) = 1%nat
                 ∧ (l ∉ fb_issues fb) ∧ (g ∉ fb_good fb))
              ∧ (25 < live_val - ref_val →
                 occurrences l (fb_issues fb) = 1%nat
                 ∧ (s ∉ fb_issues fb) ∧ (g ∉ fb_good fb))
          | _, _ => (g ∉ fb_good fb) ∧ (s ∉ fb_issues fb) ∧ (l ∉ fb_issues fb)
          end.
Proof.
  unfold generate_feedback.
  rewrite (feedback_fold live_angles ref_angles ANGLE_NAMES messages_exist).
  cbn [mbind option_bind app]. eexists. split; [reflexivity |].
  cbn [fb_similarity fb_confidence fb_issues fb_good].
  split; [reflexivity |]. split; [reflexivity |].
  intros name Hn.
  pose proof messages_exist as Hex. rewrite Forall_forall in Hex.
  destruct (Hex name Hn) as ([g Hg] & [s Hs] & [l Hl]).
  exists g, s, l. repeat (split; [assumption |]).
  destruct (message_once_or_absent live_angles ref_angles
              (good_of live_angles ref_angles) name g Correct Hn)
    as [Hg1 Hg0].
  { intros n' Hn'. by apply good_of_inj. }
  { intros Hv. unfold good_of. by rewrite Hv. }
  destruct (message_once_or_absent live_angles ref_angles
              (issue_of live_angles ref_angles) name s TooSmall Hn)
    as [Hs1 Hs0].
  { intros n' Hn'. by apply issue_of_small_inj. }
  { intros Hv. unfold issue_of. by rewrite Hv. }
  destruct (message_once_or_absent live_angles ref_angles
              (issue_of live_angles ref_angles) name l TooLarge Hn)
    as [Hl1 Hl0].
  { intros n' Hn'. by apply issue_of_large_inj. }
  { intros Hv. unfold issue_of. by rewrite Hv. }
  revert Hg1 Hg0 Hs1 Hs0 Hl1 Hl0. unfold joint_verdict.
  destruct (dict_get live_angles name) as [lv |]; cbn [mbind option_bind];
    [| intros; repeat split; auto].
  destruct (dict_get ref_angles name) as [rv |]; cbn [mbind option_bind];
    [| intros; repeat split; auto].
  set (v := if decide (Rabs (lv - rv) <= 25) then Some Correct
            else if decide (lv - rv < - 25) then Some TooSmall else Some TooLarge).
  intros Hg1 Hg0 Hs1 Hs0 Hl1 Hl0.
  split; [| split]; intros Hdiff.
  - assert (v = Some Correct) as Hv by (subst v; by rewrite decide_True).
    split; [by apply Hg1 |]. split; [apply Hs0 | apply Hl0]; by rewrite Hv.
  - assert (¬ Rabs (lv - rv) <= 25) as Hout.
    { unfold Rabs. destruct (Rcase_abs _); lra. }
    assert (v = Some TooSmall) as Hv
      by (subst v; by rewrite decide_False, decide_True).
    split; [by apply Hs1 |]. split; [apply Hl0 | apply Hg0]; by rewrite Hv.
  - assert (¬ Rabs (lv - rv) <= 25) as Hout.
    { unfold Rabs. destruct (Rcase_abs _); lra. }
    assert (v = Some TooLarge) as Hv
      by (subst v; rewrite !decide_False; [done | lra | done]).
    split; [by apply Hl1 |]. split; [apply Hs0 | apply Hg0]; by rewrite Hv.
Qed.

(** A left elbow at 100 degrees against a reference of 80: diff = 20, one
    positive message and no issue for that joint. *)
Lemma feedback_classifies_joints_witness :
  ∃ fb,
    generate_feedback {[ "left_elbow" := Some 100 ]} {[ "left_elbow" := Some 80 ]} 90 1
    = Some fb
    ∧ occurrences "Left elbow position correct" (fb_good fb) = 1%nat
    ∧ "Left elbow not bent enough" ∉ fb_issues fb.
Proof.
  destruct (feedback_classifies_joints
              {[ "left_elbow" := Some 100 ]} {[ "left_elbow" := Some 80 ]} 90 1)
    as (fb & Hfb & _ & _ & Hjoint).
  exists fb. split; [exact Hfb |].
  destruct (Hjoint "left_elbow") as (g & s & l & Hg & Hs & Hl & Hcase).
  { apply list_elem_of_here. }
  assert (g = "Left elbow position correct") as -> by (vm_compute in Hg; congruence).
  assert (l = "Left elbow not bent enough") as -> by (vm_compute in Hl; congruence).
  rewrite !dict_get_singleton, !decide_True in Hcase by reflexivity.
  destruct Hcase as [Hok _].
  destruct Hok as (Hocc & _ & Habsent).
  { replace (100 - 80) with 20 by lra. rewrite Rabs_pos_eq; lra. }
  split; assumption.
Defined.

(** ** The pipeline returns *)

Section Pipeline.

Lemma mapM_lookup_fmap {A B} (f : A → B) (l : list A) (idxs : list nat) :
  mapM (λ i, x ← l !! i; Some (f x)) idxs = fmap f <$> mapM (l !!.) idxs.
Proof.
  induction idxs as [| i idxs IH]; [reflexivity |].
  cbn [mapM]. rewrite IH.
  destruct (l !! i); cbn; [| reflexivity].
  destruct (mapM (l !!.) idxs); reflexivity.
Qed.

Lemma mapM_lookup_in_range {A} (l : list A) (idxs : list nat) :
  Forall (λ i, (i < length l)%nat) idxs →
  ∃ picked, mapM (l !!.) idxs = Some picked ∧ length picked = length idxs.
Proof.
  intros Hall.
  destruct (mapM (l !!.) idxs) as [picked |] eqn:Hm.
  - exists picked. split; [reflexivity |]. symmetry. by eapply length_mapM.
  - exfalso. apply mapM_None, Exists_exists in Hm as (i & Hi & Hnone).
    rewrite Forall_forall in Hall. apply lookup_ge_None in Hnone.
    specialize (Hall i Hi). lia.
Qed.

Lemma mediapipe_indices_in_range : Forall (λ i, (i < 29)%nat) MEDIAPIPE_INDICES.
Proof. repeat constructor. Qed.

Lemma detect_keypoints_spec (fr : frame) (landmarks : list landmark)
    (rest : list (list landmark)) :
  pose_landmarks fr = landmarks :: rest → (29 ≤ length landmarks)%nat →
  ∃ picked,
    mapM (landmarks !!.) MEDIAPIPE_INDICES = Some picked
    ∧ length picked = 17%nat
    ∧ detect_keypoints fr
      = Some (Some (keypoint_of_landmark (frame_h fr) (frame_w fr) <$> picked)).
Proof.
  intros Hpose Hlen.
  destruct (mapM_lookup_in_range landmarks MEDIAPIPE_INDICES) as (picked & Hm & Hl).
  { eapply Forall_impl; [apply mediapipe_indices_in_range |].
    intros i Hi. simpl in Hi. lia. }
  exists picked. split; [exact Hm |]. split; [exact Hl |].
  unfold detect_keypoints. rewrite Hpose.
  rewrite (mapM_lookup_fmap (keypoint_of_landmark (frame_h fr) (frame_w fr))), Hm.
  reflexivity.
Qed.

Lemma compute_joint_angles_total (kps : list keypoint) :
  length kps = 17%nat → is_Some (compute_joint_angles kps).
Proof.
  intros Hlen.
  destruct (compute_joint_angles_fold kps ANGLE_DEFINITIONS
              angle_definitions_nodup (joint_angle_is_Some kps ltac:(lia)) ∅)
    as (angles & Hfold & _).
  exists angles. exact Hfold.
Qed.

Lemma normalize_keypoints_total (kps : list keypoint) :
  length kps = 17%nat →
  ∃ out, normalize_keypoints kps = Some out ∧ length out = 17%nat.
Proof.
  intros Hlen. eexists. split; [apply normalize_keypoints_spec; lia |].
  by rewrite length_fmap.
Qed.

Lemma compute_similarity_total (live_kps ref_kps : list keypoint)
    (live_angles ref_angles : gmap string (option R)) :
  length live_kps = 17%nat → length ref_kps = 17%nat →
  is_Some (compute_keypoint_similarity live_kps ref_kps)
  ∧ is_Some (compute_similarity live_kps ref_kps live_angles ref_angles).
Proof.
  intros Hl Hr.
  rewrite compute_similarity_blend, compute_keypoint_similarity_spec by lia.
  split; eexists; reflexivity.
Qed.

Lemma generate_feedback_total (live_angles ref_angles : gmap string (option R))
    (similarity confidence : R) :
  is_Some (generate_feedback live_angles ref_angles similarity confidence).
Proof.
  unfold generate_feedback.
  rewrite (feedback_fold live_angles ref_angles ANGLE_NAMES messages_exist).
  eexists. reflexivity.
Qed.

Lemma relative_kps_spec (kps : list keypoint) (h w : Z) :
  (0 < h)%Z → (0 < w)%Z →
  relative_kps kps h w = Some (relative_entry h w <$> kps).
Proof.
  intros Hh Hw. unfold relative_kps.
  rewrite !bool_decide_false by lia. cbn [orb].
  induction kps as [| kp kps IH]; [reflexivity |].
  cbn [mapM]. rewrite IH. reflexivity.
Qed.

(** Rounding keeps a relative coordinate that lies in [[0,1]] there. *)
Lemma relative_entry_unit (h w : Z) (kp : keypoint) :
  (0 < h)%Z → (0 < w)%Z →
  let '(x_rel, y_rel, c) := relative_entry h w kp in
  (0 <= kx kp <= IZR w → 0 <= x_rel <= 1)
  ∧ (0 <= ky kp <= IZR h → 0 <= y_rel <= 1)
  ∧ (0 <= kc kp <= 1 → 0 <= c <= 1).
Proof.
  intros Hh Hw. apply IZR_lt in Hh, Hw. unfold relative_entry.
  assert (∀ a b, 0 < b → 0 <= a <= b → 0 <= a / b <= 1) as Hdiv.
  { intros a b Hb [Ha Hab]. split.
    - apply Rmult_le_pos; [exact Ha |]. apply Rlt_le, Rinv_0_lt_compat, Hb.
    - apply (Rmult_le_reg_r b); [exact Hb |].
      unfold Rdiv. rewrite Rmult_assoc, Rinv_l by lra. lra. }
  split; [| split]; intros Hin; apply (py_round_bounds 0 1); auto.
Qed.

Lemma smooth_pose_total (e : PoseEngine.engine) (current : list keypoint) :
  session e → length current = 17%nat →
  ∃ smoothed e',
    smooth_pose e current = Some (smoothed, e') ∧ length smoothed = 17%nat.
Proof.
  intros Hs Hlen. destruct (session_invariant e Hs) as [_ Hp].
  destruct e as [[prev |] alpha]; cbn [_prev_keypoints] in Hp.
  - destruct (smooth_pose_later alpha prev current) as (smoothed & Hout & Hl & _).
    { rewrite (Hp prev eq_refl). lia. }
    exists smoothed, (Engine (Some smoothed) alpha). split; [exact Hout | lia].
  - exists current, (Engine (Some current) alpha). split; [reflexivity | exact Hlen].
Qed.

(** [_process_frame] on a frame with a detected person: the record it
    returns lists the smoothed keypoints, each divided by the shape of the
    frame and rounded. *)
Lemma process_frame_spec (refs : gmap string reference) (e : PoseEngine.engine)
    (fr : frame) (current_exercise : option string) :
  session e → detected_frame fr → well_formed_references refs →
  ∃ detected smoothed e' res,
    detect_keypoints fr = Some (Some detected)
    ∧ smooth_pose e detected = Some (smoothed, e')
    ∧ length smoothed = 17%nat
    ∧ WebsocketHandler._process_frame refs e fr current_exercise = Some (res, e')
    ∧ WebsocketHandler.detected res = true
    ∧ WebsocketHandler.keypoints res
      = relative_entry (frame_h fr) (frame_w fr) <$> smoothed.
Proof.
  intros Hs (Hh & Hw & landmarks & rest & Hpose & Hlms) Hrefs.
  destruct (detect_keypoints_spec fr landmarks rest Hpose Hlms)
    as (picked & _ & Hpicked & Hdet).
  set (detected := keypoint_of_landmark (frame_h fr) (frame_w fr) <$> picked) in *.
  assert (length detected = 17%nat) as Hdlen by (subst detected; by rewrite length_fmap).
  destruct (smooth_pose_total e detected Hs Hdlen) as (smoothed & e' & Hsm & Hslen).
  destruct (compute_joint_angles_total smoothed Hslen) as [angles Hang].
  destruct (normalize_keypoints_total smoothed Hslen) as (normalized & Hnorm & Hnlen).
  exists detected, smoothed, e'.
  unfold WebsocketHandler._process_frame.
  rewrite Hdet. cbn [mbind option_bind]. rewrite Hsm. cbn [mbind option_bind].
  rewrite Hang. cbn [mbind option_bind]. rewrite Hnorm. cbn [mbind option_bind].
  rewrite relative_kps_spec by assumption.
  destruct (current_exercise ≫= λ ex, if decide (ex = "") then None else refs !! ex)
    as [ref |] eqn:Hsel.
  - assert (length (ref_keypoints ref) = 17%nat) as Hrlen.
    { destruct current_exercise as [ex |]; [| discriminate].
      cbn [mbind option_bind] in Hsel. case_decide; [discriminate |].
      by eapply Hrefs. }
    destruct (compute_similarity_total normalized (ref_keypoints ref) angles
                (ref_angles ref) Hnlen Hrlen) as [_ [sim Hsim]].
    rewrite Hsim. cbn [mbind option_bind].
    destruct (generate_feedback_total angles (ref_angles ref) sim
                (mean_confidence smoothed)) as [fb Hfb].
    rewrite Hfb. cbn [mbind option_bind].
    eexists. do 2 (split; [reflexivity |]). split; [exact Hslen |].
    repeat split; reflexivity.
  - cbn [mbind option_bind]. eexists.
    do 2 (split; [reflexivity |]). split; [exact Hslen |].
    repeat split; reflexivity.
Qed.

(** [analyze_image] on a known exercise and a frame with a detected person:
    the response lists the detected keypoints, not smoothed, and renders the
    two angle sets. *)
Lemma analyze_image_spec (refs : gmap string reference) (exercise : string)
    (ref : reference) (fr : frame) :
  refs !! exercise = Some ref → well_formed_references refs → detected_frame fr →
  ∃ detected angles a,
    detect_keypoints fr = Some (Some detected)
    ∧ compute_joint_angles detected = Some angles
    ∧ App.analyze_image refs exercise (Some fr) = Some (App.Analysed a)
    ∧ App.keypoints a = relative_entry (frame_h fr) (frame_w fr) <$> detected
    ∧ App.live_angles a = App.render_angle <$> angles
    ∧ App.reference_angles a = App.render_angle <$> ref_angles ref.
Proof.
  intros Href Hrefs (Hh & Hw & landmarks & rest & Hpose & Hlms).
  destruct (detect_keypoints_spec fr landmarks rest Hpose Hlms)
    as (picked & _ & Hpicked & Hdet).
  set (detected := keypoint_of_landmark (frame_h fr) (frame_w fr) <$> picked) in *.
  assert (length detected = 17%nat) as Hdlen by (subst detected; by rewrite length_fmap).
  destruct (compute_joint_angles_total detected Hdlen) as [angles Hang].
  destruct (normalize_keypoints_total detected Hdlen) as (normalized & Hnorm & Hnlen).
  pose proof (Hrefs _ _ Href) as Hrlen.
  destruct (compute_similarity_total normalized (ref_keypoints ref) angles
              (ref_angles ref) Hnlen Hrlen) as [[kp_score Hkp] [sim Hsim]].
  destruct (generate_feedback_total angles (ref_angles ref) sim
              (mean_confidence detected)) as [fb Hfb].
  exists detected, angles.
  unfold App.analyze_image. rewrite Href, Hdet. cbn [mbind option_bind].
  rewrite Hang. cbn [mbind option_bind]. rewrite Hnorm. cbn [mbind option_bind].
  rewrite Hkp. cbn [mbind option_bind]. rewrite Hsim. cbn [mbind option_bind].
  rewrite Hfb. cbn [mbind option_bind].
  rewrite relative_kps_spec by assumption. cbn [mbind option_bind].
  eexists. repeat split; reflexivity.
Qed.

Lemma detect_keypoints_uniform (h w : Z) (lm : landmark) :
  detect_keypoints (Frame h w [replicate 29 lm])
  = Some (Some (replicate 17 (keypoint_of_landmark h w lm))).
Proof. reflexivity. Qed.

End Pipeline.

(** ** The keypoints of a result record *)

(** C9, as the code has it: on a frame with a detected person, in a
    smoothing session and with reference skeletons of 17 keypoints,
    [_process_frame] returns a record with [detected] set and 17 entries in
    [keypoints]; entry i is the i-th keypoint AFTER smoothing, its pixel
    coordinates divided by the width and height of the current frame and
    rounded to 5 decimals, its confidence rounded to 4.  A component lies in
    [[0,1]] when the smoothed pixel coordinate lies within the frame
    (respectively the confidence in [[0,1]]).  On the single-image path the
    entries are built the same way from the detected keypoints themselves. *)
Theorem stream_keypoints_relative (refs : gmap string reference)
    (e : PoseEngine.engine) (fr : frame) (current_exercise : option string) :
  session e → detected_frame fr → well_formed_references refs →
  ∃ detected smoothed e' res,
    detect_keypoints fr = Some (Some detected)
    ∧ smooth_pose e detected = Some (smoothed, e')
    ∧ WebsocketHandler._process_frame refs e fr current_exercise = Some (res, e')
    ∧ WebsocketHandler.detected res = true
    ∧ length (WebsocketHandler.keypoints res) = 17%nat
    ∧ (∀ i kp, smoothed !! i = Some kp →
         WebsocketHandler.keypoints res !! i
         = Some (py_round (kx kp / IZR (frame_w fr)) 5,
                 py_round (ky kp / IZR (frame_h fr)) 5,
                 py_round (kc kp) 4)
         ∧ (0 <= kx kp <= IZR (frame_w fr) →
            0 <= py_round (kx kp / IZR (frame_w fr)) 5 <= 1)
         ∧ (0 <= ky kp <= IZR (frame_h fr) →
            0 <= py_round (ky kp / IZR (frame_h fr)) 5 <= 1)
         ∧ (0 <= kc kp <= 1 → 0 <= py_round (kc kp) 4 <= 1))
    ∧ (∀ exercise ref, refs !! exercise = Some ref →
         ∃ a, App.analyze_image refs exercise (Some fr) = Some (App.Analysed a)
              ∧ App.keypoints a
                = (λ kp, (py_round (kx kp / IZR (frame_w fr)) 5,
                          py_round (ky kp / IZR (frame_h fr)) 5,
                          py_round (kc kp) 4)) <$> detected).
Proof.
  intros Hs Hfr Hrefs.
  destruct (process_frame_spec refs e fr current_exercise Hs Hfr Hrefs)
    as (detected & smoothed & e' & res & Hdet & Hsm & Hlen & Hres & Hflag & Hkps).
  exists detected, smoothed, e', res.
  do 4 (split; [assumption |]).
  split; [by rewrite Hkps, length_fmap |].
  split.
  - intros i kp Hi. split; [by rewrite Hkps, list_lookup_fmap, Hi |].
    destruct Hfr as (Hh & Hw & _).
    exact (relative_entry_unit (frame_h fr) (frame_w fr) kp Hh Hw).
  - intros exercise ref Href.
    destruct (analyze_image_spec refs exercise ref fr Href Hrefs Hfr)
      as (detected' & angles & a & Hdet' & _ & Ha & Hka & _).
    exists a. split; [exact Ha |].
    rewrite Hdet in Hdet'. injection Hdet' as <-. exact Hka.
Qed.

Lemma stream_keypoints_relative_witness :
  ∃ res e',
    WebsocketHandler._process_frame ∅ PoseEngine.init
      (Frame 480 640 [replicate 29 (Lm 0.5 0.5 1)]) None = Some (res, e')
    ∧ length (WebsocketHandler.keypoints res) = 17%nat.
Proof.
  destruct (stream_keypoints_relative ∅ PoseEngine.init
              (Frame 480 640 [replicate 29 (Lm 0.5 0.5 1)]) None)
    as (detected & smoothed & e' & res & _ & _ & Hres & _ & Hlen & _).
  - apply session_start.
  - split; [reflexivity |]. split; [reflexivity |].
    eexists _, _. split; [reflexivity |]. simpl. lia.
  - intros ex ref Hex. by rewrite lookup_empty in Hex.
  - exists res, e'. split; assumption.
Defined.

(** C9 as stated does not hold.  Two frames of one session: 1000 x 1000
    with every landmark at (0.9, 0.5), then 100 x 100 with every landmark at
    (0.5, 0.5), all visibilities 1.  The detector's answers are relative
    coordinates in [[0,1]], yet the record of the second frame has the entry
    (3.9, 2.3, 1): the smoothed pixel position 0.6 * 50 + 0.4 * 900 = 390
    divided by the width 100.  The entry is neither in [[0,1]] nor the
    detected pixel coordinate 50 divided by the width, which is 0.5. *)
Lemma stream_keypoints_outside_unit :
  let fr1 := Frame 1000 1000 [replicate 29 (Lm 0.9 0.5 1)] in
  let fr2 := Frame 100 100 [replicate 29 (Lm 0.5 0.5 1)] in
  ∃ res1 e1 res2 e2,
    WebsocketHandler._process_frame ∅ PoseEngine.init fr1 None = Some (res1, e1)
    ∧ WebsocketHandler._process_frame ∅ e1 fr2 None = Some (res2, e2)
    ∧ WebsocketHandler.detected res2 = true
    ∧ WebsocketHandler.keypoints res2 !! 0%nat = Some (3.9, 2.3, 1)
    ∧ ¬ (3.9 <= 1).
Proof.
  intros fr1 fr2.
  set (k1 := replicate 17 (keypoint_of_landmark 1000 1000 (Lm 0.9 0.5 1))).
  set (k2 := replicate 17 (keypoint_of_landmark 100 100 (Lm 0.5 0.5 1))).
  assert (well_formed_references ∅) as Hrefs.
  { intros ex ref Hex. by rewrite lookup_empty in Hex. }
  assert (detected_frame fr1 ∧ detected_frame fr2) as [Hfr1 Hfr2].
  { split; (split; [reflexivity |]; split; [reflexivity |];
            eexists _, _; split; [reflexivity |]; simpl; lia). }
  destruct (process_frame_spec ∅ PoseEngine.init fr1 None session_start Hfr1 Hrefs)
    as (d1 & s1 & e1 & res1 & Hd1 & Hs1 & _ & Hres1 & _ & _).
  assert (d1 = k1) as ->.
  { unfold fr1 in Hd1. rewrite detect_keypoints_uniform in Hd1.
    by do 2 apply (inj Some) in Hd1. }
  assert (e1 = Engine (Some k1) 0.6) as ->.
  { change (smooth_pose PoseEngine.init k1)
      with (Some (k1, Engine (Some k1) 0.6)) in Hs1.
    apply (inj Some) in Hs1. by apply (f_equal snd) in Hs1. }
  assert (session (Engine (Some k1) 0.6)) as Hsess.
  { apply (session_frame PoseEngine.init _ k1 k1);
      [apply session_start | reflexivity | reflexivity]. }
  destruct (process_frame_spec ∅ (Engine (Some k1) 0.6) fr2 None Hsess Hfr2 Hrefs)
    as (d2 & s2 & e2 & res2 & Hd2 & Hs2 & _ & Hres2 & Hflag & Hkps).
  assert (d2 = k2) as ->.
  { unfold fr2 in Hd2. rewrite detect_keypoints_uniform in Hd2.
    by do 2 apply (inj Some) in Hd2. }
  exists res1, (Engine (Some k1) 0.6), res2, e2.
  split; [exact Hres1 |]. split; [exact Hres2 |]. split; [exact Hflag |].
  split; [| lra].
  destruct (smooth_pose_later 0.6 k1 k2) as (s2' & Hs2' & _ & Hkp); [reflexivity |].
  assert (s2 = s2') as ->.
  { rewrite Hs2' in Hs2. apply (inj Some) in Hs2. by apply (f_equal fst) in Hs2. }
  specialize (Hkp 0%nat _ eq_refl).
  rewrite (smooth_keypoint_blend 0.6 k1 k2 0
             (keypoint_of_landmark 100 100 (Lm 0.5 0.5 1))
             (keypoint_of_landmark 1000 1000 (Lm 0.9 0.5 1)) eq_refl eq_refl) in Hkp
    by (unfold MIN_CONFIDENCE; simpl; lra).
  rewrite Hkps, list_lookup_fmap, <- Hkp.
  cbn [fmap option_fmap option_map relative_entry keypoint_of_landmark
       kx ky kc lm_x lm_y lm_visibility frame_h frame_w fr2].
  f_equal. unfold relative_entry. cbn [kx ky kc].
  f_equal; [f_equal |].
  - replace ((0.6 * (0.5 * 100) + (1 - 0.6) * (0.9 * 1000)) / 100)
      with (IZR 390000 / 10 ^ 5) by (simpl; lra).
    rewrite py_round_decimal. simpl. lra.
  - replace ((0.6 * (0.5 * 100) + (1 - 0.6) * (0.5 * 1000)) / 100)
      with (IZR 230000 / 10 ^ 5) by (simpl; lra).
    rewrite py_round_decimal. simpl. lra.
  - apply (py_round_IZR 1).
Qed.

(** ** The angles of the single-image response *)

Section RenderedAngles.

Lemma render_angle_rendered (angles : gmap string (option R)) :
  rendered_angles angles (App.render_angle <$> angles).
Proof.
  intros name. rewrite lookup_fmap.
  repeat split.
  - by intros ->.
  - by intros ->.
  - intros ->. cbn. by rewrite decide_True.
  - intros x Hx ->. cbn. by rewrite decide_False.
Qed.

End RenderedAngles.

(** C10: in the response of [analyze_image] for a detected pose, both
    [live_angles] and [reference_angles] show a defined angle of exactly 0
    as null, like an undefined angle, and every other defined angle rounded
    to one decimal. *)
Theorem analyze_image_zero_angle_null (refs : gmap string reference)
    (exercise : string) (ref : reference) (fr : frame) :
  refs !! exercise = Some ref → well_formed_references refs → detected_frame fr →
  ∃ detected angles a,
    detect_keypoints fr = Some (Some detected)
    ∧ compute_joint_angles detected = Some angles
    ∧ App.analyze_image refs exercise (Some fr) = Some (App.Analysed a)
    ∧ rendered_angles angles (App.live_angles a)
    ∧ rendered_angles (ref_angles ref) (App.reference_angles a).
Proof.
  intros Href Hrefs Hfr.
  destruct (analyze_image_spec refs exercise ref fr Href Hrefs Hfr)
    as (detected & angles & a & Hdet & Hang & Ha & _ & Hlive & Hshown).
  exists detected, angles, a. do 3 (split; [assumption |]).
  rewrite Hlive, Hshown. split; apply render_angle_rendered.
Qed.

(** A reference whose left elbow angle is exactly 0 is shown with a null
    left elbow. *)
Lemma analyze_image_zero_angle_null_witness :
  let tree := Reference (replicate 17 (Kp 0 0 1)) {[ "left_elbow" := Some 0 ]} in
  ∃ a, App.analyze_image {[ "tree" := tree ]} "tree"
         (Some (Frame 480 640 [replicate 29 (Lm 0.5 0.5 1)])) = Some (App.Analysed a)
       ∧ App.reference_angles a !! "left_elbow" = Some None.
Proof.
  intros tree.
  destruct (analyze_image_zero_angle_null {[ "tree" := tree ]} "tree" tree
              (Frame 480 640 [replicate 29 (Lm 0.5 0.5 1)]))
    as (detected & angles & a & _ & _ & Ha & _ & Hshown).
  - apply lookup_singleton_eq.
  - intros ex ref Hex. apply lookup_singleton_Some in Hex as [_ <-]. reflexivity.
  - split; [reflexivity |]. split; [reflexivity |].
    eexists _, _. split; [reflexivity |]. simpl. lia.
  - exists a. split; [exact Ha |].
    destruct (Hshown "left_elbow") as (_ & _ & Hzero & _).
    apply Hzero. apply lookup_singleton_eq.
Defined.

Lemma compute_joint_angles_lookup (kps : list keypoint)
    (angles : gmap string (option R)) (name : string) (i j k : nat)
    (p1 p2 p3 : keypoint) :
  length kps = 17%nat →
  compute_joint_angles kps = Some angles →
  (name, (i, j, k)) ∈ ANGLE_DEFINITIONS →
  kps !! i = Some p1 → kps !! j = Some p2 → kps !! k = Some p3 →
  angles !! name
  = Some (if decide (low_confidence p1 p2 p3) then None
          else Some (py_round (compute_angle p1 p2 p3) 2)).
Proof.
  intros Hlen Hang Hmem H1 H2 H3.
  destruct (compute_joint_angles_fold kps ANGLE_DEFINITIONS
              angle_definitions_nodup (joint_angle_is_Some kps ltac:(lia)) ∅)
    as (angles' & Hfold & Hin & _).
  unfold compute_joint_angles in Hang. rewrite Hfold in Hang.
  injection Hang as <-.
  rewrite (Hin _ _ Hmem). by apply joint_angle_spec.
Qed.

(** A person detected with all landmarks on one point: every bone vector
    has length 0, every joint angle is 0, and the response shows the left
    elbow as null although all confidences are 1. *)
Example analyze_image_degenerate_live :
  let tree := Reference (replicate 17 (Kp 0 0 1)) ∅ in
  ∃ a, App.analyze_image {[ "tree" := tree ]} "tree"
         (Some (Frame 480 640 [replicate 29 (Lm 0.5 0.5 1)])) = Some (App.Analysed a)
       ∧ App.live_angles a !! "left_elbow" = Some None.
Proof.
  intros tree.
  set (kp := keypoint_of_landmark 480 640 (Lm 0.5 0.5 1)).
  destruct (analyze_image_spec {[ "tree" := tree ]} "tree" tree
              (Frame 480 640 [replicate 29 (Lm 0.5 0.5 1)]))
    as (detected & angles & a & Hdet & Hang & Ha & _ & Hlive & _).
  - apply lookup_singleton_eq.
  - intros ex ref Hex. apply lookup_singleton_Some in Hex as [_ <-]. reflexivity.
  - split; [reflexivity |]. split; [reflexivity |].
    eexists _, _. split; [reflexivity |]. simpl. lia.
  - exists a. split; [exact Ha |].
    rewrite detect_keypoints_uniform in Hdet. do 2 apply (inj Some) in Hdet.
    subst detected. fold kp in Hang.
    rewrite Hlive, lookup_fmap.
    rewrite (compute_joint_angles_lookup (replicate 17 kp) angles
               "left_elbow" 5 7 9 kp kp kp eq_refl Hang);
      [| apply list_elem_of_here | reflexivity | reflexivity | reflexivity].
    rewrite decide_False
      by (unfold low_confidence, MIN_CONFIDENCE, kp; simpl; lra).
    rewrite compute_angle_degenerate.
    + rewrite (py_round_IZR 0). cbn. by rewrite decide_True.
    + left. unfold bone_length.
      replace ((kx kp - kx kp) ^ 2 + (ky kp - ky kp) ^ 2) with 0 by ring.
      rewrite sqrt_0. lra.
Qed.

(** ** The numeric examples of the specification in binary64 *)

Section Binary64Examples.

Import PrimFloat.

(** The boundary values of the angle curve and the end-to-end example
    (a difference of 20 degrees scores 90) are exact in binary64. *)
Example binary64_angle_score_values :
  Binary64.angle_score 15 = 100%float
  ∧ Binary64.angle_score 30 = 70%float
  ∧ Binary64.angle_score 60 = 30%float
  ∧ Binary64.angle_score 75 = 15%float
  ∧ Binary64.angle_score 90 = 0%float
  ∧ Binary64.angle_score 20 = 90%float.
Proof. vm_compute. repeat split. Qed.

(** Previous 10, current 20, coefficient 0.6: exactly 16 in binary64. *)
Example binary64_ema_value : Binary64.ema 0.6 20 10 = 16%float.
Proof. vm_compute. reflexivity. Qed.

(** Sub-scores 0 and 0 blend to 0, sub-scores 100 and 100 to 100. *)
Example binary64_blend_values :
  Binary64.clamped_blend 0 0 = 0%float
  ∧ Binary64.clamped_blend 100 100 = 100%float.
Proof. vm_compute. split; reflexivity. Qed.

End Binary64Examples.

(** * More properties of the code *)

(** ** Normalisation: edge cases and idempotence *)

Section NormalisationMore.

Lemma normalize_keypoints_inv (kps out : list keypoint) :
  normalize_keypoints kps = Some out →
  (12 < length kps)%nat
  ∧ out = (λ kp, Kp ((kx kp - (hip_midpoint kps).1) / torso_scale kps)
                    ((ky kp - (hip_midpoint kps).2) / torso_scale kps)
                    (kc kp)) <$> kps.
Proof.
  intros Hout.
  destruct (decide (12 < length kps)%nat) as [Hlen | Hlen].
  - split; [exact Hlen |].
    rewrite normalize_keypoints_spec in Hout by exact Hlen. congruence.
  - rewrite normalize_keypoints_short in Hout by lia. discriminate.
Qed.

Lemma torso_distance_normalized (kps : list keypoint) (cx cy s : R) :
  0 < s →
  torso_distance ((λ kp, Kp ((kx kp - cx) / s) ((ky kp - cy) / s) (kc kp)) <$> kps)
  = torso_distance kps / s.
Proof.
  intros Hs. unfold torso_distance. rewrite !list_lookup_fmap.
  destruct (kps !! 5%nat) as [ls |]; cbn [fmap option_fmap option_map];
    [| unfold Rdiv; lra].
  destruct (kps !! 12%nat) as [rh |]; cbn [fmap option_fmap option_map kx ky];
    [| unfold Rdiv; lra].
  rewrite <- !np_norm_pow.
  replace ((kx ls - cx) / s - (kx rh - cx) / s) with (/ s * (kx ls - kx rh))
    by (field; lra).
  replace ((ky ls - cy) / s - (ky rh - cy) / s) with (/ s * (ky ls - ky rh))
    by (field; lra).
  rewrite np_norm_scale by (left; by apply Rinv_0_lt_compat).
  unfold Rdiv. ring.
Qed.

Lemma hip_midpoint_normalized (kps : list keypoint) (s : R) :
  (12 < length kps)%nat → s ≠ 0 →
  hip_midpoint ((λ kp, Kp ((kx kp - (hip_midpoint kps).1) / s)
                          ((ky kp - (hip_midpoint kps).2) / s)
                          (kc kp)) <$> kps) = (0, 0).
Proof.
  intros Hlen Hs.
  destruct (lookup_lt_is_Some_2 kps 11) as [lh Hlh]; [lia |].
  destruct (lookup_lt_is_Some_2 kps 12) as [rh Hrh]; [lia |].
  unfold hip_midpoint at 1. rewrite !list_lookup_fmap, Hlh, Hrh.
  cbn [fmap option_fmap option_map kx ky].
  unfold hip_midpoint. rewrite Hlh, Hrh. cbn [fst snd].
  f_equal; field; exact Hs.
Qed.

Lemma torso_scale_pos (kps : list keypoint) : 0 < torso_scale kps.
Proof. pose proof (torso_scale_lower kps). lra. Qed.

Lemma torso_scale_normalized (kps out : list keypoint) :
  normalize_keypoints kps = Some out → torso_scale out = 1.
Proof.
  intros Hout. apply normalize_keypoints_inv in Hout as [_ ->].
  unfold torso_scale at 1.
  rewrite torso_distance_normalized by apply torso_scale_pos.
  unfold torso_scale.
  destruct (decide (torso_distance kps < 1e-8)) as [Hd | Hd].
  - rewrite Rdiv_1_r. by rewrite decide_True.
  - replace (torso_distance kps / torso_distance kps) with 1 by (field; lra).
    case_decide; lra.
Qed.

End NormalisationMore.

(** X1: normalising twice is normalising once: whatever
    [normalize_keypoints] returns is returned unchanged when it is
    normalised again, for a degenerate torso as well. *)
Theorem normalize_keypoints_idempotent (kps out : list keypoint) :
  normalize_keypoints kps = Some out → normalize_keypoints out = Some out.
Proof.
  intros Hout.
  pose proof (torso_scale_normalized kps out Hout) as Hscale.
  destruct (normalize_keypoints_inv kps out Hout) as [Hlen Heq].
  assert (hip_midpoint out = (0, 0)) as Hmid.
  { rewrite Heq. apply hip_midpoint_normalized; [exact Hlen |].
    pose proof (torso_scale_pos kps). lra. }
  rewrite normalize_keypoints_spec by (rewrite Heq, length_fmap; exact Hlen).
  rewrite Hscale, Hmid. cbn [fst snd]. f_equal.
  rewrite <- (list_fmap_id out) at 2. apply list_fmap_ext.
  intros i [x y c] _. unfold Datatypes.id. cbn [kx ky kc]. f_equal; field.
Qed.

Lemma normalize_keypoints_idempotent_witness :
  ∃ out, normalize_keypoints (replicate 12 (Kp 0 0 1) ++ replicate 5 (Kp 3 4 1)) = Some out
         ∧ normalize_keypoints out = Some out.
Proof.
  eexists. split; [apply normalize_keypoints_spec; simpl; lia |].
  apply (normalize_keypoints_idempotent
           (replicate 12 (Kp 0 0 1) ++ replicate 5 (Kp 3 4 1))).
  apply normalize_keypoints_spec. simpl. lia.
Defined.

(** X2: after normalisation the left-shoulder to right-hip distance is
    exactly 1 when it reached 1e-8 before, and is left as it was when it
    did not. *)
Theorem normalize_keypoints_unit_torso (kps out : list keypoint) :
  normalize_keypoints kps = Some out →
  (1e-8 <= torso_distance kps → torso_distance out = 1)
  ∧ (torso_distance kps < 1e-8 → torso_distance out = torso_distance kps).
Proof.
  intros Hout. apply normalize_keypoints_inv in Hout as [_ ->].
  rewrite torso_distance_normalized by apply torso_scale_pos.
  unfold torso_scale. split; intros Hd.
  - rewrite decide_False by lra. field. lra.
  - rewrite decide_True by exact Hd. apply Rdiv_1_r.
Qed.

Lemma normalize_keypoints_unit_torso_witness :
  ∃ out, normalize_keypoints (replicate 12 (Kp 0 0 1) ++ replicate 5 (Kp 3 4 1)) = Some out
         ∧ torso_distance out = 1.
Proof.
  eexists. split; [apply normalize_keypoints_spec; simpl; lia |].
  apply (normalize_keypoints_unit_torso
           (replicate 12 (Kp 0 0 1) ++ replicate 5 (Kp 3 4 1))).
  - apply normalize_keypoints_spec. simpl. lia.
  - rewrite torso_distance_example. lra.
Defined.

(** X3: [normalize_keypoints] raises exactly on a skeleton of 12 keypoints
    or fewer (it reads keypoints 5, 11 and 12 and checks no length);
    otherwise it returns as many keypoints as it was given. *)
Theorem normalize_keypoints_raises_iff (kps : list keypoint) :
  (normalize_keypoints kps = None ↔ (length kps ≤ 12)%nat)
  ∧ (∀ out, normalize_keypoints kps = Some out → length out = length kps).
Proof.
  split; [split |].
  - intros Hnone. destruct (decide (12 < length kps)%nat) as [Hlen | Hlen]; [| lia].
    rewrite normalize_keypoints_spec in Hnone by exact Hlen. discriminate.
  - apply normalize_keypoints_short.
  - intros out Hout. apply normalize_keypoints_inv in Hout as [_ ->].
    apply length_fmap.
Qed.

Lemma normalize_keypoints_raises_iff_witness :
  normalize_keypoints (replicate 12 (Kp 1 2 1)) = None
  ∧ ∃ out, normalize_keypoints (replicate 13 (Kp 1 2 1)) = Some out
           ∧ length out = 13%nat.
Proof.
  split.
  - apply (normalize_keypoints_raises_iff (replicate 12 (Kp 1 2 1))). simpl. lia.
  - eexists. split; [apply normalize_keypoints_spec; simpl; lia |].
    apply (normalize_keypoints_raises_iff (replicate 13 (Kp 1 2 1))).
    apply normalize_keypoints_spec. simpl. lia.
Defined.

(** ** The angle at a joint *)

Section AngleGeometry.

Lemma bone_length_norm (p2 p : keypoint) :
  bone_length p2 p = np_norm (kx p - kx p2) (ky p - ky p2).
Proof. unfold bone_length. by rewrite np_norm_pow. Qed.

Lemma np_norm_cauchy (a b c d : R) :
  - (np_norm a b * np_norm c d) <= a * c + b * d <= np_norm a b * np_norm c d.
Proof.
  unfold np_norm. split.
  - pose proof (sqrt_cauchy (- a) (- b) c d) as H.
    rewrite <- !Rsqr_neg in H. unfold Rsqr in H. lra.
  - pose proof (sqrt_cauchy a b c d) as H. unfold Rsqr in H. lra.
Qed.

Lemma compute_angle_nondegenerate (p1 p2 p3 : keypoint) :
  1e-8 <= bone_length p2 p1 → 1e-8 <= bone_length p2 p3 →
  compute_angle p1 p2 p3
  = np_degrees (acos (bone_dot p1 p2 p3 / (bone_length p2 p1 * bone_length p2 p3)))
  ∧ -1 <= bone_dot p1 p2 p3 / (bone_length p2 p1 * bone_length p2 p3) <= 1.
Proof.
  rewrite !bone_length_norm. intros H1 H3.
  set (n1 := np_norm (kx p1 - kx p2) (ky p1 - ky p2)) in *.
  set (n3 := np_norm (kx p3 - kx p2) (ky p3 - ky p2)) in *.
  assert (-1 <= bone_dot p1 p2 p3 / (n1 * n3) <= 1) as Hcos.
  { pose proof (np_norm_cauchy (kx p1 - kx p2) (ky p1 - ky p2)
                               (kx p3 - kx p2) (ky p3 - ky p2)) as Hc.
    fold n1 n3 in Hc. fold (bone_dot p1 p2 p3) in Hc.
    assert (0 < n1 * n3) as Hpos by (apply Rmult_lt_0_compat; lra).
    split.
    - apply (Rmult_le_reg_r (n1 * n3)); [exact Hpos |].
      unfold Rdiv. rewrite Rmult_assoc, Rinv_l by lra. lra.
    - apply (Rmult_le_reg_r (n1 * n3)); [exact Hpos |].
      unfold Rdiv. rewrite Rmult_assoc, Rinv_l by lra. lra. }
  split; [| exact Hcos].
  unfold compute_angle. fold n1 n3.
  rewrite !bool_decide_false by lra. cbn [orb].
  fold (bone_dot p1 p2 p3). f_equal. f_equal.
  unfold np_clip, Rmin, Rmax. repeat destruct (Rle_dec _ _); lra.
Qed.

Lemma compute_angle_sym (p1 p2 p3 : keypoint) :
  compute_angle p1 p2 p3 = compute_angle p3 p2 p1.
Proof.
  unfold compute_angle. rewrite orb_comm.
  destruct (_ || _); [reflexivity |].
  replace ((kx p3 - kx p2) * (kx p1 - kx p2) + (ky p3 - ky p2) * (ky p1 - ky p2))
    with ((kx p1 - kx p2) * (kx p3 - kx p2) + (ky p1 - ky p2) * (ky p3 - ky p2))
    by ring.
  by rewrite (Rmult_comm (np_norm (kx p3 - kx p2) (ky p3 - ky p2))).
Qed.

Lemma compute_angle_translate (tx ty : R) (p1 p2 p3 : keypoint) :
  compute_angle (translate tx ty p1) (translate tx ty p2) (translate tx ty p3)
  = compute_angle p1 p2 p3.
Proof.
  unfold compute_angle, translate. cbn [kx ky].
  replace (kx p1 + tx - (kx p2 + tx)) with (kx p1 - kx p2) by ring.
  replace (ky p1 + ty - (ky p2 + ty)) with (ky p1 - ky p2) by ring.
  replace (kx p3 + tx - (kx p2 + tx)) with (kx p3 - kx p2) by ring.
  replace (ky p3 + ty - (ky p2 + ty)) with (ky p3 - ky p2) by ring.
  reflexivity.
Qed.

End AngleGeometry.

(** X4: the angle at a joint does not depend on the order of the two outer
    keypoints, nor on where the three keypoints are: moving all of them by
    the same offset leaves it unchanged. *)
Theorem compute_angle_symmetric_translation_invariant (p1 p2 p3 : keypoint)
    (tx ty : R) :
  compute_angle p1 p2 p3 = compute_angle p3 p2 p1
  ∧ compute_angle (translate tx ty p1) (translate tx ty p2) (translate tx ty p3)
    = compute_angle p1 p2 p3.
Proof. split; [apply compute_angle_sym | apply compute_angle_translate]. Qed.

(** X5: when both bone vectors are at least 1e-8 long, the returned value
    is the geometric angle between them in degrees: its cosine is the dot
    product of the two vectors divided by the product of their lengths (the
    clipping to [[-1,1]] changes nothing in exact arithmetic). *)
Theorem compute_angle_cosine (p1 p2 p3 : keypoint) :
  1e-8 <= bone_length p2 p1 → 1e-8 <= bone_length p2 p3 →
  cos (compute_angle p1 p2 p3 * (PI / 180))
  = bone_dot p1 p2 p3 / (bone_length p2 p1 * bone_length p2 p3).
Proof.
  intros H1 H3.
  destruct (compute_angle_nondegenerate p1 p2 p3 H1 H3) as [-> Hcos].
  unfold np_degrees. pose proof PI_RGT_0.
  replace (acos _ * (180 / PI) * (PI / 180)) with
    (acos (bone_dot p1 p2 p3 / (bone_length p2 p1 * bone_length p2 p3)))
    by (field; lra).
  by apply cos_acos.
Qed.

Lemma bone_length_example (x : R) :
  0 <= x → bone_length (Kp 0 0 1) (Kp x 0 1) = x.
Proof.
  intros Hx. unfold bone_length. cbn [kx ky].
  replace ((x - 0) ^ 2 + (0 - 0) ^ 2) with (x * x) by ring.
  by apply sqrt_square.
Qed.

(** A right angle: the cosine of the angle at the origin between (1,0) and
    (0,1) is 0. *)
Lemma compute_angle_cosine_witness :
  cos (compute_angle (Kp 1 0 1) (Kp 0 0 1) (Kp 0 1 1) * (PI / 180)) = 0.
Proof.
  assert (bone_length (Kp 0 0 1) (Kp 1 0 1) = 1) as H1
    by (apply bone_length_example; lra).
  assert (bone_length (Kp 0 0 1) (Kp 0 1 1) = 1) as H3.
  { unfold bone_length. cbn [kx ky].
    replace ((0 - 0) ^ 2 + (1 - 0) ^ 2) with (1 * 1) by ring.
    apply sqrt_square. lra. }
  rewrite (compute_angle_cosine (Kp 1 0 1) (Kp 0 0 1) (Kp 0 1 1)).
  - rewrite H1, H3. unfold bone_dot. cbn [kx ky]. field.
  - rewrite H1. lra.
  - rewrite H3. lra.
Defined.

(** ** Joint angles: skeletons that are too short *)

Section JointAnglesShort.

Lemma compute_joint_angles_fold_None (kps : list keypoint)
    (defs : list (string * (nat * nat * nat))) :
  foldl (λ acc '(name, def),
           angles ← acc;
           a ← joint_angle kps def;
           Some (<[name := a]> angles))
        (None : option (gmap string (option R))) defs = None.
Proof. induction defs as [| [n d] defs IH]; [reflexivity | exact IH]. Qed.

Lemma compute_joint_angles_fold_fails (kps : list keypoint)
    (defs : list (string * (nat * nat * nat))) (acc : option (gmap string (option R))) :
  Exists (λ nd, joint_angle kps nd.2 = None) defs →
  foldl (λ acc '(name, def),
           angles ← acc;
           a ← joint_angle kps def;
           Some (<[name := a]> angles)) acc defs = None.
Proof.
  intros Hex. revert acc.
  induction Hex as [[n d] defs Hnone | [n d] defs _ IH]; intros acc.
  - cbn [foldl]. cbn [snd] in Hnone. rewrite Hnone.
    destruct acc; cbn [mbind option_bind]; apply compute_joint_angles_fold_None.
  - cbn [foldl]. apply IH.
Qed.

Lemma joint_angle_out_of_range (kps : list keypoint) (i j k : nat) :
  (length kps ≤ k)%nat → joint_angle kps (i, j, k) = None.
Proof.
  intros Hk. unfold joint_angle. rewrite (lookup_ge_None_2 kps k Hk).
  destruct (kps !! i); [| reflexivity]. cbn [mbind option_bind].
  destruct (kps !! j); reflexivity.
Qed.

End JointAnglesShort.

(** X6: [compute_joint_angles] raises exactly on a skeleton of fewer than
    17 keypoints (the knee definitions read keypoint 16); a skeleton of 17
    or more always gets its 8 angles. *)
Theorem compute_joint_angles_raises_iff (kps : list keypoint) :
  compute_joint_angles kps = None ↔ (length kps < 17)%nat.
Proof.
  split.
  - intros Hnone. destruct (decide (length kps < 17)%nat) as [| Hlen]; [assumption |].
    destruct (compute_joint_angles_fold kps ANGLE_DEFINITIONS
                angle_definitions_nodup (joint_angle_is_Some kps ltac:(lia)) ∅)
      as (angles & Hfold & _).
    unfold compute_joint_angles in Hnone. rewrite Hfold in Hnone. discriminate.
  - intros Hlen. apply compute_joint_angles_fold_fails.
    apply Exists_exists. exists ("right_knee"%string, (12, 14, 16)%nat).
    split; [| apply joint_angle_out_of_range; lia].
    unfold ANGLE_DEFINITIONS. do 5 apply list_elem_of_further. apply list_elem_of_here.
Qed.

Lemma compute_joint_angles_raises_iff_witness :
  compute_joint_angles (replicate 16 (Kp 0 0 1)) = None.
Proof.
  apply (compute_joint_angles_raises_iff (replicate 16 (Kp 0 0 1))). simpl. lia.
Defined.

(** ** The sub-scores: range and symmetry *)

Section Means.

Lemma Rsum_bounds (a b : R) (l : list R) :
  Forall (λ x, a <= x <= b) l →
  a * INR (length l) <= Rsum l <= b * INR (length l).
Proof.
  induction 1 as [| x l [Hax Hxb] _ IH].
  - simpl. lra.
  - change (Rsum (x :: l)) with (x + Rsum l).
    change (length (x :: l)) with (S (length l)). rewrite S_INR. lra.
Qed.

Lemma Rsum_pos (l : list R) :
  l ≠ [] → Forall (λ x, 0 < x) l → 0 < Rsum l.
Proof.
  intros Hne Hall. induction Hall as [| x l Hx Hall IH]; [done |].
  change (Rsum (x :: l)) with (x + Rsum l).
  destruct l as [| y l]; [simpl; lra |].
  assert (0 < Rsum (y :: l)) by (by apply IH). lra.
Qed.

Lemma INR_length_pos {A} (l : list A) : l ≠ [] → 0 < INR (length l).
Proof.
  intros Hne. destruct l; [done |]. apply lt_0_INR. simpl. lia.
Qed.

Lemma np_mean_bounds (a b : R) (l : list R) :
  l ≠ [] → Forall (λ x, a <= x <= b) l → a <= np_mean l <= b.
Proof.
  intros Hne Hall. pose proof (Rsum_bounds a b l Hall) as [Hlo Hhi].
  pose proof (INR_length_pos l Hne) as Hn. unfold np_mean. split.
  - apply (Rmult_le_reg_r (INR (length l))); [exact Hn |].
    unfold Rdiv. rewrite Rmult_assoc, Rinv_l by lra. lra.
  - apply (Rmult_le_reg_r (INR (length l))); [exact Hn |].
    unfold Rdiv. rewrite Rmult_assoc, Rinv_l by lra. lra.
Qed.

Lemma np_mean_pos (l : list R) :
  l ≠ [] → Forall (λ x, 0 < x) l → 0 < np_mean l.
Proof.
  intros Hne Hall. unfold np_mean.
  apply Rdiv_lt_0_compat; [by apply Rsum_pos | by apply INR_length_pos].
Qed.

End Means.

Section ScoreRanges.

Lemma euclidean_distance_nonneg (p : keypoint * keypoint) : 0 <= euclidean_distance p.
Proof. apply sqrt_pos. Qed.

Lemma decay_unit (d : R) : 0 <= d → 0 < exp (- 2 * d) <= 1.
Proof.
  intros Hd. split; [apply exp_pos |].
  rewrite <- exp_0. destruct (Req_dec d 0) as [-> | Hne].
  - right. f_equal. lra.
  - left. apply exp_increasing. lra.
Qed.

Lemma positional_score_range (live ref : list keypoint) :
  0 < positional_score live ref <= 100.
Proof.
  unfold positional_score. case_decide as Hfew; [lra |].
  set (sims := (λ p, exp (- 2 * euclidean_distance p)) <$> jointly_confident live ref).
  assert (sims ≠ []) as Hne.
  { subst sims. intros Hnil. apply fmap_nil_inv in Hnil. rewrite Hnil in Hfew.
    simpl in Hfew. lia. }
  assert (Forall (λ x, 0 < x <= 1) sims) as Hall.
  { subst sims. apply Forall_fmap, Forall_forall. intros p _.
    apply decay_unit, euclidean_distance_nonneg. }
  replace (length (jointly_confident live ref)) with (length sims)
    by (subst sims; apply length_fmap).
  fold (np_mean sims).
  assert (0 < np_mean sims).
  { apply np_mean_pos; [exact Hne |]. eapply Forall_impl; [exact Hall |].
    intros x Hx. simpl in Hx. lra. }
  assert (0 <= np_mean sims <= 1).
  { apply np_mean_bounds; [exact Hne |]. eapply Forall_impl; [exact Hall |].
    intros x Hx. simpl in Hx. lra. }
  lra.
Qed.

Lemma compute_angle_similarity_range (live_angles ref_angles : gmap string (option R)) :
  0 <= compute_angle_similarity live_angles ref_angles <= 100.
Proof.
  rewrite compute_angle_similarity_mean.
  destruct (comparable_diffs live_angles ref_angles) as [| d ds] eqn:Hds; [lra |].
  cbv zeta. rewrite <- (length_fmap angle_score).
  apply (np_mean_bounds 0 100 (angle_score <$> d :: ds)); [done |].
  apply Forall_fmap, Forall_forall. intros x _. apply angle_score_range.
Qed.

End ScoreRanges.

(** X7: both sub-scores stay in range: on two skeletons of the same
    non-zero length the positional sub-score is returned and lies in (0,100]
    (it is never 0, since exp is positive), and the angle sub-score always
    lies in [[0,100]]. *)
Theorem sub_scores_in_range (live ref : list keypoint)
    (live_angles ref_angles : gmap string (option R)) :
  length live = length ref → (0 < length live)%nat →
  (∃ kp_score, compute_keypoint_similarity live ref = Some kp_score
               ∧ 0 < kp_score <= 100)
  ∧ 0 <= compute_angle_similarity live_angles ref_angles <= 100.
Proof.
  intros Hlen Hpos. split; [| apply compute_angle_similarity_range].
  exists (positional_score live ref).
  split; [by apply compute_keypoint_similarity_spec | apply positional_score_range].
Qed.

Lemma sub_scores_in_range_witness :
  ∃ kp_score,
    compute_keypoint_similarity (replicate 17 (Kp 0 0 1)) (replicate 17 (Kp 1 1 1))
    = Some kp_score ∧ 0 < kp_score <= 100.
Proof.
  destruct (sub_scores_in_range (replicate 17 (Kp 0 0 1)) (replicate 17 (Kp 1 1 1)) ∅ ∅)
    as [Hkp _]; [reflexivity | simpl; lia |].
  exact Hkp.
Defined.

Section ScoreSymmetry.

Lemma np_and_comm (m1 m2 : list bool) : np_and m1 m2 = np_and m2 m1.
Proof.
  unfold np_and.
  destruct (decide (length m1 = length m2)) as [Heq | Hne].
  - rewrite decide_True by done. f_equal.
    revert m2 Heq. induction m1 as [| a m1 IH]; intros [| b m2] Heq;
      try discriminate; [reflexivity |].
    cbn [zip_with]. rewrite andb_comm, IH by (simpl in Heq; lia). reflexivity.
  - rewrite decide_False by done.
    destruct m1 as [| a [| a' m1]], m2 as [| b [| b' m2]];
      try reflexivity; try (simpl in Hne; lia).
    + f_equal. apply list_fmap_ext. intros i x _. apply andb_comm.
    + f_equal. apply list_fmap_ext. intros i x _. apply andb_comm.
Qed.

Lemma keypoint_distance_sym (l r : keypoint) :
  keypoint_distance l r = keypoint_distance r l.
Proof. unfold keypoint_distance, np_norm. f_equal. ring. Qed.

Lemma zip_with_distance_sym (ls rs : list keypoint) :
  zip_with keypoint_distance ls rs = zip_with keypoint_distance rs ls.
Proof.
  revert rs. induction ls as [| l ls IH]; intros [| r rs]; try reflexivity.
  cbn [zip_with]. by rewrite keypoint_distance_sym, IH.
Qed.

Lemma compute_keypoint_similarity_sym (live ref : list keypoint) :
  compute_keypoint_similarity live ref = compute_keypoint_similarity ref live.
Proof.
  unfold compute_keypoint_similarity.
  destruct (np_confidences live) as [lc |], (np_confidences ref) as [rc |];
    cbn [mbind option_bind]; try reflexivity.
  rewrite (np_and_comm (map _ rc)).
  destruct (np_and _ _) as [mask |]; cbn [mbind option_bind]; [| reflexivity].
  case_decide; [reflexivity |].
  destruct (np_index mask live) as [lp |], (np_index mask ref) as [rp |];
    cbn [mbind option_bind]; try reflexivity.
  by rewrite zip_with_distance_sym.
Qed.

Lemma comparable_diffs_sym (a b : gmap string (option R)) :
  comparable_diffs a b = comparable_diffs b a.
Proof.
  unfold comparable_diffs. apply list_omap_ext, Forall2_same_length_lookup.
  split; [reflexivity |]. intros i x y Hx Hy. rewrite Hx in Hy. injection Hy as <-.
  destruct (dict_get a x), (dict_get b x); cbn [mbind option_bind]; try reflexivity.
  by rewrite Rabs_minus_sym.
Qed.

Lemma compute_angle_similarity_sym (a b : gmap string (option R)) :
  compute_angle_similarity a b = compute_angle_similarity b a.
Proof. by rewrite !compute_angle_similarity_mean, comparable_diffs_sym. Qed.

End ScoreSymmetry.

(** X8: the comparison does not care which pose is called live and which
    reference: exchanging the two skeletons and the two angle sets gives
    the same positional sub-score (the same exception when it raises), the
    same angle sub-score and the same final score. *)
Theorem similarity_symmetric (live ref : list keypoint)
    (live_angles ref_angles : gmap string (option R)) :
  compute_keypoint_similarity live ref = compute_keypoint_similarity ref live
  ∧ compute_angle_similarity live_angles ref_angles
    = compute_angle_similarity ref_angles live_angles
  ∧ compute_similarity live ref live_angles ref_angles
    = compute_similarity ref live ref_angles live_angles.
Proof.
  split; [apply compute_keypoint_similarity_sym |].
  split; [apply compute_angle_similarity_sym |].
  unfold compute_similarity.
  by rewrite compute_keypoint_similarity_sym, compute_angle_similarity_sym.
Qed.

(** ** A pose compared with itself *)

Section SelfComparison.

Lemma np_mean_constant (c : R) (l : list R) :
  l ≠ [] → Forall (λ x, x = c) l → np_mean l = c.
Proof.
  intros Hne Hall.
  assert (c <= np_mean l <= c); [| lra].
  apply np_mean_bounds; [exact Hne |].
  eapply Forall_impl; [exact Hall |]. intros x ->. lra.
Qed.

Lemma jointly_confident_self (sk : list keypoint) :
  jointly_confident sk sk = (λ kp, (kp, kp)) <$> confident_keypoints sk.
Proof.
  unfold confident_keypoints.
  induction sk as [| kp sk IH]; [reflexivity |].
  rewrite jointly_confident_cons, filter_cons, IH.
  case_decide as Hc.
  - by rewrite bool_decide_true.
  - by rewrite bool_decide_false.
Qed.

Lemma positional_score_self (sk : list keypoint) :
  positional_score sk sk
  = if decide (length (confident_keypoints sk) < 3)%nat then 50 else 100.
Proof.
  unfold positional_score. rewrite jointly_confident_self, length_fmap.
  case_decide as Hfew; [reflexivity |].
  rewrite <- list_fmap_compose.
  set (sims := (_ ∘ _) <$> confident_keypoints sk).
  replace (length (confident_keypoints sk)) with (length sims)
    by (subst sims; apply length_fmap).
  fold (np_mean sims). rewrite (np_mean_constant 1); [lra | |].
  - subst sims. intros Hnil. apply fmap_nil_inv in Hnil. rewrite Hnil in Hfew.
    simpl in Hfew. lia.
  - subst sims. apply Forall_fmap, Forall_forall. intros kp _.
    unfold compose, euclidean_distance. cbn [fst snd].
    replace ((kx kp - kx kp) ^ 2 + (ky kp - ky kp) ^ 2) with 0 by ring.
    rewrite sqrt_0, Rmult_0_r. apply exp_0.
Qed.

Lemma comparable_diffs_self (angles : gmap string (option R)) :
  comparable_diffs angles angles = (λ _, 0) <$> defined_joints angles.
Proof.
  unfold comparable_diffs, defined_joints.
  induction ANGLE_NAMES as [| name names IH]; [reflexivity |].
  cbn [omap list_omap]. rewrite filter_cons, IH.
  destruct (dict_get angles name) as [v |]; cbn [mbind option_bind].
  - rewrite decide_True by eauto. cbn [fmap list_fmap]. f_equal.
    replace (v - v) with 0 by ring. apply Rabs_R0.
  - rewrite decide_False by (intros [? ?]; discriminate). reflexivity.
Qed.

Lemma compute_angle_similarity_self (angles : gmap string (option R)) :
  compute_angle_similarity angles angles
  = match defined_joints angles with [] => 50 | _ => 100 end.
Proof.
  rewrite compute_angle_similarity_mean, comparable_diffs_self.
  destruct (defined_joints angles) as [| n ns]; [reflexivity |].
  rewrite fmap_cons. cbv zeta.
  rewrite <- (length_fmap angle_score).
  assert (Forall (λ x, x = 100) (angle_score <$> 0 :: ((λ _ : string, 0) <$> ns)))
    as Hall.
  { apply Forall_fmap, Forall_forall. intros x Hx. simpl.
    assert (x = 0) as ->.
    { apply elem_of_cons in Hx as [-> | Hx]; [reflexivity |].
      apply list_elem_of_fmap in Hx as (? & -> & _). reflexivity. }
    apply angle_score_band1. lra. }
  refine (np_mean_constant 100 _ _ Hall). by rewrite fmap_cons.
Qed.

Lemma py_round_tenths (z : Z) : py_round (IZR z / 10) 1 = IZR z / 10.
Proof.
  pose proof (py_round_decimal z 1) as H. by rewrite pow_1 in H.
Qed.

End SelfComparison.

(** X9: a pose compared with itself.  The positional sub-score is 100 when
    at least three keypoints are confident and the neutral 50 otherwise;
    the angle sub-score is 100 when at least one joint angle is defined and
    the neutral 50 otherwise.  So the final score of a self-comparison is
    100 only with three confident keypoints and a defined angle, and 87.5,
    62.5 or 50 when one or both are missing. *)
Theorem self_comparison_score (sk : list keypoint) (angles : gmap string (option R)) :
  (0 < length sk)%nat →
  let positional := if decide (length (confident_keypoints sk) < 3)%nat
                    then 50 else 100 in
  let angle := match defined_joints angles with [] => 50 | _ => 100 end in
  compute_keypoint_similarity sk sk = Some positional
  ∧ compute_angle_similarity angles angles = angle
  ∧ compute_similarity sk sk angles angles
    = Some (0.25 * positional + 0.75 * angle).
Proof.
  intros Hpos positional angle.
  assert (compute_keypoint_similarity sk sk = Some positional) as Hkp.
  { rewrite compute_keypoint_similarity_spec by done. f_equal.
    apply positional_score_self. }
  assert (compute_angle_similarity angles angles = angle) as Hang
    by apply compute_angle_similarity_self.
  split; [exact Hkp |]. split; [exact Hang |].
  unfold compute_similarity. rewrite Hkp, Hang. cbn [mbind option_bind]. f_equal.
  subst positional angle.
  case_decide; destruct (defined_joints angles).
  - replace (Rmax 0 (Rmin 100 (0.25 * 50 + 0.75 * 50))) with (IZR 500 / 10).
    + rewrite py_round_tenths. lra.
    + unfold Rmax, Rmin. repeat destruct (Rle_dec _ _); lra.
  - replace (Rmax 0 (Rmin 100 (0.25 * 50 + 0.75 * 100))) with (IZR 875 / 10).
    + rewrite py_round_tenths. lra.
    + unfold Rmax, Rmin. repeat destruct (Rle_dec _ _); lra.
  - replace (Rmax 0 (Rmin 100 (0.25 * 100 + 0.75 * 50))) with (IZR 625 / 10).
    + rewrite py_round_tenths. lra.
    + unfold Rmax, Rmin. repeat destruct (Rle_dec _ _); lra.
  - replace (Rmax 0 (Rmin 100 (0.25 * 100 + 0.75 * 100))) with (IZR 1000 / 10).
    + rewrite py_round_tenths. lra.
    + unfold Rmax, Rmin. repeat destruct (Rle_dec _ _); lra.
Qed.

Lemma self_comparison_score_witness :
  let sk := replicate 17 (Kp 0 0 1) in
  compute_similarity sk sk ∅ ∅
  = Some (0.25 * (if decide (length (confident_keypoints sk) < 3)%nat
                  then 50 else 100) + 0.75 * 50).
Proof.
  intros sk.
  destruct (self_comparison_score sk ∅) as (_ & _ & Hfinal); [simpl; lia |].
  exact Hfinal.
Defined.

(** ** The positional sub-score on skeletons of different lengths *)

(** X10: what [compute_keypoint_similarity] does outside its intended
    domain.  It raises when one of the two skeletons is empty, and when the
    two have different lengths of at least two keypoints.  A skeleton of a
    single keypoint is broadcast by NumPy against a longer one: the result
    is the neutral 50 when fewer than three keypoints of the longer one are
    jointly confident with it, and an exception otherwise. *)
Theorem compute_keypoint_similarity_shapes (live ref : list keypoint) :
  (live = [] ∨ ref = [] → compute_keypoint_similarity live ref = None)
  ∧ ((2 ≤ length live)%nat → (2 ≤ length ref)%nat → length live ≠ length ref →
     compute_keypoint_similarity live ref = None)
  ∧ (∀ l, live = [l] → (2 ≤ length ref)%nat →
     compute_keypoint_similarity live ref
     = if decide (length (filter (λ r, (MIN_CONFIDENCE <= kc l ∧ MIN_CONFIDENCE <= kc r)%R)
                                 ref) < 3)%nat
       then Some 50 else None).
Proof.
  split; [| split].
  - intros [-> | ->]; [reflexivity |].
    unfold compute_keypoint_similarity. by destruct (np_confidences live).
  - intros Hl Hr Hne.
    destruct live as [| l1 [| l2 live]]; try (simpl in Hl; lia).
    destruct ref as [| r1 [| r2 ref]]; try (simpl in Hr; lia).
    unfold compute_keypoint_similarity, np_and. cbn [np_confidences mbind option_bind].
    rewrite decide_False; [reflexivity |]. rewrite !length_map. exact Hne.
  - intros l -> Hr.
    assert (np_confidences ref = Some (map kc ref)) as Hconf
      by (destruct ref; [simpl in Hr; lia | reflexivity]).
    unfold compute_keypoint_similarity. rewrite Hconf.
    cbn [np_confidences mbind option_bind map].
    set (b := bool_decide (MIN_CONFIDENCE <= kc l)).
    set (m := map (λ c, bool_decide (MIN_CONFIDENCE <= c)) (map kc ref)).
    assert (np_and [b] m = Some (map (andb b) m)) as ->.
    { assert (2 ≤ length m)%nat as Hm by (subst m; by rewrite !length_map).
      unfold np_and. rewrite decide_False by (simpl; lia).
      destruct m as [| x [| y m']]; try (simpl in Hm; lia). reflexivity. }
    cbn [mbind option_bind].
    assert (np_count (map (andb b) m)
            = length (filter (λ r, MIN_CONFIDENCE <= kc l ∧ MIN_CONFIDENCE <= kc r)
                             ref)) as ->.
    { subst b m. clear. induction ref as [| r rs IH]; [reflexivity |].
      cbn [map]. rewrite np_count_cons, filter_cons, IH.
      destruct (decide (MIN_CONFIDENCE <= kc l ∧ MIN_CONFIDENCE <= kc r))
        as [[Ha Hb] | Hn].
      - by rewrite !bool_decide_true.
      - assert (bool_decide (MIN_CONFIDENCE <= kc l)
                && bool_decide (MIN_CONFIDENCE <= kc r) = false) as ->; [| reflexivity].
        apply andb_false_iff.
        destruct (decide (MIN_CONFIDENCE <= kc l));
          [right | left]; apply bool_decide_false; tauto. }
    case_decide; [reflexivity |].
    unfold np_index.
    rewrite (decide_False (P := length (map (andb b) m) = length [l]));
      [reflexivity |].
    subst m. rewrite !length_map. simpl. lia.
Qed.

Lemma compute_keypoint_similarity_shapes_witness :
  compute_keypoint_similarity (replicate 17 (Kp 0 0 1)) (replicate 16 (Kp 0 0 1)) = None.
Proof.
  apply (compute_keypoint_similarity_shapes
           (replicate 17 (Kp 0 0 1)) (replicate 16 (Kp 0 0 1)));
    simpl; lia.
Defined.

(** ** Feedback: how many messages, and what the score says about them *)

Section FeedbackMore.

Variables live_angles ref_angles : gmap string (option R).

Lemma generate_feedback_lists (similarity confidence : R) :
  generate_feedback live_angles ref_angles similarity confidence
  = Some {| fb_similarity := similarity;
            fb_confidence := py_round confidence 2;
            fb_issues := omap (issue_of live_angles ref_angles) ANGLE_NAMES;
            fb_good := omap (good_of live_angles ref_angles) ANGLE_NAMES |}.
Proof.
  unfold generate_feedback.
  by rewrite (feedback_fold live_angles ref_angles ANGLE_NAMES messages_exist).
Qed.

Lemma joint_verdict_diff (name : string) :
  joint_verdict live_angles ref_angles name
  = (l ← dict_get live_angles name;
     r ← dict_get ref_angles name;
     Some (if decide (Rabs (l - r) <= 25) then Correct
           else if decide (l - r < - 25) then TooSmall else TooLarge)).
Proof.
  unfold joint_verdict.
  destruct (dict_get live_angles name) as [l |]; [| reflexivity].
  destruct (dict_get ref_angles name) as [r |]; [| reflexivity].
  cbn [mbind option_bind]. repeat case_decide; reflexivity.
Qed.

Lemma omap_length_le {A B} (f : A → option B) (l : list A) :
  (length (omap f l) ≤ length l)%nat.
Proof.
  induction l as [| x l IH]; [reflexivity |].
  cbn [omap list_omap]. destruct (f x); simpl; lia.
Qed.

Lemma omap_cons_option_list {A B} (f : A → option B) (x : A) (l : list A) :
  omap f (x :: l) = option_list (f x) ++ omap f l.
Proof. cbn [omap list_omap]. by destruct (f x). Qed.

(** Per joint: one message when the joint is comparable, none otherwise. *)
Lemma feedback_message_of_joint (name : string) :
  is_Some (GOOD_MESSAGES !! name) →
  is_Some (issue_message name "too_small") →
  is_Some (issue_message name "too_large") →
  (length (option_list (good_of live_angles ref_angles name))
   + length (option_list (issue_of live_angles ref_angles name))
   = length (option_list (l ← dict_get live_angles name;
                          r ← dict_get ref_angles name;
                          Some (Rabs (l - r)))))%nat.
Proof.
  intros [g Hg] [s Hs] [l Hl]. unfold good_of, issue_of.
  rewrite joint_verdict_diff.
  destruct (dict_get live_angles name) as [lv |]; [| reflexivity].
  destruct (dict_get ref_angles name) as [rv |]; [| reflexivity].
  cbn [mbind option_bind].
  repeat case_decide; rewrite ?Hg, ?Hs, ?Hl; reflexivity.
Qed.

Lemma feedback_messages_per_joint (names : list string) :
  Forall (λ name, is_Some (GOOD_MESSAGES !! name)
                  ∧ is_Some (issue_message name "too_small")
                  ∧ is_Some (issue_message name "too_large")) names →
  (length (omap (good_of live_angles ref_angles) names)
   + length (omap (issue_of live_angles ref_angles) names)
   = length (omap (λ name, l ← dict_get live_angles name;
                           r ← dict_get ref_angles name;
                           Some (Rabs (l - r))) names))%nat.
Proof.
  induction 1 as [| name names (Hg & Hs & Hl) _ IH]; [reflexivity |].
  rewrite !omap_cons_option_list, !length_app.
  pose proof (feedback_message_of_joint name Hg Hs Hl). lia.
Qed.

Lemma issue_of_None_within (name : string) (l r : R) :
  is_Some (issue_message name "too_small") →
  is_Some (issue_message name "too_large") →
  dict_get live_angles name = Some l → dict_get ref_angles name = Some r →
  issue_of live_angles ref_angles name = None →
  Rabs (l - r) <= 25.
Proof.
  intros [s Hs] [lg Hl] Hlv Hrv. unfold issue_of.
  rewrite joint_verdict_diff, Hlv, Hrv. cbn [mbind option_bind].
  repeat case_decide; rewrite ?Hs, ?Hl; try discriminate. done.
Qed.

End FeedbackMore.

(** X11: [generate_feedback] emits exactly one message for every joint
    whose live and reference angles are both defined and nothing else: the
    positive messages and the issues together are as many as the comparable
    joints, at most 8. *)
Theorem feedback_one_message_per_comparable_joint
    (live_angles ref_angles : gmap string (option R)) (similarity confidence : R) :
  ∃ fb,
    generate_feedback live_angles ref_angles similarity confidence = Some fb
    ∧ (length (fb_good fb) + length (fb_issues fb)
       = length (comparable_diffs live_angles ref_angles))%nat
    ∧ (length (fb_good fb) + length (fb_issues fb) ≤ 8)%nat.
Proof.
  eexists. split; [apply generate_feedback_lists |].
  cbn [fb_good fb_issues].
  pose proof (feedback_messages_per_joint live_angles ref_angles ANGLE_NAMES
                messages_exist) as Hcount.
  fold (comparable_diffs live_angles ref_angles) in Hcount.
  split; [exact Hcount |]. rewrite Hcount.
  unfold comparable_diffs. etrans; [apply omap_length_le |]. reflexivity.
Qed.

(** X12: a feedback without issues means a high angle sub-score: when
    [generate_feedback] lists no issue, every comparable joint is within 25
    degrees, so [compute_angle_similarity] is at least 80 if some joint is
    comparable (and the neutral 50 if none is). *)
Theorem no_issue_angle_similarity (live_angles ref_angles : gmap string (option R))
    (similarity confidence : R) (fb : feedback) :
  generate_feedback live_angles ref_angles similarity confidence = Some fb →
  fb_issues fb = [] →
  match comparable_diffs live_angles ref_angles with
  | [] => compute_angle_similarity live_angles ref_angles = 50
  | _ => 80 <= compute_angle_similarity live_angles ref_angles
  end.
Proof.
  intros Hfb Hnone. rewrite generate_feedback_lists in Hfb.
  apply (inj Some) in Hfb. subst fb. cbn [fb_issues] in Hnone.
  assert (Forall (λ d, d <= 25) (comparable_diffs live_angles ref_angles)) as Hall.
  { apply Forall_forall. intros d Hd. unfold comparable_diffs in Hd.
    apply list_elem_of_omap in Hd as (name & Hname & Hd).
    destruct (dict_get live_angles name) as [l |] eqn:Hl; [| discriminate].
    destruct (dict_get ref_angles name) as [r |] eqn:Hr; [| discriminate].
    cbn [mbind option_bind] in Hd. injection Hd as <-.
    pose proof messages_exist as Hex. rewrite Forall_forall in Hex.
    destruct (Hex name Hname) as (_ & Hs & Hlg).
    apply (issue_of_None_within live_angles ref_angles name l r Hs Hlg Hl Hr).
    destruct (issue_of live_angles ref_angles name) as [m |] eqn:Hm; [| reflexivity].
    exfalso. assert (m ∈ omap (issue_of live_angles ref_angles) ANGLE_NAMES) as Hin
      by (apply list_elem_of_omap; eauto).
    rewrite Hnone in Hin. by apply elem_of_nil in Hin. }
  rewrite compute_angle_similarity_mean.
  destruct (comparable_diffs live_angles ref_angles) as [| d ds]; [reflexivity |].
  cbv zeta. rewrite <- (length_fmap angle_score).
  apply (np_mean_bounds 80 100 (angle_score <$> d :: ds)); [done |].
  apply Forall_fmap. eapply Forall_impl; [exact Hall |].
  intros x Hx. simpl in *. pose proof (angle_score_range x).
  split; [| lra].
  destruct (decide (x <= 15)) as [H15 | H15].
  - rewrite angle_score_band1 by exact H15. lra.
  - rewrite angle_score_band2 by lra. lra.
Qed.

Lemma comparable_diffs_left_elbow (a b : R) :
  comparable_diffs {[ "left_elbow" := Some a ]} {[ "left_elbow" := Some b ]}
  = [Rabs (a - b)].
Proof.
  unfold comparable_diffs, ANGLE_NAMES, ANGLE_DEFINITIONS.
  cbn [fmap list_fmap fst omap list_omap].
  rewrite !dict_get_singleton.
  rewrite !decide_True by reflexivity.
  rewrite !decide_False by done. reflexivity.
Qed.

Lemma no_issue_angle_similarity_witness :
  80 <= compute_angle_similarity {[ "left_elbow" := Some 100 ]}
                                 {[ "left_elbow" := Some 80 ]}.
Proof.
  pose proof (generate_feedback_lists {[ "left_elbow" := Some 100 ]}
                {[ "left_elbow" := Some 80 ]} 90 1) as Hfb.
  pose proof (no_issue_angle_similarity _ _ 90 1 _ Hfb) as Hscore.
  rewrite comparable_diffs_left_elbow in Hscore. apply Hscore. cbn [fb_issues].
  destruct (omap _ ANGLE_NAMES) as [| m ms] eqn:Hissues; [reflexivity | exfalso].
  assert (m ∈ omap (issue_of {[ "left_elbow" := Some 100 ]}
                             {[ "left_elbow" := Some 80 ]}) ANGLE_NAMES) as Hin
    by (rewrite Hissues; apply list_elem_of_here).
  apply list_elem_of_omap in Hin as (name & _ & Hm).
  unfold issue_of in Hm. rewrite joint_verdict_diff, !dict_get_singleton in Hm.
  case_decide; [| discriminate]. cbn [mbind option_bind] in Hm.
  rewrite decide_True in Hm; [discriminate |].
  replace (100 - 80) with 20 by lra. rewrite Rabs_pos_eq; lra.
Defined.

(** ** Feedback: exchanging live and reference *)

Section FeedbackSwap.

Variables live_angles ref_angles : gmap string (option R).

Lemma joint_verdict_swap (name : string) :
  joint_verdict ref_angles live_angles name
  = swap_verdict <$> joint_verdict live_angles ref_angles name.
Proof.
  rewrite !joint_verdict_diff.
  destruct (dict_get live_angles name) as [l |], (dict_get ref_angles name) as [r |];
    try reflexivity.
  cbn [mbind option_bind fmap option_fmap option_map]. f_equal.
  rewrite (Rabs_minus_sym r l).
  destruct (decide (Rabs (l - r) <= 25)) as [Hin | Hout]; [reflexivity |].
  assert (l - r < - 25 ∨ 25 < l - r) as [Hlo | Hhi].
  { unfold Rabs in Hout. destruct (Rcase_abs _); [left | right]; lra. }
  - rewrite (decide_False (P := r - l < - 25)) by lra.
    by rewrite (decide_True (P := l - r < - 25)).
  - rewrite (decide_True (P := r - l < - 25)) by lra.
    by rewrite (decide_False (P := l - r < - 25)) by lra.
Qed.

Lemma issue_small_iff (name small : string) :
  name ∈ ANGLE_NAMES → issue_message name "too_small" = Some small →
  small ∈ omap (issue_of live_angles ref_angles) ANGLE_NAMES
  ↔ joint_verdict live_angles ref_angles name = Some TooSmall.
Proof.
  intros Hn Hs. rewrite list_elem_of_omap. split.
  - intros (n' & Hn' & Hof).
    by destruct (issue_of_small_inj live_angles ref_angles name n' small Hn Hn' Hs Hof)
      as [-> ?].
  - intros Hv. exists name. split; [exact Hn |]. unfold issue_of. by rewrite Hv.
Qed.

Lemma issue_large_iff (name large : string) :
  name ∈ ANGLE_NAMES → issue_message name "too_large" = Some large →
  large ∈ omap (issue_of live_angles ref_angles) ANGLE_NAMES
  ↔ joint_verdict live_angles ref_angles name = Some TooLarge.
Proof.
  intros Hn Hl. rewrite list_elem_of_omap. split.
  - intros (n' & Hn' & Hof).
    by destruct (issue_of_large_inj live_angles ref_angles name n' large Hn Hn' Hl Hof)
      as [-> ?].
  - intros Hv. exists name. split; [exact Hn |]. unfold issue_of. by rewrite Hv.
Qed.

End FeedbackSwap.

(** X13: exchanging the live and the reference angle sets keeps the
    positive messages and turns every "too small" issue into the "too large"
    issue of the same joint and back: a joint is too small against the
    reference exactly when the reference is too large against it. *)
Theorem feedback_swap (live_angles ref_angles : gmap string (option R))
    (similarity confidence : R) :
  ∃ fb fb',
    generate_feedback live_angles ref_angles similarity confidence = Some fb
    ∧ generate_feedback ref_angles live_angles similarity confidence = Some fb'
    ∧ fb_good fb' = fb_good fb
    ∧ length (fb_issues fb') = length (fb_issues fb)
    ∧ ∀ name small large,
        name ∈ ANGLE_NAMES →
        issue_message name "too_small" = Some small →
        issue_message name "too_large" = Some large →
        (small ∈ fb_issues fb ↔ large ∈ fb_issues fb')
        ∧ (large ∈ fb_issues fb ↔ small ∈ fb_issues fb').
Proof.
  eexists _, _. split; [apply generate_feedback_lists |].
  split; [apply generate_feedback_lists |].
  cbn [fb_good fb_issues].
  assert (omap (good_of ref_angles live_angles) ANGLE_NAMES
          = omap (good_of live_angles ref_angles) ANGLE_NAMES) as Hgood.
  { apply list_omap_ext, Forall2_same_length_lookup.
    split; [reflexivity |]. intros i x y Hx Hy. rewrite Hx in Hy. injection Hy as <-.
    unfold good_of. rewrite joint_verdict_swap.
    by destruct (joint_verdict live_angles ref_angles x) as [[] |]. }
  split; [exact Hgood |]. split.
  - pose proof (feedback_messages_per_joint live_angles ref_angles ANGLE_NAMES
                  messages_exist) as H1.
    pose proof (feedback_messages_per_joint ref_angles live_angles ANGLE_NAMES
                  messages_exist) as H2.
    fold (comparable_diffs live_angles ref_angles) in H1.
    fold (comparable_diffs ref_angles live_angles) in H2.
    rewrite comparable_diffs_sym, Hgood in H2. lia.
  - intros name small large Hn Hs Hl.
    rewrite (issue_small_iff live_angles ref_angles name small Hn Hs).
    rewrite (issue_large_iff live_angles ref_angles name large Hn Hl).
    rewrite (issue_small_iff ref_angles live_angles name small Hn Hs).
    rewrite (issue_large_iff ref_angles live_angles name large Hn Hl).
    rewrite (joint_verdict_swap live_angles ref_angles).
    destruct (joint_verdict live_angles ref_angles name) as [[] |];
      cbn [fmap option_fmap option_map swap_verdict]; split; split; congruence.
Qed.

Lemma feedback_swap_witness :
  ∃ fb fb',
    generate_feedback {[ "left_elbow" := Some 100 ]} {[ "left_elbow" := Some 40 ]} 50 1
    = Some fb
    ∧ generate_feedback {[ "left_elbow" := Some 40 ]} {[ "left_elbow" := Some 100 ]} 50 1
      = Some fb'
    ∧ ("Left elbow bent too much" ∈ fb_issues fb
       ↔ "Left elbow not bent enough" ∈ fb_issues fb').
Proof.
  destruct (feedback_swap {[ "left_elbow" := Some 100 ]} {[ "left_elbow" := Some 40 ]} 50 1)
    as (fb & fb' & Hfb & Hfb' & _ & _ & Hswap).
  exists fb, fb'. split; [exact Hfb |]. split; [exact Hfb' |].
  destruct (Hswap "left_elbow" "Left elbow bent too much" "Left elbow not bent enough")
    as [Hiff _]; [apply list_elem_of_here | reflexivity | reflexivity |].
  exact Hiff.
Defined.

(** ** Temporal smoothing: what it keeps and when it raises *)

Section SmoothingMore.

Lemma smooth_keypoint_confidence (alpha : R) (prev current : list keypoint) (i : nat)
    (cur out : keypoint) :
  current !! i = Some cur →
  smooth_keypoint alpha prev current i = Some out → kc out = kc cur.
Proof.
  intros Hi. unfold smooth_keypoint. rewrite Hi. cbn [mbind option_bind].
  case_decide; [by intros [= <-] |].
  destruct (prev !! i); cbn [mbind option_bind]; [| discriminate].
  by intros [= <-].
Qed.

Lemma smooth_pose_inv (e e' : PoseEngine.engine) (current out : list keypoint) :
  smooth_pose e current = Some (out, e') →
  e' = Engine (Some out) (_smooth_alpha e)
  ∧ match _prev_keypoints e with
    | None => out = current
    | Some prev =>
        Forall2 (λ i kp, smooth_keypoint (_smooth_alpha e) prev current i = Some kp)
                (seq 0 (length current)) out
    end.
Proof.
  unfold smooth_pose. destruct (_prev_keypoints e) as [prev |].
  - destruct (mapM _ _) as [smoothed |] eqn:Hm; cbn [mbind option_bind];
      [| discriminate].
    intros [= <- <-]. split; [reflexivity |]. by apply mapM_Some.
  - by intros [= <- <-].
Qed.

Lemma smooth_pose_lookup (alpha : R) (prev current out : list keypoint) :
  Forall2 (λ i kp, smooth_keypoint alpha prev current i = Some kp)
          (seq 0 (length current)) out →
  length out = length current
  ∧ ∀ i cur, current !! i = Some cur →
      ∃ kp, out !! i = Some kp ∧ smooth_keypoint alpha prev current i = Some kp.
Proof.
  intros Hall. split.
  - apply Forall2_length in Hall. rewrite length_seq in Hall. lia.
  - intros i cur Hi.
    assert (seq 0 (length current) !! i = Some i) as Hseq.
    { apply lookup_seq. split; [reflexivity |]. by eapply lookup_lt_Some. }
    destruct (Forall2_lookup_l _ _ _ _ _ Hall Hseq) as (kp & Hkp & Hf). eauto.
Qed.

End SmoothingMore.

(** X14: [smooth_pose] never changes a confidence and never drops or adds
    a keypoint: whatever the engine holds, the skeleton it returns has the
    confidences of the current frame, in the same order, and that skeleton
    is what the engine holds afterwards, with the same coefficient. *)
Theorem smooth_pose_keeps_confidences (e e' : PoseEngine.engine)
    (current out : list keypoint) :
  smooth_pose e current = Some (out, e') →
  kc <$> out = kc <$> current
  ∧ _prev_keypoints e' = Some out
  ∧ _smooth_alpha e' = _smooth_alpha e.
Proof.
  intros Hstep. destruct (smooth_pose_inv e e' current out Hstep) as [-> Hout].
  split; [| split; reflexivity].
  destruct (_prev_keypoints e) as [prev |]; [| by subst].
  destruct (smooth_pose_lookup _ _ _ _ Hout) as [Hlen Hkp].
  apply list_eq_same_length with (length out);
    [by rewrite length_fmap | by rewrite length_fmap |].
  intros i x y _. rewrite !list_lookup_fmap. intros Hx Hy.
  destruct (current !! i) as [cur |] eqn:Hi; [| discriminate].
  destruct (Hkp i cur Hi) as (kp & Hkpi & Hf). rewrite Hkpi in Hx.
  cbn in Hx, Hy. injection Hx as <-. injection Hy as <-.
  by eapply smooth_keypoint_confidence.
Qed.

Lemma smooth_pose_keeps_confidences_witness :
  ∃ out e',
    smooth_pose (Engine (Some (replicate 17 (Kp 10 10 1))) 0.6)
                (replicate 17 (Kp 20 20 0.5)) = Some (out, e')
    ∧ kc <$> out = kc <$> replicate 17 (Kp 20 20 0.5).
Proof.
  destruct (smooth_pose_later 0.6 (replicate 17 (Kp 10 10 1))
              (replicate 17 (Kp 20 20 0.5))) as (out & Hout & _); [reflexivity |].
  exists out, (Engine (Some out) 0.6). split; [exact Hout |].
  apply (smooth_pose_keeps_confidences _ _ _ _ Hout).
Defined.

(** X15: with a coefficient between 0 and 1 (the engine's is 0.6) every
    coordinate [smooth_pose] returns lies between the stored previous
    coordinate and the current one: smoothing never overshoots. *)
Theorem smooth_pose_between (alpha : R) (prev current out : list keypoint)
    (e' : PoseEngine.engine) :
  0 <= alpha <= 1 →
  smooth_pose (Engine (Some prev) alpha) current = Some (out, e') →
  ∀ i cur kp, current !! i = Some cur → out !! i = Some kp →
    kp = cur
    ∨ ∃ p, prev !! i = Some p
           ∧ Rmin (kx p) (kx cur) <= kx kp <= Rmax (kx p) (kx cur)
           ∧ Rmin (ky p) (ky cur) <= ky kp <= Rmax (ky p) (ky cur).
Proof.
  intros Halpha Hstep i cur kp Hi Hkp.
  destruct (smooth_pose_inv _ _ _ _ Hstep) as [_ Hout].
  cbn [_prev_keypoints _smooth_alpha] in Hout.
  destruct (smooth_pose_lookup _ _ _ _ Hout) as [_ Hlook].
  destruct (Hlook i cur Hi) as (kp' & Hkp' & Hf).
  rewrite Hkp in Hkp'. injection Hkp' as <-.
  unfold smooth_keypoint in Hf. rewrite Hi in Hf. cbn [mbind option_bind] in Hf.
  case_decide; [left; congruence | right].
  destruct (prev !! i) as [p |]; cbn [mbind option_bind] in Hf; [| discriminate].
  exists p. split; [reflexivity |]. injection Hf as <-. cbn [kx ky].
  unfold Rmin, Rmax. repeat destruct (Rle_dec _ _); split; nra.
Qed.

Lemma smooth_pose_between_witness :
  ∃ out e',
    smooth_pose (Engine (Some (replicate 17 (Kp 10 10 1))) 0.6)
                (replicate 17 (Kp 20 20 1)) = Some (out, e')
    ∧ ∀ kp, out !! 0%nat = Some kp →
        kp = Kp 20 20 1 ∨ (Rmin 10 20 <= kx kp <= Rmax 10 20).
Proof.
  destruct (smooth_pose_later 0.6 (replicate 17 (Kp 10 10 1))
              (replicate 17 (Kp 20 20 1))) as (out & Hout & _); [reflexivity |].
  exists out, (Engine (Some out) 0.6). split; [exact Hout |].
  intros kp Hkp.
  destruct (smooth_pose_between 0.6 _ _ _ _ ltac:(lra) Hout 0%nat (Kp 20 20 1) kp
              eq_refl Hkp) as [-> | (p & Hp & Hx & _)]; [by left | right].
  injection Hp as <-. exact Hx.
Defined.

(** X16: [smooth_pose] raises exactly when the stored skeleton is too
    short for a keypoint it has to blend: some keypoint of the current
    frame has a confidence of at least 0.3 and an index the stored skeleton
    does not have.  Low-confidence keypoints beyond the stored skeleton do
    no harm, and the first call of an engine never raises. *)
Theorem smooth_pose_raises_iff (alpha : R) (prev : option (list keypoint))
    (current : list keypoint) :
  smooth_pose (Engine prev alpha) current = None
  ↔ ∃ stored i cur, prev = Some stored ∧ current !! i = Some cur
                    ∧ MIN_CONFIDENCE <= kc cur ∧ (length stored ≤ i)%nat.
Proof.
  unfold smooth_pose. cbn [_prev_keypoints _smooth_alpha].
  destruct prev as [stored |].
  - destruct (mapM _ _) as [smoothed |] eqn:Hm; cbn [mbind option_bind].
    + split; [discriminate |]. intros (stored' & i & cur & [= <-] & Hi & Hok & Hlen).
      exfalso. apply mapM_Some in Hm.
      assert (seq 0 (length current) !! i = Some i) as Hseq.
      { apply lookup_seq. split; [reflexivity |]. by eapply lookup_lt_Some. }
      destruct (Forall2_lookup_l _ _ _ _ _ Hm Hseq) as (kp & _ & Hf).
      unfold smooth_keypoint in Hf. rewrite Hi in Hf. cbn [mbind option_bind] in Hf.
      rewrite decide_False in Hf by lra.
      by rewrite (lookup_ge_None_2 stored i Hlen) in Hf.
    + split; [intros _ | reflexivity].
      apply mapM_None, Exists_exists in Hm as (i & Hi & Hnone).
      apply elem_of_seq in Hi as [_ Hi]. simpl in Hi.
      destruct (lookup_lt_is_Some_2 current i) as [cur Hcur]; [lia |].
      unfold smooth_keypoint in Hnone. rewrite Hcur in Hnone.
      cbn [mbind option_bind] in Hnone.
      case_decide as Hlow; [discriminate |].
      destruct (stored !! i) as [p |] eqn:Hp; [discriminate |].
      exists stored, i, cur. repeat split; [exact Hcur | lra |].
      by apply lookup_ge_None.
  - split; [discriminate |]. by intros (? & ? & ? & ? & _).
Qed.

Lemma smooth_pose_raises_iff_witness :
  smooth_pose (Engine (Some (replicate 16 (Kp 0 0 1))) 0.6) (replicate 17 (Kp 0 0 1))
  = None.
Proof.
  apply (smooth_pose_raises_iff 0.6 (Some (replicate 16 (Kp 0 0 1)))).
  exists (replicate 16 (Kp 0 0 1)), 16%nat, (Kp 0 0 1).
  repeat split; [unfold MIN_CONFIDENCE; simpl; lra | simpl; lia].
Defined.

(** ** Temporal smoothing: a pose held still *)

Section HeldPose.

Variable alpha : R.

Lemma smooth_frames_held (current : list keypoint) (n : nat) :
  ∀ prev, length prev = length current →
  ∃ outs e',
    smooth_frames (Engine (Some prev) alpha) (replicate n current) = Some (outs, e')
    ∧ length outs = n
    ∧ ∀ k out i c q,
        outs !! k = Some out → current !! i = Some c → prev !! i = Some q →
        MIN_CONFIDENCE <= kc c →
        ∃ kp, out !! i = Some kp
              ∧ kx kp = kx c + (1 - alpha) ^ S k * (kx q - kx c)
              ∧ ky kp = ky c + (1 - alpha) ^ S k * (ky q - ky c).
Proof.
  induction n as [| n IH]; intros prev Hlen.
  - exists [], (Engine (Some prev) alpha). split; [reflexivity |].
    split; [reflexivity |]. intros k out i c q Hk. by rewrite lookup_nil in Hk.
  - destruct (smooth_pose_later alpha prev current) as (s1 & Hs1 & Hl1 & Hkp1); [lia |].
    destruct (IH s1 Hl1) as (outs & e' & Hrest & Hlouts & Hclosed).
    exists (s1 :: outs), e'. split.
    { cbn [replicate smooth_frames]. rewrite Hs1. cbn [mbind option_bind].
      rewrite Hrest. reflexivity. }
    split; [simpl; lia |].
    intros k out i c q Hk Hc Hq Hok.
    assert (s1 !! i = Some (Kp (alpha * kx c + (1 - alpha) * kx q)
                               (alpha * ky c + (1 - alpha) * ky q) (kc c))) as Hs1i.
    { rewrite <- (Hkp1 i c Hc). by apply smooth_keypoint_blend. }
    destruct k as [| k].
    + injection Hk as <-. eexists. split; [exact Hs1i |].
      cbn [kx ky]. split; simpl; ring.
    + cbn [lookup list_lookup] in Hk.
      destruct (Hclosed k out i c _ Hk Hc Hs1i Hok) as (kp & Hkp & Hx & Hy).
      exists kp. split; [exact Hkp |]. cbn [kx ky] in Hx, Hy.
      rewrite Hx, Hy. split; simpl; ring.
Qed.

End HeldPose.

(** X17: a pose held still.  When the same frame is fed to [smooth_pose]
    again and again, the k-th skeleton returned (counting from 1) has, for
    every keypoint with a confidence of at least 0.3, the coordinates
    current + 0.4^k (previous - current): the returned pose approaches the
    current one geometrically, 60 % of the remaining gap per frame. *)
Theorem smooth_pose_held_pose (e : PoseEngine.engine) (prev current : list keypoint)
    (n : nat) :
  session e → _prev_keypoints e = Some prev → length current = 17%nat →
  ∃ outs e',
    smooth_frames e (replicate n current) = Some (outs, e')
    ∧ length outs = n
    ∧ ∀ k out i c q,
        outs !! k = Some out → current !! i = Some c → prev !! i = Some q →
        MIN_CONFIDENCE <= kc c →
        ∃ kp, out !! i = Some kp
              ∧ kx kp = kx c + 0.4 ^ S k * (kx q - kx c)
              ∧ ky kp = ky c + 0.4 ^ S k * (ky q - ky c).
Proof.
  intros Hs Hprev Hlen. destruct (session_invariant e Hs) as [Ha Hp].
  destruct e as [stored alpha]. cbn [_prev_keypoints _smooth_alpha] in *. subst.
  destruct (smooth_frames_held 0.6 current n prev) as (outs & e' & Hrun & Hl & Hclosed).
  { rewrite (Hp prev eq_refl). lia. }
  exists outs, e'. split; [exact Hrun |]. split; [exact Hl |].
  intros k out i c q Hk Hc Hq Hok.
  destruct (Hclosed k out i c q Hk Hc Hq Hok) as (kp & Hkp & Hx & Hy).
  exists kp. split; [exact Hkp |].
  replace 0.4 with (1 - 0.6) by lra. split; assumption.
Qed.

Lemma smooth_pose_held_pose_witness :
  ∃ outs e',
    smooth_frames (Engine (Some (replicate 17 (Kp 10 10 1))) 0.6)
                  (replicate 2 (replicate 17 (Kp 20 20 1))) = Some (outs, e')
    ∧ ∀ out kp, outs !! 1%nat = Some out → out !! 0%nat = Some kp →
        kx kp = 18.4.
Proof.
  assert (session (Engine (Some (replicate 17 (Kp 10 10 1))) 0.6)) as Hs.
  { eapply (session_frame PoseEngine.init _ (replicate 17 (Kp 10 10 1)));
      [apply session_start | reflexivity | reflexivity]. }
  destruct (smooth_pose_held_pose _ (replicate 17 (Kp 10 10 1))
              (replicate 17 (Kp 20 20 1)) 2 Hs eq_refl eq_refl)
    as (outs & e' & Hrun & _ & Hclosed).
  exists outs, e'. split; [exact Hrun |].
  intros out kp Hout Hkp.
  destruct (Hclosed 1%nat out 0%nat (Kp 20 20 1) (Kp 10 10 1) Hout eq_refl eq_refl)
    as (kp' & Hkp' & Hx & _).
  { unfold MIN_CONFIDENCE. simpl. lra. }
  rewrite Hkp in Hkp'. injection Hkp' as <-. rewrite Hx. cbn [kx]. simpl. lra.
Defined.

(** ** Detection: no person, too few landmarks, several persons *)

Section DetectionEdges.

Lemma mapM_lookup_out_of_range {A} (l : list A) (idxs : list nat) (i : nat) :
  i ∈ idxs → (length l ≤ i)%nat → mapM (l !!.) idxs = None.
Proof.
  intros Hi Hlen. apply mapM_None, Exists_exists. exists i.
  split; [exact Hi | by apply lookup_ge_None].
Qed.

Lemma detect_keypoints_raises (fr : frame) (landmarks : list landmark)
    (rest : list (list landmark)) :
  pose_landmarks fr = landmarks :: rest → (length landmarks < 29)%nat →
  detect_keypoints fr = None.
Proof.
  intros Hpose Hlen. unfold detect_keypoints. rewrite Hpose.
  rewrite (mapM_lookup_fmap (keypoint_of_landmark (frame_h fr) (frame_w fr))).
  rewrite (mapM_lookup_out_of_range landmarks MEDIAPIPE_INDICES 28); [reflexivity | | lia].
  unfold MEDIAPIPE_INDICES. do 16 apply list_elem_of_further. apply list_elem_of_here.
Qed.

End DetectionEdges.

(** X18: [detect_keypoints] answers "no pose" exactly when the detector
    found no person; otherwise it raises exactly when the first person has
    fewer than 29 landmarks (the mapping reads landmark 28), and else
    returns 17 keypoints, the i-th being the landmark the mapping names for
    i, scaled to pixels, with its visibility as confidence.  Persons after
    the first are ignored. *)
Theorem detect_keypoints_cases (h w : Z) (persons : list (list landmark)) :
  (detect_keypoints (Frame h w persons) = Some None ↔ persons = [])
  ∧ ∀ landmarks rest, persons = landmarks :: rest →
      detect_keypoints (Frame h w persons) = detect_keypoints (Frame h w [landmarks])
      ∧ (detect_keypoints (Frame h w persons) = None ↔ (length landmarks < 29)%nat)
      ∧ ∀ kps, detect_keypoints (Frame h w persons) = Some (Some kps) →
          length kps = 17%nat
          ∧ ∀ i mp_idx, MEDIAPIPE_INDICES !! i = Some mp_idx →
              kps !! i = keypoint_of_landmark h w <$> landmarks !! mp_idx.
Proof.
  split.
  - destruct persons as [| landmarks rest]; [done |].
    split; [| discriminate]. unfold detect_keypoints. cbn [pose_landmarks].
    destruct (mapM _ _); discriminate.
  - intros landmarks rest ->. split; [reflexivity |].
    destruct (decide (length landmarks < 29)%nat) as [Hshort | Hlong].
    + rewrite (detect_keypoints_raises (Frame h w (landmarks :: rest)) landmarks rest
                 eq_refl Hshort).
      split; [done |]. discriminate.
    + destruct (detect_keypoints_spec (Frame h w (landmarks :: rest)) landmarks rest
                  eq_refl ltac:(lia)) as (picked & Hpicked & Hlen & Hdet).
      rewrite Hdet. cbn [frame_h frame_w]. split; [split; [discriminate | lia] |].
      intros kps [= <-]. split; [by rewrite length_fmap |].
      intros i mp_idx Hi. rewrite list_lookup_fmap. f_equal.
      apply mapM_Some in Hpicked.
      destruct (Forall2_lookup_l _ _ _ _ _ Hpicked Hi) as (lm & Hlm & Hlook).
      by rewrite Hlm, Hlook.
Qed.

Lemma detect_keypoints_cases_witness :
  detect_keypoints (Frame 480 640 [replicate 28 (Lm 0.5 0.5 1)]) = None.
Proof.
  destruct (detect_keypoints_cases 480 640 [replicate 28 (Lm 0.5 0.5 1)]) as [_ Hcases].
  destruct (Hcases (replicate 28 (Lm 0.5 0.5 1)) [] eq_refl) as (_ & Hraise & _).
  apply Hraise. simpl. lia.
Defined.

(** ** One frame of the stream *)



Section FrameRecord.

(** The record of a frame with a detected person, field by field. *)
Lemma process_frame_record (refs : gmap string reference) (e : PoseEngine.engine)
    (fr : frame) (current_exercise : option string) :
  session e → detected_frame fr →
  (∀ ref, selected_reference refs current_exercise = Some ref →
          length (ref_keypoints ref) = 17%nat) →
  ∃ detected smoothed e' angles normalized,
    detect_keypoints fr = Some (Some detected)
    ∧ smooth_pose e detected = Some (smoothed, e')
    ∧ length smoothed = 17%nat
    ∧ compute_joint_angles smoothed = Some angles
    ∧ normalize_keypoints smoothed = Some normalized
    ∧ match selected_reference refs current_exercise with
      | Some ref =>
          ∃ sim,
            compute_similarity normalized (ref_keypoints ref) angles (ref_angles ref)
            = Some sim
            ∧ WebsocketHandler._process_frame refs e fr current_exercise
              = Some ({| WebsocketHandler.detected := true;
                         WebsocketHandler.skeleton_color := skeleton_color_of sim;
                         WebsocketHandler.similarity := sim;
                         WebsocketHandler.confidence :=
                           py_round (mean_confidence smoothed) 2;
                         WebsocketHandler.issues :=
                           omap (issue_of angles (ref_angles ref)) ANGLE_NAMES;
                         WebsocketHandler.good :=
                           omap (good_of angles (ref_angles ref)) ANGLE_NAMES;
                         WebsocketHandler.keypoints :=
                           relative_entry (frame_h fr) (frame_w fr) <$> smoothed |},
                      e')
      | None =>
          WebsocketHandler._process_frame refs e fr current_exercise
          = Some ({| WebsocketHandler.detected := true;
                     WebsocketHandler.skeleton_color := "red";
                     WebsocketHandler.similarity := 0;
                     WebsocketHandler.confidence :=
                       py_round (mean_confidence smoothed) 2;
                     WebsocketHandler.issues :=
                       ["Select an exercise to start pose comparison"];
                     WebsocketHandler.good := [];
                     WebsocketHandler.keypoints :=
                       relative_entry (frame_h fr) (frame_w fr) <$> smoothed |},
                  e')
      end.
Proof.
  intros Hs (Hh & Hw & landmarks & rest & Hpose & Hlms) Hrefs.
  destruct (detect_keypoints_spec fr landmarks rest Hpose Hlms)
    as (picked & _ & Hpicked & Hdet).
  set (detected := keypoint_of_landmark (frame_h fr) (frame_w fr) <$> picked) in *.
  assert (length detected = 17%nat) as Hdlen by (subst detected; by rewrite length_fmap).
  destruct (smooth_pose_total e detected Hs Hdlen) as (smoothed & e' & Hsm & Hslen).
  destruct (compute_joint_angles_total smoothed Hslen) as [angles Hang].
  destruct (normalize_keypoints_total smoothed Hslen) as (normalized & Hnorm & Hnlen).
  exists detected, smoothed, e', angles, normalized.
  do 5 (split; [assumption |]).
  unfold WebsocketHandler._process_frame.
  rewrite Hdet. cbn [mbind option_bind]. rewrite Hsm. cbn [mbind option_bind].
  rewrite Hang. cbn [mbind option_bind]. rewrite Hnorm. cbn [mbind option_bind].
  rewrite relative_kps_spec by assumption.
  fold (selected_reference refs current_exercise).
  destruct (selected_reference refs current_exercise) as [ref |].
  - destruct (compute_similarity_total normalized (ref_keypoints ref) angles
                (ref_angles ref) Hnlen (Hrefs ref eq_refl)) as [_ [sim Hsim]].
    exists sim. split; [exact Hsim |].
    rewrite Hsim. cbn [mbind option_bind].
    rewrite generate_feedback_lists. reflexivity.
  - cbn [mbind option_bind]. unfold skeleton_color_of.
    rewrite decide_False by lra. reflexivity.
Qed.

End FrameRecord.

(** X20: without a usable selection a frame is still tracked but not
    scored.  When no exercise was selected yet, when the label is empty or
    when the table has no reference for it, [_process_frame] reports the
    pose as detected with its 17 keypoints and updates the smoothing state,
    but the similarity is 0, the skeleton red and the only message asks to
    select an exercise: an unknown label is not an error. *)
Theorem process_frame_without_selection (refs : gmap string reference)
    (e : PoseEngine.engine) (fr : frame) (current_exercise : option string) :
  session e → detected_frame fr →
  (current_exercise = None ∨ current_exercise = Some ""
   ∨ ∃ label, current_exercise = Some label ∧ refs !! label = None) →
  ∃ res detected smoothed e',
    WebsocketHandler._process_frame refs e fr current_exercise = Some (res, e')
    ∧ detect_keypoints fr = Some (Some detected)
    ∧ smooth_pose e detected = Some (smoothed, e')
    ∧ WebsocketHandler.detected res = true
    ∧ WebsocketHandler.similarity res = 0
    ∧ WebsocketHandler.skeleton_color res = "red"
    ∧ WebsocketHandler.issues res = ["Select an exercise to start pose comparison"]
    ∧ WebsocketHandler.good res = []
    ∧ length (WebsocketHandler.keypoints res) = 17%nat.
Proof.
  intros Hs Hfr Hsel.
  assert (selected_reference refs current_exercise = None) as Hnone.
  { unfold selected_reference.
    destruct Hsel as [-> | [-> | (label & -> & Hlabel)]]; try reflexivity.
    cbn [mbind option_bind]. by case_decide. }
  destruct (process_frame_record refs e fr current_exercise Hs Hfr)
    as (detected & smoothed & e' & angles & normalized
        & Hdet & Hsm & Hlen & _ & _ & Hrec).
  { rewrite Hnone. discriminate. }
  rewrite Hnone in Hrec.
  eexists _, detected, smoothed, e'. split; [exact Hrec |].
  do 2 (split; [assumption |]). do 5 (split; [reflexivity |]).
  cbn [WebsocketHandler.keypoints]. by rewrite length_fmap.
Qed.

Lemma process_frame_without_selection_witness :
  ∃ res e',
    WebsocketHandler._process_frame ∅ PoseEngine.init
      (Frame 480 640 [replicate 29 (Lm 0.5 0.5 1)]) (Some "plank") = Some (res, e')
    ∧ WebsocketHandler.similarity res = 0
    ∧ WebsocketHandler.detected res = true.
Proof.
  destruct (process_frame_without_selection ∅ PoseEngine.init
              (Frame 480 640 [replicate 29 (Lm 0.5 0.5 1)]) (Some "plank"))
    as (res & _ & _ & e' & Hres & _ & _ & Hflag & Hsim & _).
  - apply session_start.
  - split; [reflexivity |]. split; [reflexivity |].
    eexists _, _. split; [reflexivity |]. simpl. lia.
  - right. right. exists "plank". split; [reflexivity | apply lookup_empty].
  - exists res, e'. repeat split; assumption.
Defined.

(** X21: with a known exercise selected, the record of a frame carries the
    score of the comparison: its similarity is what [compute_similarity]
    returns for the normalised smoothed skeleton against the reference, it
    lies in [[0,100]], and the skeleton is green exactly when it is at least
    70 and red otherwise. *)
Theorem process_frame_scored (refs : gmap string reference)
    (e : PoseEngine.engine) (fr : frame) (label : string) (ref : reference) :
  session e → detected_frame fr →
  label ≠ "" → refs !! label = Some ref → length (ref_keypoints ref) = 17%nat →
  ∃ res detected smoothed e' angles normalized,
    WebsocketHandler._process_frame refs e fr (Some label) = Some (res, e')
    ∧ detect_keypoints fr = Some (Some detected)
    ∧ smooth_pose e detected = Some (smoothed, e')
    ∧ compute_joint_angles smoothed = Some angles
    ∧ normalize_keypoints smoothed = Some normalized
    ∧ compute_similarity normalized (ref_keypoints ref) angles (ref_angles ref)
      = Some (WebsocketHandler.similarity res)
    ∧ 0 <= WebsocketHandler.similarity res <= 100
    ∧ (70 <= WebsocketHandler.similarity res →
       WebsocketHandler.skeleton_color res = "green")
    ∧ (WebsocketHandler.similarity res < 70 →
       WebsocketHandler.skeleton_color res = "red").
Proof.
  intros Hs Hfr Hlabel Href Hrlen.
  assert (selected_reference refs (Some label) = Some ref) as Hsel.
  { unfold selected_reference. cbn [mbind option_bind]. by rewrite decide_False. }
  destruct (process_frame_record refs e fr (Some label) Hs Hfr)
    as (detected & smoothed & e' & angles & normalized
        & Hdet & Hsm & Hlen & Hang & Hnorm & Hrec).
  { rewrite Hsel. by intros ? [= <-]. }
  rewrite Hsel in Hrec. destruct Hrec as (sim & Hsim & Hrec).
  eexists _, detected, smoothed, e', angles, normalized. split; [exact Hrec |].
  do 4 (split; [assumption |]).
  cbn [WebsocketHandler.similarity WebsocketHandler.skeleton_color].
  split; [exact Hsim |]. split.
  - rewrite compute_similarity_blend in Hsim.
    destruct (compute_keypoint_similarity _ _) as [kp |]; [| discriminate].
    cbn in Hsim. injection Hsim as <-.
    apply (py_round_bounds 0 100), clamped_blend_range.
  - unfold skeleton_color_of. split; intros Hcmp.
    + by rewrite decide_True.
    + rewrite decide_False; [reflexivity | lra].
Qed.

Lemma process_frame_scored_witness :
  let tree := Reference (replicate 17 (Kp 0 0 1)) ∅ in
  ∃ res e',
    WebsocketHandler._process_frame {[ "tree" := tree ]} PoseEngine.init
      (Frame 480 640 [replicate 29 (Lm 0.5 0.5 1)]) (Some "tree") = Some (res, e')
    ∧ 0 <= WebsocketHandler.similarity res <= 100.
Proof.
  intros tree.
  destruct (process_frame_scored {[ "tree" := tree ]} PoseEngine.init
              (Frame 480 640 [replicate 29 (Lm 0.5 0.5 1)]) "tree" tree)
    as (res & _ & _ & e' & _ & _ & Hres & _ & _ & _ & _ & _ & Hrange & _).
  - apply session_start.
  - split; [reflexivity |]. split; [reflexivity |].
    eexists _, _. split; [reflexivity |]. simpl. lia.
  - done.
  - apply lookup_singleton_eq.
  - reflexivity.
  - exists res, e'. split; assumption.
Defined.

(** ** The single-image analysis *)

Section ImageRecord.

(** The response for a detected pose, field by field. *)
Lemma analyze_image_record (refs : gmap string reference) (exercise : string)
    (ref : reference) (fr : frame) :
  refs !! exercise = Some ref → length (ref_keypoints ref) = 17%nat →
  detected_frame fr →
  ∃ detected angles normalized kp_score sim,
    detect_keypoints fr = Some (Some detected)
    ∧ length detected = 17%nat
    ∧ compute_joint_angles detected = Some angles
    ∧ normalize_keypoints detected = Some normalized
    ∧ compute_keypoint_similarity normalized (ref_keypoints ref) = Some kp_score
    ∧ compute_similarity normalized (ref_keypoints ref) angles (ref_angles ref)
      = Some sim
    ∧ App.analyze_image refs exercise (Some fr)
      = Some (App.Analysed
          {| App.exercise := exercise;
             App.similarity := sim;
             App.keypoint_similarity := py_round kp_score 1;
             App.angle_similarity :=
               py_round (compute_angle_similarity angles (ref_angles ref)) 1;
             App.confidence := py_round (mean_confidence detected) 2;
             App.skeleton_color := skeleton_color_of sim;
             App.issues := omap (issue_of angles (ref_angles ref)) ANGLE_NAMES;
             App.good := omap (good_of angles (ref_angles ref)) ANGLE_NAMES;
             App.keypoints := relative_entry (frame_h fr) (frame_w fr) <$> detected;
             App.live_angles := App.render_angle <$> angles;
             App.reference_angles := App.render_angle <$> ref_angles ref;
             App.angle_deviations :=
               map_imap (λ name live_val,
                           match dict_get (ref_angles ref) name, live_val with
                           | Some ref_val, Some live_val =>
                               Some (deviation_of live_val ref_val)
                           | _, _ => None
                           end) angles |}).
Proof.
  intros Href Hrlen (Hh & Hw & landmarks & rest & Hpose & Hlms).
  destruct (detect_keypoints_spec fr landmarks rest Hpose Hlms)
    as (picked & _ & Hpicked & Hdet).
  set (detected := keypoint_of_landmark (frame_h fr) (frame_w fr) <$> picked) in *.
  assert (length detected = 17%nat) as Hdlen by (subst detected; by rewrite length_fmap).
  destruct (compute_joint_angles_total detected Hdlen) as [angles Hang].
  destruct (normalize_keypoints_total detected Hdlen) as (normalized & Hnorm & Hnlen).
  destruct (compute_similarity_total normalized (ref_keypoints ref) angles
              (ref_angles ref) Hnlen Hrlen) as [[kp_score Hkp] [sim Hsim]].
  exists detected, angles, normalized, kp_score, sim.
  do 6 (split; [assumption |]).
  unfold App.analyze_image. rewrite Href, Hdet. cbn [mbind option_bind].
  rewrite Hang. cbn [mbind option_bind]. rewrite Hnorm. cbn [mbind option_bind].
  rewrite Hkp. cbn [mbind option_bind]. rewrite Hsim. cbn [mbind option_bind].
  rewrite generate_feedback_lists. cbn [mbind option_bind].
  rewrite relative_kps_spec by assumption. reflexivity.
Qed.

End ImageRecord.

(** X22: the first frame of a stream is analysed like a single image.  On
    an engine that has seen no frame yet, [_process_frame] with a known
    exercise and [analyze_image] on the same frame report the same
    similarity, confidence, skeleton colour, issues, positive messages and
    keypoints: smoothing only starts to matter with the second frame. *)
Theorem first_frame_like_single_image (refs : gmap string reference) (alpha : R)
    (fr : frame) (label : string) (ref : reference) :
  detected_frame fr →
  label ≠ "" → refs !! label = Some ref → length (ref_keypoints ref) = 17%nat →
  ∃ res e' a,
    WebsocketHandler._process_frame refs (Engine None alpha) fr (Some label)
    = Some (res, e')
    ∧ App.analyze_image refs label (Some fr) = Some (App.Analysed a)
    ∧ WebsocketHandler.similarity res = App.similarity a
    ∧ WebsocketHandler.confidence res = App.confidence a
    ∧ WebsocketHandler.skeleton_color res = App.skeleton_color a
    ∧ WebsocketHandler.issues res = App.issues a
    ∧ WebsocketHandler.good res = App.good a
    ∧ WebsocketHandler.keypoints res = App.keypoints a.
Proof.
  intros Hfr Hlabel Href Hrlen.
  destruct (analyze_image_record refs label ref fr Href Hrlen Hfr)
    as (detected & angles & normalized & kp_score & sim
        & Hdet & Hdlen & Hang & Hnorm & Hkp & Hsim & Ha).
  destruct Hfr as (Hh & Hw & _).
  eexists _, _, _. split; [| split; [exact Ha |]].
  - unfold WebsocketHandler._process_frame, smooth_pose.
    rewrite Hdet. cbn [mbind option_bind _prev_keypoints _smooth_alpha].
    rewrite Hang. cbn [mbind option_bind]. rewrite Hnorm. cbn [mbind option_bind].
    rewrite decide_False by exact Hlabel. rewrite Href, Hsim.
    cbn [mbind option_bind]. rewrite generate_feedback_lists. cbn [mbind option_bind].
    rewrite relative_kps_spec by assumption. reflexivity.
  - repeat split; reflexivity.
Qed.

Lemma first_frame_like_single_image_witness :
  let tree := Reference (replicate 17 (Kp 0 0 1)) ∅ in
  ∃ res e' a,
    WebsocketHandler._process_frame {[ "tree" := tree ]} PoseEngine.init
      (Frame 480 640 [replicate 29 (Lm 0.5 0.5 1)]) (Some "tree") = Some (res, e')
    ∧ App.analyze_image {[ "tree" := tree ]} "tree"
        (Some (Frame 480 640 [replicate 29 (Lm 0.5 0.5 1)])) = Some (App.Analysed a)
    ∧ WebsocketHandler.similarity res = App.similarity a.
Proof.
  intros tree.
  destruct (first_frame_like_single_image {[ "tree" := tree ]} 0.6
              (Frame 480 640 [replicate 29 (Lm 0.5 0.5 1)]) "tree" tree)
    as (res & e' & a & Hres & Ha & Hsim & _).
  - split; [reflexivity |]. split; [reflexivity |].
    eexists _, _. split; [reflexivity |]. simpl. lia.
  - done.
  - apply lookup_singleton_eq.
  - reflexivity.
  - exists res, e', a. repeat split; assumption.
Defined.

Section DeviationsAndFeedback.

Variables live_angles ref_angles : gmap string (option R).

Lemma good_iff (name g : string) :
  name ∈ ANGLE_NAMES → GOOD_MESSAGES !! name = Some g →
  g ∈ omap (good_of live_angles ref_angles) ANGLE_NAMES
  ↔ joint_verdict live_angles ref_angles name = Some Correct.
Proof.
  intros Hn Hg. rewrite list_elem_of_omap. split.
  - intros (n' & Hn' & Hof).
    by destruct (good_of_inj live_angles ref_angles name n' g Hn Hn' Hg Hof) as [-> ?].
  - intros Hv. exists name. split; [exact Hn |]. unfold good_of. by rewrite Hv.
Qed.

End DeviationsAndFeedback.

(** X23: the per-joint table of the single-image response agrees with its
    feedback lists.  A joint has an entry in [angle_deviations] exactly when
    its live and reference angles are both defined; the entry's status is
    "correct" exactly when the joint's positive message is in [good], and
    "incorrect" exactly when one of its two issue messages is in [issues]. *)
Theorem angle_deviations_agree_with_feedback (refs : gmap string reference)
    (exercise : string) (ref : reference) (fr : frame) :
  refs !! exercise = Some ref → length (ref_keypoints ref) = 17%nat →
  detected_frame fr →
  ∃ a detected angles,
    App.analyze_image refs exercise (Some fr) = Some (App.Analysed a)
    ∧ detect_keypoints fr = Some (Some detected)
    ∧ compute_joint_angles detected = Some angles
    ∧ ∀ name g small large,
        name ∈ ANGLE_NAMES →
        GOOD_MESSAGES !! name = Some g →
        issue_message name "too_small" = Some small →
        issue_message name "too_large" = Some large →
        (is_Some (App.angle_deviations a !! name)
         ↔ is_Some (dict_get angles name) ∧ is_Some (dict_get (ref_angles ref) name))
        ∧ ((∃ d, App.angle_deviations a !! name = Some d
                 ∧ App.dev_status d = "correct")
           ↔ g ∈ App.good a)
        ∧ ((∃ d, App.angle_deviations a !! name = Some d
                 ∧ App.dev_status d = "incorrect")
           ↔ small ∈ App.issues a ∨ large ∈ App.issues a).
Proof.
  intros Href Hrlen Hfr.
  destruct (analyze_image_record refs exercise ref fr Href Hrlen Hfr)
    as (detected & angles & normalized & kp_score & sim
        & Hdet & Hdlen & Hang & _ & _ & _ & Ha).
  eexists _, detected, angles. split; [exact Ha |]. do 2 (split; [assumption |]).
  cbn [App.angle_deviations App.good App.issues].
  intros name g small large Hn Hg Hs Hl.
  rewrite (good_iff angles (ref_angles ref) name g Hn Hg).
  rewrite (issue_small_iff angles (ref_angles ref) name small Hn Hs).
  rewrite (issue_large_iff angles (ref_angles ref) name large Hn Hl).
  rewrite joint_verdict_diff, map_lookup_imap.
  assert (dict_get angles name = mjoin (angles !! name)) as Hget by reflexivity.
  rewrite !Hget. clear Hget.
  destruct (angles !! name) as [[l |] |]; cbn [mjoin option_join mbind option_bind].
  - destruct (dict_get (ref_angles ref) name) as [r |]; cbn [mbind option_bind].
    + unfold deviation_of. split; [| split].
      * split; eauto.
      * split.
        -- intros (d & [= <-] & Hstatus). cbn [App.dev_status] in Hstatus.
           revert Hstatus.
           destruct (decide (Rabs (l - r) <= 25)); intros Hstatus;
             [reflexivity | discriminate].
        -- intros Hv. eexists. split; [reflexivity |]. cbn [App.dev_status].
           revert Hv. destruct (decide (Rabs (l - r) <= 25)); [reflexivity |].
           destruct (decide (l - r < - 25)); discriminate.
      * split.
        -- intros (d & [= <-] & Hstatus). cbn [App.dev_status] in Hstatus.
           revert Hstatus.
           destruct (decide (Rabs (l - r) <= 25)); intros Hstatus; [discriminate |].
           destruct (decide (l - r < - 25)); [by left | by right].
        -- intros Hv. eexists. split; [reflexivity |]. cbn [App.dev_status].
           revert Hv. destruct (decide (Rabs (l - r) <= 25)); [| reflexivity].
           intros [Hv | Hv]; discriminate.
    + split; [| split].
      * split; [by intros [? ?] | by intros [_ [? ?]]].
      * split; [by intros (? & ? & _) | discriminate].
      * split; [by intros (? & ? & _) | by intros [? | ?]].
  - destruct (dict_get (ref_angles ref) name); (split; [| split]).
    + split; [by intros [? ?] | by intros [[? ?] _]].
    + split; [by intros (? & ? & _) | discriminate].
    + split; [by intros (? & ? & _) | by intros [? | ?]].
    + split; [by intros [? ?] | by intros [[? ?] _]].
    + split; [by intros (? & ? & _) | discriminate].
    + split; [by intros (? & ? & _) | by intros [? | ?]].
  - split; [| split].
    + split; [by intros [? ?] | by intros [[? ?] _]].
    + split; [by intros (? & ? & _) | discriminate].
    + split; [by intros (? & ? & _) | by intros [? | ?]].
Qed.

Lemma angle_deviations_agree_with_feedback_witness :
  let tree := Reference (replicate 17 (Kp 0 0 1)) {[ "left_elbow" := Some 0 ]} in
  ∃ a,
    App.analyze_image {[ "tree" := tree ]} "tree"
      (Some (Frame 480 640 [replicate 29 (Lm 0.5 0.5 1)])) = Some (App.Analysed a)
    ∧ ((∃ d, App.angle_deviations a !! "left_elbow" = Some d
             ∧ App.dev_status d = "correct")
       ↔ "Left elbow position correct" ∈ App.good a).
Proof.
  intros tree.
  destruct (angle_deviations_agree_with_feedback {[ "tree" := tree ]} "tree" tree
              (Frame 480 640 [replicate 29 (Lm 0.5 0.5 1)]))
    as (a & detected & angles & Ha & _ & _ & Hjoint).
  - apply lookup_singleton_eq.
  - reflexivity.
  - split; [reflexivity |]. split; [reflexivity |].
    eexists _, _. split; [reflexivity |]. simpl. lia.
  - exists a. split; [exact Ha |].
    destruct (Hjoint "left_elbow" "Left elbow position correct"
                "Left elbow bent too much" "Left elbow not bent enough")
      as (_ & Hgood & _);
      [apply list_elem_of_here | reflexivity | reflexivity | reflexivity |].
    exact Hgood.
Defined.

(** ** The reported confidence *)

(** X24: the mean confidence both endpoints report only counts keypoints
    whose confidence is at least 0.3: it is 0 when there is none, and
    otherwise at least 0.3 and at most the largest confidence, so it is
    never a value strictly between 0 and 0.3. *)
Theorem mean_confidence_bounds (kps : list keypoint) :
  (Forall (λ kp, kc kp < MIN_CONFIDENCE) kps → mean_confidence kps = 0)
  ∧ (Exists (λ kp, MIN_CONFIDENCE <= kc kp) kps →
     MIN_CONFIDENCE <= mean_confidence kps
     ∧ ∀ hi, Forall (λ kp, kc kp <= hi) kps → mean_confidence kps <= hi).
Proof.
  unfold mean_confidence. split.
  - intros Hlow.
    assert (filter (λ c, MIN_CONFIDENCE <= c) (map kc kps) = []) as ->; [| reflexivity].
    induction Hlow as [| kp kps Hkp _ IH]; [reflexivity |].
    cbn [map]. rewrite filter_cons, decide_False by lra. exact IH.
  - intros Hex.
    set (valid := filter (λ c, MIN_CONFIDENCE <= c) (map kc kps)).
    assert (valid ≠ []) as Hne.
    { apply Exists_exists in Hex as (kp & Hin & Hok). intros Hnil.
      assert (kc kp ∈ valid) as Hmem.
      { subst valid. apply list_elem_of_filter. split; [exact Hok |].
        apply list_elem_of_fmap. eauto. }
      rewrite Hnil in Hmem. by apply elem_of_nil in Hmem. }
    assert (∀ hi, Forall (λ kp, kc kp <= hi) kps →
                  Forall (λ c, MIN_CONFIDENCE <= c <= hi) valid) as Hall.
    { intros hi Hhi. subst valid. apply Forall_forall. intros c Hc.
      apply list_elem_of_filter in Hc as [Hok Hc].
      apply list_elem_of_fmap in Hc as (kp & -> & Hkp).
      rewrite Forall_forall in Hhi. split; [exact Hok | by apply Hhi]. }
    destruct valid as [| c valid'] eqn:Hvalid; [done |]. split.
    + assert (Forall (λ x, MIN_CONFIDENCE <= x <= Rmax MIN_CONFIDENCE
                             (foldr Rmax MIN_CONFIDENCE (map kc kps)))
                     (c :: valid')) as Hb.
      { rewrite <- Hvalid. apply Forall_forall. intros x Hx.
        apply list_elem_of_filter in Hx as [Hok Hx]. split; [exact Hok |].
        etrans; [| apply Rmax_r]. clear -Hx.
        induction (map kc kps) as [| y ys IH]; [by apply elem_of_nil in Hx |].
        apply elem_of_cons in Hx as [-> | Hx]; cbn [foldr].
        - apply Rmax_l.
        - etrans; [by apply IH | apply Rmax_r]. }
      apply (np_mean_bounds _ _ _ ltac:(done) Hb).
    + intros hi Hhi.
      apply (np_mean_bounds MIN_CONFIDENCE hi (c :: valid') ltac:(done) (Hall hi Hhi)).
Qed.

Lemma mean_confidence_bounds_witness :
  MIN_CONFIDENCE <= mean_confidence (replicate 17 (Kp 0 0 1)).
Proof.
  apply (mean_confidence_bounds (replicate 17 (Kp 0 0 1))).
  apply Exists_cons_hd. unfold MIN_CONFIDENCE. simpl. lra.
Defined.

(** ** The reference table: medians *)

Import Startup.




Lemma np_median_middle (l : list R) (P : R → Prop) :
  l ≠ [] →
  (∀ x y, P x → P y → P ((x + y) / 2)) →
  (∀ k x, merge_sort Rle l !! k = Some x →
          (k = length l / 2 ∨ (Nat.even (length l) = true ∧ k = length l / 2 - 1))%nat →
          P x) →
  P (np_median l).
Proof.
  intros Hne Hmid Hidx. unfold np_median. cbv zeta.
  assert (length (merge_sort Rle l) = length l) as Hlen
    by (by rewrite merge_sort_Permutation).
  rewrite Hlen.
  assert (0 < length l)%nat as Hpos by (destruct l; [done | simpl; lia]).
  assert (length l / 2 < length l)%nat as Hhalf by (apply Nat.div_lt; lia).
  destruct (lookup_lt_is_Some_2 (merge_sort Rle l) (length l / 2)) as [hi Hhi];
    [lia |].
  destruct (Nat.even (length l)) eqn:Heven.
  - destruct (lookup_lt_is_Some_2 (merge_sort Rle l) (length l / 2 - 1)) as [lo Hlo];
      [lia |].
    rewrite Hhi, Hlo. cbn [default]. apply Hmid.
    + apply (Hidx _ _ Hlo). by right.
    + apply (Hidx _ _ Hhi). by left.
  - rewrite Hhi. cbn [default]. apply (Hidx _ _ Hhi). by left.
Qed.

Lemma np_median_bounds (a b : R) (l : list R) :
  l ≠ [] → Forall (λ x, a <= x <= b) l → a <= np_median l <= b.
Proof.
  intros Hne Hall. apply (np_median_middle l (λ x, a <= x <= b) Hne).
  - intros x y Hx Hy. lra.
  - intros k x Hk _. apply list_elem_of_lookup_2 in Hk.
    rewrite merge_sort_Permutation in Hk. rewrite Forall_forall in Hall. by apply Hall.
Qed.





Lemma column_defined_values (name : string) (dicts : list (gmap string (option R)))
    (column : list (option R)) :
  mapM (λ a : gmap string (option R), a !! name) dicts = Some column →
  omap (λ v : option R, v) column = defined_values name dicts.
Proof.
  rewrite mapM_Some. induction 1 as [| a v dicts column Hv _ IH]; [done |].
  unfold defined_values in *. simpl. rewrite Hv. simpl.
  destruct v; simpl; [f_equal |]; exact IH.
Qed.

Lemma aggregate_angles_unfold (first : gmap string (option R))
    (rest : list (gmap string (option R))) (avg : gmap string (option R)) :
  aggregate_angles (first :: rest) = Some avg →
  ∃ l : list (string * option R),
    avg = list_to_map l
    ∧ NoDup l.*1
    ∧ l.*1 = (map_to_list first).*1
    ∧ ∀ name r, (name, r) ∈ l →
        (∀ a, a ∈ first :: rest → is_Some (a !! name))
        ∧ r = match defined_values name (first :: rest) with
              | [] => None
              | _ => Some (np_median (defined_values name (first :: rest)))
              end.
Proof.
  unfold aggregate_angles. intros H.
  apply bind_Some in H as (l & Hl & [= <-]).
  exists l. split; [done |].
  apply mapM_Some in Hl.
  assert (l.*1 = (map_to_list first).*1) as Hkeys.
  { clear -Hl. induction Hl as [| key entry keys l Hentry _ IH]; [done |].
    apply bind_Some in Hentry as (column & _ & [= <-]). cbn. by rewrite IH. }
  split; [rewrite Hkeys; apply NoDup_fst_map_to_list |]. split; [done |].
  intros name r Hin.
  clear Hkeys. induction Hl as [| key entry keys l Hentry _ IH];
    [by apply elem_of_nil in Hin |].
  apply elem_of_cons in Hin as [Heq | Hin]; [| by apply IH].
  apply bind_Some in Hentry as (column & Hcol & Hentry).
  rewrite <- Heq in Hentry. injection Hentry as <- <-.
  rewrite (column_defined_values _ _ _ Hcol). split; [| reflexivity].
  intros a Ha. apply mapM_Some in Hcol.
  apply list_elem_of_lookup_1 in Ha as [i Hi].
  destruct (Forall2_lookup_l _ _ _ _ _ Hcol Hi) as (v & _ & Hv). by exists v.
Qed.






(** ** The reference table: grouping by label *)

Lemma filter_filter_absorb {A} (P Q : A → Prop) `{!∀ x, Decision (P x)}
    `{!∀ x, Decision (Q x)} (l : list A) :
  (∀ x, P x → Q x) → filter P (filter Q l) = filter P l.
Proof.
  intros HPQ. rewrite list_filter_filter. apply list_filter_iff.
  intros x. specialize (HPQ x). tauto.
Qed.

Lemma grouping_loop (samples : list sample) (grouped : Startup.groups) :
  foldl add_sample grouped samples
  = ((λ entry : string * (list (list keypoint) * list (gmap string (option R))),
        (entry.1, (entry.2.1 ++ (group_of entry.1 samples).2.1,
                   entry.2.2 ++ (group_of entry.1 samples).2.2))) <$> grouped)
    ++ ((λ label, group_of label samples)
          <$> filter (λ y, y ∉ grouped.*1) (distinct (pose_label <$> samples))).
Proof.
  revert grouped. induction samples as [| s samples IH]; intros grouped.
  - cbn. rewrite app_nil_r. symmetry. etrans; [| apply list_fmap_id].
    apply list_fmap_ext. intros _ [label [kps angs]] _. cbn. by rewrite !app_nil_r.
  - cbn [foldl]. rewrite IH. clear IH. unfold add_sample. cbv zeta.
    rewrite (fmap_cons pose_label). cbn [distinct].
    destruct (decide (pose_label s ∈ grouped.*1)) as [Hin | Hout].
    + rewrite filter_cons_False by tauto.
      assert (∀ l : Startup.groups, ((λ entry : string * (list (list keypoint)
                  * list (gmap string (option R))),
                 if decide (entry.1 = pose_label s)
                 then (entry.1, (entry.2.1 ++ [sample_keypoints s],
                                 entry.2.2 ++ [sample_angles s]))
                 else entry) <$> l).*1 = l.*1) as Hkeys.
      { intros l. rewrite <- list_fmap_compose. apply list_fmap_ext.
        intros _ [label data] _. cbn. by case_decide. }
      rewrite Hkeys, <- list_fmap_compose. f_equal.
      * apply list_fmap_ext. intros _ [label [kps angs]] _.
        unfold group_of, samples_of, compose. cbn [fst snd].
        case_decide as Hl; cbn [fst snd].
        -- subst label. rewrite filter_cons_True by done.
           by rewrite !fmap_cons, <- !app_assoc.
        -- rewrite filter_cons_False by (intros ?; by apply Hl). done.
      * rewrite (filter_filter_absorb (λ y, y ∉ grouped.*1) (λ y, y ≠ pose_label s))
          by (intros y Hy ->; by apply Hy).
        apply list_fmap_ext. intros i label Hi.
        apply list_elem_of_lookup_2, list_elem_of_filter in Hi as [Hy _].
        unfold group_of, samples_of.
        rewrite filter_cons_False by (intros <-; by apply Hy). done.
    + rewrite filter_cons_True by done.
      rewrite fmap_app, <- app_assoc. cbn [fmap list_fmap app]. f_equal.
      * apply list_fmap_ext. intros i [label [kps angs]] Hi.
        assert (label ≠ pose_label s) as Hne.
        { intros ->. apply Hout. apply list_elem_of_fmap.
          eexists (_, _). split; [done |]. by eapply list_elem_of_lookup_2. }
        unfold group_of, samples_of. cbn [fst snd].
        rewrite filter_cons_False by (intros ?; by apply Hne). done.
      * f_equal.
        -- unfold group_of, samples_of. cbn [fst snd].
           rewrite filter_cons_True by done. done.
        -- rewrite list_filter_filter.
           set (added := grouped ++ [(pose_label s,
                                      ([sample_keypoints s], [sample_angles s]))]).
           rewrite (list_filter_iff (λ y, y ∉ added.*1)
                     (λ y, (y ∉ grouped.*1) ∧ y ≠ pose_label s)).
           2:{ intros y. unfold added. rewrite fmap_app, elem_of_app. simpl.
               rewrite (list_elem_of_singleton y). tauto. }
           apply list_fmap_ext. intros i label Hi.
           apply list_elem_of_lookup_2, list_elem_of_filter in Hi as [[_ Hy] _].
           unfold group_of, samples_of.
           rewrite filter_cons_False by (intros ?; by apply Hy). done.
Qed.

Lemma grouping_spec (samples : list sample) :
  foldl add_sample [] samples
  = (λ label, group_of label samples) <$> distinct (pose_label <$> samples).
Proof.
  rewrite grouping_loop. cbn. f_equal.
  induction (distinct (pose_label <$> samples)) as [| y l IH]; [done |].
  rewrite filter_cons_True by apply not_elem_of_nil. by rewrite IH.
Qed.

Lemma elem_of_distinct (labels : list string) (x : string) :
  x ∈ distinct labels ↔ x ∈ labels.
Proof.
  induction labels as [| y labels IH]; [done |]. cbn [distinct].
  rewrite !elem_of_cons, list_elem_of_filter, IH.
  destruct (decide (x = y)); tauto.
Qed.

Lemma NoDup_distinct (labels : list string) : NoDup (distinct labels).
Proof.
  induction labels as [| y labels IH]; [constructor |]. cbn [distinct].
  constructor; [| by apply NoDup_filter].
  rewrite list_elem_of_filter. tauto.
Qed.

Lemma pose_references_unfold (samples : list sample) (table : list (string * reference)) :
  pose_references (Some samples) = Some table →
  Forall2 (λ label (entry : string * reference),
             entry.1 = label
             ∧ np_median_axis0 (sample_keypoints <$> samples_of label samples)
               = Some (ref_keypoints entry.2)
             ∧ aggregate_angles (sample_angles <$> samples_of label samples)
               = Some (ref_angles entry.2))
          (distinct (pose_label <$> samples)) table.
Proof.
  unfold pose_references. rewrite grouping_spec, mapM_Some, Forall2_fmap_l.
  intros HF. eapply Forall2_impl; [exact HF |]. clear HF.
  intros label [label' ref] H. unfold compose in H. cbn [fst snd] in *.
  apply bind_Some in H as (r & Hr & [= <- <-]).
  unfold aggregate, group_of in Hr. cbn [fst snd] in Hr.
  apply bind_Some in Hr as (kps & Hkps & Hr).
  apply bind_Some in Hr as (angs & Hangs & [= <-]). done.
Qed.

Lemma pose_references_keys (samples : list sample) (table : list (string * reference)) :
  pose_references (Some samples) = Some table →
  table.*1 = distinct (pose_label <$> samples).
Proof.
  intros H. apply pose_references_unfold in H.
  induction H as [| label entry labels table (Hl & _) _ IH]; [done |].
  cbn. by rewrite Hl, IH.
Qed.

Lemma pose_references_entry (samples : list sample) (table : list (string * reference))
    (label : string) (ref : reference) :
  pose_references (Some samples) = Some table → (label, ref) ∈ table →
  np_median_axis0 (sample_keypoints <$> samples_of label samples) = Some (ref_keypoints ref)
  ∧ aggregate_angles (sample_angles <$> samples_of label samples) = Some (ref_angles ref).
Proof.
  intros H Hin. apply pose_references_unfold in H.
  apply list_elem_of_lookup_1 in Hin as [i Hi].
  destruct (Forall2_lookup_r _ _ _ _ _ H Hi) as (label' & _ & Hl & Hk & Ha).
  cbn [fst snd] in *. by subst label'.
Qed.

(** X26: the table built at start-up has one reference per label of the
    file, in the order in which the labels first appear; the reference of a
    label is computed from the samples that carry this label and from
    nothing else, so that two files which agree on the samples of a label
    give it the same reference. *)
Theorem pose_references_by_label (samples : list sample)
    (table : list (string * reference)) :
  pose_references (Some samples) = Some table →
  table.*1 = distinct (pose_label <$> samples)
  ∧ NoDup table.*1
  ∧ (∀ label, label ∈ table.*1 ↔ ∃ s, s ∈ samples ∧ pose_label s = label)
  ∧ (∀ label ref, (label, ref) ∈ table →
       np_median_axis0 (sample_keypoints <$> samples_of label samples)
       = Some (ref_keypoints ref)
       ∧ aggregate_angles (sample_angles <$> samples_of label samples)
         = Some (ref_angles ref))
  ∧ (∀ samples' table' label ref ref',
       pose_references (Some samples') = Some table' →
       samples_of label samples' = samples_of label samples →
       (label, ref) ∈ table → (label, ref') ∈ table' → ref' = ref).
Proof.
  intros H. pose proof (pose_references_keys _ _ H) as Hkeys.
  split; [done |]. split; [rewrite Hkeys; apply NoDup_distinct |].
  split; [| split].
  - intros label. rewrite Hkeys, elem_of_distinct, list_elem_of_fmap.
    split; intros (s & Hs1 & Hs2); exists s; by split.
  - intros label ref. by apply pose_references_entry.
  - intros samples' table' label ref ref' H' Hsame Hin Hin'.
    destruct (pose_references_entry _ _ _ _ H Hin) as [Hk Ha].
    destruct (pose_references_entry _ _ _ _ H' Hin') as [Hk' Ha'].
    rewrite Hsame in Hk', Ha'. destruct ref, ref'. cbn in *. congruence.
Qed.

Lemma pose_references_by_label_witness :
  let tree := Sample "a.jpg" "tree" [] {[ "left_elbow" := Some 1 ]} 1 in
  let plank := Sample "b.jpg" "plank" [] {[ "left_elbow" := None ]} 0 in
  let later := Sample "c.jpg" "tree" [] {[ "left_elbow" := None ]} 0 in
  let samples := [tree; plank; later] in
  let table := [("tree", Reference [] {[ "left_elbow" := Some 1 ]});
                ("plank", Reference [] {[ "left_elbow" := None ]})] in
  pose_references (Some samples) = Some table
  ∧ table.*1 = distinct (pose_label <$> samples)
  ∧ NoDup table.*1.
Proof.
  intros tree plank later samples table.
  assert (pose_references (Some samples) = Some table) as H.
  { unfold pose_references. rewrite grouping_spec. vm_compute. reflexivity. }
  split; [exact H |].
  destruct (pose_references_by_label samples table H) as (Hkeys & Hnd & _).
  by split.
Defined.

(** ** The reference file as the builder writes it *)

Import BuildReference.

Lemma sample_angle_joint_angle (kps : list keypoint) (def : nat * nat * nat) :
  sample_angle kps def = joint_angle kps def.
Proof.
  destruct def as [[i j] k]. unfold sample_angle, joint_angle.
  destruct (kps !! i) as [p1 |]; [| done].
  destruct (kps !! j) as [p2 |]; [| done].
  destruct (kps !! k) as [p3 |]; [| done].
  cbn [mbind option_bind].
  destruct (decide (MIN_CONFIDENCE <= kc p1)) as [H1 | H1];
    destruct (decide (MIN_CONFIDENCE <= kc p2)) as [H2 | H2];
    destruct (decide (MIN_CONFIDENCE <= kc p3)) as [H3 | H3];
    rewrite ?(bool_decide_true _ H1), ?(bool_decide_false _ H1),
            ?(bool_decide_true _ H2), ?(bool_decide_false _ H2),
            ?(bool_decide_true _ H3), ?(bool_decide_false _ H3);
    repeat match goal with
           | |- context [bool_decide (?a < ?b)] =>
               first [ rewrite (bool_decide_false (a < b)) by lra
                     | rewrite (bool_decide_true (a < b)) by lra ]
           end; reflexivity.
Qed.

Lemma sample_angles_fold (kps : list keypoint)
    (defs : list (string * (nat * nat * nat))) (acc : option (gmap string (option R))) :
  foldl (λ acc '(name, def),
           angles ← acc;
           a ← sample_angle kps def;
           Some (<[name := a]> angles)) acc defs
  = foldl (λ acc '(name, def),
             angles ← acc;
             a ← joint_angle kps def;
             Some (<[name := a]> angles)) acc defs.
Proof.
  revert acc. induction defs as [| [name def] defs IH]; intros acc; [done |].
  cbn [foldl]. rewrite sample_angle_joint_angle. apply IH.
Qed.

Lemma build_sample_unfold (img_name label : string) (fr : frame)
    (landmarks : list landmark) (rest : list (list landmark)) :
  pose_landmarks fr = landmarks :: rest →
  build_sample img_name label (Some fr)
  = kps ← mapM (λ mp_idx, lm ← landmarks !! mp_idx;
                          Some (Kp (lm_x lm) (lm_y lm) (lm_visibility lm)))
               MEDIAPIPE_INDICES;
    normalized ← normalize_keypoints kps;
    angles ← compute_joint_angles kps;
    Some (Some {| image_name := img_name;
                  pose_label := label;
                  sample_keypoints :=
                    (λ kp, Kp (py_round (kx kp) 6) (py_round (ky kp) 6)
                              (py_round (kc kp) 6)) <$> normalized;
                  sample_angles := angles;
                  confidence_mean := py_round (mean_confidence kps) 4 |}).
Proof.
  intros Hpose. unfold build_sample. rewrite Hpose.
  destruct (mapM _ MEDIAPIPE_INDICES) as [kps |]; [| done]. cbn [mbind option_bind].
  destruct (normalize_keypoints kps) as [normalized |]; [| done].
  cbn [mbind option_bind]. rewrite sample_angles_fold. reflexivity.
Qed.

Lemma build_sample_Some (img_name label : string) (image : option frame) (s : sample) :
  build_sample img_name label image = Some (Some s) →
  ∃ fr landmarks rest picked normalized,
    image = Some fr
    ∧ pose_landmarks fr = landmarks :: rest
    ∧ mapM (landmarks !!.) MEDIAPIPE_INDICES = Some picked
    ∧ length picked = 17%nat
    ∧ normalize_keypoints (relative_keypoint <$> picked) = Some normalized
    ∧ length normalized = 17%nat
    ∧ compute_joint_angles (relative_keypoint <$> picked) = Some (sample_angles s)
    ∧ sample_keypoints s = round_keypoint <$> normalized
    ∧ pose_label s = label
    ∧ image_name s = img_name
    ∧ confidence_mean s = py_round (mean_confidence (relative_keypoint <$> picked)) 4.
Proof.
  destruct image as [fr |]; [| done].
  destruct (pose_landmarks fr) as [| landmarks rest] eqn:Hpose;
    [unfold build_sample; by rewrite Hpose |].
  rewrite (build_sample_unfold _ _ _ _ _ Hpose).
  rewrite (mapM_lookup_fmap relative_keypoint).
  destruct (mapM (landmarks !!.) MEDIAPIPE_INDICES) as [picked |] eqn:Hpick; [| done].
  cbn [fmap option_fmap option_map mbind option_bind].
  assert (length picked = 17%nat) as Hlen
    by (symmetry; apply (length_mapM _ _ _ Hpick)).
  destruct (normalize_keypoints_total (relative_keypoint <$> picked))
    as (normalized & Hnorm & Hnlen); [by rewrite length_fmap |].
  rewrite Hnorm. cbn [mbind option_bind].
  destruct (compute_joint_angles (relative_keypoint <$> picked)) as [angles |] eqn:Hang;
    [| done].
  cbn [mbind option_bind]. intros [= <-]. cbn.
  by exists fr, landmarks, rest, picked, normalized.
Qed.

Lemma compute_joint_angles_keys (kps : list keypoint) (angles : gmap string (option R))
    (name : string) :
  length kps = 17%nat → compute_joint_angles kps = Some angles →
  is_Some (angles !! name) ↔ name ∈ ANGLE_NAMES.
Proof.
  intros Hlen Hang.
  pose proof (joint_angle_is_Some kps ltac:(lia)) as Hsome.
  destruct (compute_joint_angles_fold kps ANGLE_DEFINITIONS
              angle_definitions_nodup Hsome ∅) as (angles' & Hfold & Hin & Hout).
  unfold compute_joint_angles in Hang. rewrite Hfold in Hang. injection Hang as ->.
  split.
  - intros Hs. destruct (decide (name ∈ ANGLE_NAMES)) as [| Hn]; [done |].
    rewrite (Hout name Hn), lookup_empty in Hs. by destruct Hs.
  - intros Hn. unfold ANGLE_NAMES in Hn.
    apply list_elem_of_fmap in Hn as ([name' def] & -> & Hmem). cbn [fst].
    rewrite (Hin _ _ Hmem). rewrite Forall_forall in Hsome. apply (Hsome _ Hmem).
Qed.

Lemma build_sample_shape (img_name label : string) (image : option frame) (s : sample) :
  build_sample img_name label image = Some (Some s) →
  length (sample_keypoints s) = 17%nat
  ∧ pose_label s = label
  ∧ ∀ name, is_Some (sample_angles s !! name) ↔ name ∈ ANGLE_NAMES.
Proof.
  intros H. apply build_sample_Some in H
    as (fr & landmarks & rest & picked & normalized & _ & _ & _ & Hlen & _ & Hnlen
        & Hang & Hkps & Hlabel & _).
  split; [by rewrite Hkps, length_fmap |]. split; [done |].
  intros name. apply (compute_joint_angles_keys (relative_keypoint <$> picked));
    [by rewrite length_fmap | done].
Qed.

Lemma build_reference_yields (dataset : list (string * list (string * option frame)))
    (samples : list sample) (s : sample) :
  build_reference dataset = Some samples → s ∈ samples ↔ yields dataset s.
Proof.
  unfold build_reference. intros H.
  apply bind_Some in H as (per_label & Hper & [= <-]).
  rewrite list_elem_of_omap. apply mapM_Some in Hper.
  split.
  - intros (o & Ho & ->).
    apply list_elem_of_join in Ho as (row & Ho & Hrow).
    apply list_elem_of_lookup_1 in Hrow as [i Hi].
    destruct (Forall2_lookup_r _ _ _ _ _ Hper Hi) as ([label images] & Hd & Himgs).
    apply mapM_Some in Himgs.
    apply list_elem_of_lookup_1 in Ho as [j Hj].
    destruct (Forall2_lookup_r _ _ _ _ _ Himgs Hj) as ([img_name image] & Him & Hs).
    exists label, images, img_name, image.
    split; [by eapply list_elem_of_lookup_2 |].
    split; [by eapply list_elem_of_lookup_2 | done].
  - intros (label & images & img_name & image & Hd & Him & Hs).
    exists (Some s). split; [| done].
    apply list_elem_of_lookup_1 in Hd as [i Hi].
    destruct (Forall2_lookup_l _ _ _ _ _ Hper Hi) as (row & Hrow & Himgs).
    cbn in Himgs. apply mapM_Some in Himgs.
    apply list_elem_of_lookup_1 in Him as [j Hj].
    destruct (Forall2_lookup_l _ _ _ _ _ Himgs Hj) as (o & Ho & Hs').
    cbn in Hs'. rewrite Hs in Hs'. injection Hs' as <-.
    apply list_elem_of_join. exists row.
    split; by eapply list_elem_of_lookup_2.
Qed.

Lemma np_median_axis0_Some (skeletons : list (list keypoint)) (n : nat) :
  skeletons ≠ [] → Forall (λ sk, length sk = n) skeletons →
  ∃ kps, np_median_axis0 skeletons = Some kps ∧ length kps = n.
Proof.
  intros Hne Hall. destruct skeletons as [| first rest]; [done |].
  unfold np_median_axis0.
  assert (length first = n) as Hfirst by (by inversion Hall).
  rewrite decide_True by (by rewrite Hfirst).
  eexists. split; [done |]. by rewrite length_fmap, length_seq.
Qed.

Lemma np_median_axis0_length (skeletons : list (list keypoint)) (kps sk : list keypoint) :
  np_median_axis0 skeletons = Some kps → sk ∈ skeletons → length kps = length sk.
Proof.
  destruct skeletons as [| first rest]; [done |]. unfold np_median_axis0.
  case_decide as Hall; [| done]. intros [= <-] Hin.
  rewrite Forall_forall in Hall. rewrite (Hall _ Hin).
  by rewrite length_fmap, length_seq.
Qed.

Lemma aggregate_angles_Some (dicts : list (gmap string (option R))) (keys : list string) :
  dicts ≠ [] →
  Forall (λ a : gmap string (option R), ∀ name, is_Some (a !! name) ↔ name ∈ keys) dicts →
  ∃ avg, aggregate_angles dicts = Some avg
         ∧ ∀ name, is_Some (avg !! name) ↔ name ∈ keys.
Proof.
  intros Hne Hall. destruct dicts as [| first rest]; [done |].
  assert (is_Some (aggregate_angles (first :: rest))) as [avg Havg].
  { unfold aggregate_angles.
    destruct (mapM _ (map_to_list first).*1) as [l |] eqn:Hl; [by eexists |].
    exfalso. apply mapM_None, Exists_exists in Hl as (key & Hkey & Hnone).
    apply bind_None in Hnone as [Hcol | (column & _ & ?)]; [| done].
    apply mapM_None, Exists_exists in Hcol as (a & Ha & Hnone).
    rewrite Forall_forall in Hall.
    apply eq_None_not_Some in Hnone. apply Hnone, (Hall _ Ha).
    apply (Hall first); [left |].
    apply list_elem_of_fmap in Hkey as ([key' v] & -> & Hkv).
    apply elem_of_map_to_list in Hkv. by exists v. }
  exists avg. split; [done |].
  destruct (aggregate_angles_unfold _ _ _ Havg) as (l & -> & Hnd & Hkeys & _).
  inversion Hall as [| ? ? Hfirst _]; subst.
  intros name. rewrite <- Hfirst.
  rewrite <- !not_eq_None_Some, <- !(not_elem_of_list_to_map l), Hkeys.
  split; intros Hn Hnone; apply Hn.
  - intros Hin. apply list_elem_of_fmap in Hin as ([key v] & -> & Hkv).
    apply elem_of_map_to_list in Hkv. cbn in Hnone. by rewrite Hkv in Hnone.
  - destruct (first !! name) as [v |] eqn:Hv; [| done]. exfalso. apply Hnone.
    apply list_elem_of_fmap. exists (name, v). split; [done |].
    by apply elem_of_map_to_list.
Qed.

Lemma samples_of_nonempty (label : string) (samples : list sample) :
  label ∈ pose_label <$> samples → samples_of label samples ≠ [].
Proof.
  intros Hin Hnil. apply list_elem_of_fmap in Hin as (s & -> & Hs).
  assert (s ∈ samples_of (pose_label s) samples) as Hmem
    by (by apply list_elem_of_filter).
  rewrite Hnil in Hmem. by apply elem_of_nil in Hmem.
Qed.

Lemma pose_references_Some (samples : list sample) (keys : list string) (n : nat) :
  Forall (λ s, length (sample_keypoints s) = n
               ∧ ∀ name, is_Some (sample_angles s !! name) ↔ name ∈ keys) samples →
  ∃ table, pose_references (Some samples) = Some table
    ∧ ∀ label ref, (label, ref) ∈ table →
        length (ref_keypoints ref) = n
        ∧ ∀ name, is_Some (ref_angles ref !! name) ↔ name ∈ keys.
Proof.
  intros Hall.
  assert (∀ label, label ∈ distinct (pose_label <$> samples) →
            ∃ kps avg,
              np_median_axis0 (sample_keypoints <$> samples_of label samples) = Some kps
              ∧ length kps = n
              ∧ aggregate_angles (sample_angles <$> samples_of label samples) = Some avg
              ∧ ∀ name, is_Some (avg !! name) ↔ name ∈ keys) as Hgroup.
  { intros label Hlabel. apply elem_of_distinct, samples_of_nonempty in Hlabel.
    assert (Forall (λ s, length (sample_keypoints s) = n
                         ∧ ∀ name, is_Some (sample_angles s !! name) ↔ name ∈ keys)
                   (samples_of label samples)) as Hsub.
    { apply Forall_forall. intros s Hs. apply list_elem_of_filter in Hs as [_ Hs].
      rewrite Forall_forall in Hall. by apply Hall. }
    destruct (np_median_axis0_Some (sample_keypoints <$> samples_of label samples) n)
      as (kps & Hkps & Hlen).
    { intros Hnil. apply fmap_nil_inv in Hnil. by apply Hlabel. }
    { apply Forall_fmap. eapply Forall_impl; [exact Hsub |]. by intros s [Hs _]. }
    destruct (aggregate_angles_Some (sample_angles <$> samples_of label samples) keys)
      as (avg & Havg & Hkeys).
    { intros Hnil. apply fmap_nil_inv in Hnil. by apply Hlabel. }
    { apply Forall_fmap. eapply Forall_impl; [exact Hsub |]. by intros s [_ Hs]. }
    by exists kps, avg. }
  assert (is_Some (pose_references (Some samples))) as [table Htable].
  { unfold pose_references. rewrite grouping_spec.
    apply mapM_is_Some, Forall_fmap, Forall_forall. intros label Hlabel.
    destruct (Hgroup label Hlabel) as (kps & avg & Hkps & _ & Havg & _).
    unfold compose, aggregate, group_of. cbn [fst snd]. rewrite Hkps, Havg. by eexists. }
  exists table. split; [done |]. intros label ref Hin.
  destruct (pose_references_entry _ _ _ _ Htable Hin) as [Hk Ha].
  destruct (Hgroup label) as (kps & avg & Hkps & Hlen & Havg & Hkeys).
  { rewrite <- (pose_references_keys _ _ Htable). apply list_elem_of_fmap.
    by exists (label, ref). }
  rewrite Hk in Hkps. rewrite Ha in Havg.
  injection Hkps as <-. injection Havg as <-. by split.
Qed.

(** X27: a reference file written by the builder always loads.  Whatever the
    dataset, if the builder runs through, the table built at start-up from
    its samples exists; every reference in it has 17 keypoints and defines
    or leaves undefined exactly the eight joints of the table; and a label
    has a reference exactly when one of its images yielded a sample, so a
    label whose images were all skipped has none. *)
Theorem built_reference_file_loads
    (dataset : list (string * list (string * option frame))) (samples : list sample) :
  build_reference dataset = Some samples →
  ∃ table,
    pose_references (Some samples) = Some table
    ∧ well_formed_references (list_to_map table)
    ∧ (∀ label ref, (label, ref) ∈ table →
         ∀ name, is_Some (ref_angles ref !! name) ↔ name ∈ ANGLE_NAMES)
    ∧ (∀ label, label ∈ table.*1 ↔ ∃ s, yields dataset s ∧ pose_label s = label).
Proof.
  intros Hbuild.
  destruct (pose_references_Some samples ANGLE_NAMES 17) as (table & Htable & Hshape).
  { apply Forall_forall. intros s Hs.
    apply (build_reference_yields _ _ _ Hbuild) in Hs
      as (label & images & img_name & image & _ & _ & Hs).
    apply build_sample_shape in Hs as (Hlen & _ & Hkeys). by split. }
  exists table. split; [done |]. split; [| split].
  - intros ex ref Hex. apply elem_of_list_to_map_2 in Hex. by apply (Hshape ex ref).
  - intros label ref Hin. by apply (Hshape label ref).
  - intros label.
    rewrite (pose_references_keys _ _ Htable), elem_of_distinct, list_elem_of_fmap.
    split.
    + intros (s & -> & Hs). exists s. split; [| done].
      by apply (build_reference_yields _ _ _ Hbuild).
    + intros (s & Hs & <-). exists s. split; [done |].
      by apply (build_reference_yields _ _ _ Hbuild).
Qed.

Lemma build_sample_detected (img_name label : string) (fr : frame)
    (landmarks : list landmark) (rest : list (list landmark)) :
  pose_landmarks fr = landmarks :: rest → (29 ≤ length landmarks)%nat →
  ∃ s, build_sample img_name label (Some fr) = Some (Some s).
Proof.
  intros Hpose Hlen. rewrite (build_sample_unfold _ _ _ _ _ Hpose).
  rewrite (mapM_lookup_fmap relative_keypoint).
  destruct (mapM_lookup_in_range landmarks MEDIAPIPE_INDICES) as (picked & Hm & Hl).
  { eapply Forall_impl; [apply mediapipe_indices_in_range |].
    intros i Hi. simpl in Hi. lia. }
  rewrite Hm. cbn [fmap option_fmap option_map mbind option_bind].
  destruct (normalize_keypoints_total (relative_keypoint <$> picked))
    as (normalized & Hnorm & _); [by rewrite length_fmap |].
  destruct (compute_joint_angles_total (relative_keypoint <$> picked))
    as (angles & Hang); [by rewrite length_fmap |].
  rewrite Hnorm, Hang. by eexists.
Qed.

Lemma build_sample_total (img_name label : string) (image : option frame) :
  readable image → is_Some (build_sample img_name label image).
Proof.
  destruct image as [fr |]; [| by eexists].
  unfold readable.
  destruct (pose_landmarks fr) as [| landmarks rest] eqn:Hpose;
    [intros _; unfold build_sample; rewrite Hpose; by eexists |].
  intros Hlen.
  destruct (build_sample_detected img_name label fr _ _ Hpose Hlen) as [s Hs].
  rewrite Hs. by eexists.
Qed.

Lemma build_reference_total (dataset : list (string * list (string * option frame))) :
  Forall (λ entry, Forall (λ img, readable img.2) entry.2) dataset →
  is_Some (build_reference dataset).
Proof.
  intros Hall. unfold build_reference.
  destruct (mapM _ dataset) as [per_label |] eqn:Hper; [by eexists |].
  exfalso. apply mapM_None, Exists_exists in Hper as ([label images] & Hd & Hnone).
  apply mapM_None, Exists_exists in Hnone as ([img_name image] & Him & Hnone).
  rewrite Forall_forall in Hall. specialize (Hall _ Hd). cbn [snd] in Hall.
  rewrite Forall_forall in Hall. specialize (Hall _ Him). cbn [snd] in Hall.
  apply (build_sample_total img_name label) in Hall. rewrite Hnone in Hall.
  by destruct Hall.
Qed.

Lemma built_reference_file_loads_witness :
  let dataset :=
    [("plank", [("a.jpg", Some (Frame 1 1 []))]);
     ("tree", [("b.jpg", None); ("c.jpg", Some (Frame 1 1 [replicate 29 (Lm 0 0 1)]))])] in
  ∃ samples,
    build_reference dataset = Some samples
    ∧ ∃ table,
        pose_references (Some samples) = Some table
        ∧ well_formed_references (list_to_map table)
        ∧ (∀ label ref, (label, ref) ∈ table →
             ∀ name, is_Some (ref_angles ref !! name) ↔ name ∈ ANGLE_NAMES)
        ∧ (∀ label, label ∈ table.*1 ↔ ∃ s, yields dataset s ∧ pose_label s = label).
Proof.
  intros dataset.
  destruct (build_reference_total dataset) as [samples Hbuild].
  { repeat constructor; cbn; rewrite ?length_replicate; lia. }
  exists samples. split; [exact Hbuild |].
  exact (built_reference_file_loads dataset samples Hbuild).
Defined.

(** ** Reference angles and live angles of the same image *)

Lemma bone_length_pixels (h w : Z) (l2 l : landmark) :
  h = w → (1 ≤ w)%Z →
  bone_length (keypoint_of_landmark h w l2) (keypoint_of_landmark h w l)
  = IZR w * bone_length (relative_keypoint l2) (relative_keypoint l).
Proof.
  intros -> Hw. rewrite !bone_length_norm. cbn [keypoint_of_landmark relative_keypoint kx ky].
  rewrite <- np_norm_scale by (apply IZR_le in Hw; lra). f_equal; ring.
Qed.

Lemma bone_dot_pixels (h w : Z) (l1 l2 l3 : landmark) :
  h = w →
  bone_dot (keypoint_of_landmark h w l1) (keypoint_of_landmark h w l2)
           (keypoint_of_landmark h w l3)
  = IZR w * IZR w
    * bone_dot (relative_keypoint l1) (relative_keypoint l2) (relative_keypoint l3).
Proof.
  intros ->. unfold bone_dot. cbn [keypoint_of_landmark relative_keypoint kx ky]. ring.
Qed.

Lemma compute_angle_pixels (h w : Z) (l1 l2 l3 : landmark) :
  h = w → (1 ≤ w)%Z →
  IZR w * 1e-8 <= bone_length (keypoint_of_landmark h w l2) (keypoint_of_landmark h w l1) →
  IZR w * 1e-8 <= bone_length (keypoint_of_landmark h w l2) (keypoint_of_landmark h w l3) →
  compute_angle (keypoint_of_landmark h w l1) (keypoint_of_landmark h w l2)
                (keypoint_of_landmark h w l3)
  = compute_angle (relative_keypoint l1) (relative_keypoint l2) (relative_keypoint l3).
Proof.
  intros Hsq Hw H1 H3.
  assert (1 <= IZR w) as Hw1 by (by apply IZR_le in Hw).
  rewrite (bone_length_pixels h w l2 l1 Hsq Hw) in H1.
  rewrite (bone_length_pixels h w l2 l3 Hsq Hw) in H3.
  set (b1 := bone_length (relative_keypoint l2) (relative_keypoint l1)) in *.
  set (b3 := bone_length (relative_keypoint l2) (relative_keypoint l3)) in *.
  assert (1e-8 <= b1) as Hb1 by nra.
  assert (1e-8 <= b3) as Hb3 by nra.
  destruct (compute_angle_nondegenerate (relative_keypoint l1) (relative_keypoint l2)
              (relative_keypoint l3) Hb1 Hb3) as [-> _].
  destruct (compute_angle_nondegenerate (keypoint_of_landmark h w l1)
              (keypoint_of_landmark h w l2) (keypoint_of_landmark h w l3)) as [-> _].
  { rewrite (bone_length_pixels h w l2 l1 Hsq Hw). fold b1. nra. }
  { rewrite (bone_length_pixels h w l2 l3 Hsq Hw). fold b3. nra. }
  rewrite (bone_dot_pixels h w l1 l2 l3 Hsq),
          (bone_length_pixels h w l2 l1 Hsq Hw), (bone_length_pixels h w l2 l3 Hsq Hw).
  fold b1 b3. f_equal. f_equal. field. lra.
Qed.

Lemma detect_keypoints_picked (fr : frame) (landmarks : list landmark)
    (rest : list (list landmark)) (picked : list landmark) :
  pose_landmarks fr = landmarks :: rest →
  mapM (landmarks !!.) MEDIAPIPE_INDICES = Some picked →
  detect_keypoints fr
  = Some (Some (keypoint_of_landmark (frame_h fr) (frame_w fr) <$> picked)).
Proof.
  intros Hpose Hpick. unfold detect_keypoints. rewrite Hpose.
  rewrite (mapM_lookup_fmap (keypoint_of_landmark (frame_h fr) (frame_w fr))).
  by rewrite Hpick.
Qed.

(** X28: the reference builder measures the angles of an image on
    coordinates relative to the image, the engine on pixel coordinates.  On
    a square image the two agree: for every joint whose two bones are at
    least 1e-8 of the image side long, the angle the builder writes for the
    image is the angle the engine computes on it, and it is undefined for
    the one exactly when it is for the other. *)
Theorem reference_angle_like_live_angle (img_name label : string) (fr : frame)
    (s : sample) (kps : list keypoint) (live_angles : gmap string (option R))
    (name : string) (i j k : nat) (q1 q2 q3 : keypoint) :
  build_sample img_name label (Some fr) = Some (Some s) →
  detect_keypoints fr = Some (Some kps) →
  compute_joint_angles kps = Some live_angles →
  frame_h fr = frame_w fr → (1 ≤ frame_w fr)%Z →
  (name, (i, j, k)) ∈ ANGLE_DEFINITIONS →
  kps !! i = Some q1 → kps !! j = Some q2 → kps !! k = Some q3 →
  IZR (frame_w fr) * 1e-8 <= bone_length q2 q1 →
  IZR (frame_w fr) * 1e-8 <= bone_length q2 q3 →
  sample_angles s !! name = live_angles !! name.
Proof.
  intros Hs Hdet Hlive Hsq Hw Hmem Hq1 Hq2 Hq3 Hb1 Hb3.
  apply build_sample_Some in Hs
    as (fr' & landmarks & rest & picked & normalized & [= <-] & Hpose & Hpick & Hlen
        & _ & _ & Hang & _).
  rewrite (detect_keypoints_picked _ _ _ _ Hpose Hpick) in Hdet.
  injection Hdet as <-.
  rewrite list_lookup_fmap in Hq1, Hq2, Hq3.
  destruct (picked !! i) as [l1 |] eqn:Hl1; [| done].
  destruct (picked !! j) as [l2 |] eqn:Hl2; [| done].
  destruct (picked !! k) as [l3 |] eqn:Hl3; [| done].
  cbn in Hq1, Hq2, Hq3.
  injection Hq1 as <-. injection Hq2 as <-. injection Hq3 as <-.
  assert (length (relative_keypoint <$> picked) = 17%nat) as Hlr
    by (by rewrite length_fmap).
  assert (length (keypoint_of_landmark (frame_h fr) (frame_w fr) <$> picked) = 17%nat)
    as Hlp by (by rewrite length_fmap).
  rewrite (compute_joint_angles_lookup _ _ name i j k
             (relative_keypoint l1) (relative_keypoint l2) (relative_keypoint l3)
             Hlr Hang Hmem)
    by (by rewrite list_lookup_fmap, ?Hl1, ?Hl2, ?Hl3).
  rewrite (compute_joint_angles_lookup _ _ name i j k
             (keypoint_of_landmark (frame_h fr) (frame_w fr) l1)
             (keypoint_of_landmark (frame_h fr) (frame_w fr) l2)
             (keypoint_of_landmark (frame_h fr) (frame_w fr) l3)
             Hlp Hlive Hmem)
    by (by rewrite list_lookup_fmap, ?Hl1, ?Hl2, ?Hl3).
  rewrite (compute_angle_pixels _ _ l1 l2 l3 Hsq Hw Hb1 Hb3).
  reflexivity.
Qed.

Lemma le_sqrt (a x : R) : 0 <= a → a * a <= x → a <= sqrt x.
Proof.
  intros Ha Hax. rewrite <- (sqrt_square a Ha). by apply sqrt_le_1_alt.
Qed.

Lemma reference_angle_like_live_angle_witness :
  let o := Lm 0 0 1 in
  let landmarks := replicate 11 o ++ [Lm 1 0 1; o; o; o; Lm 0 1 1] ++ replicate 13 o in
  let fr := Frame 2 2 [landmarks] in
  ∃ s live_angles,
    build_sample "a.jpg" "tree" (Some fr) = Some (Some s)
    ∧ compute_joint_angles (keypoint_of_landmark 2 2 <$> replicate 5 o
                              ++ [Lm 1 0 1; o; o; o; Lm 0 1 1] ++ replicate 7 o)
      = Some live_angles
    ∧ sample_angles s !! "left_elbow" = live_angles !! "left_elbow".
Proof.
  intros o landmarks fr.
  destruct (build_sample_detected "a.jpg" "tree" fr landmarks [] eq_refl) as [s Hs];
    [unfold landmarks; rewrite !length_app, !length_replicate; cbn; lia |].
  set (kps := keypoint_of_landmark 2 2 <$> replicate 5 o
                ++ [Lm 1 0 1; o; o; o; Lm 0 1 1] ++ replicate 7 o).
  destruct (compute_joint_angles_total kps eq_refl) as [live_angles Hlive].
  exists s, live_angles. split; [exact Hs |]. split; [exact Hlive |].
  apply (reference_angle_like_live_angle "a.jpg" "tree" fr s kps live_angles
           "left_elbow" 5 7 9
           (keypoint_of_landmark 2 2 (Lm 1 0 1)) (keypoint_of_landmark 2 2 o)
           (keypoint_of_landmark 2 2 (Lm 0 1 1)) Hs eq_refl Hlive eq_refl);
    [unfold fr; simpl; lia | apply list_elem_of_here
     | reflexivity | reflexivity | reflexivity | |].
  - apply le_sqrt; unfold fr, o; cbn [keypoint_of_landmark kx ky lm_x lm_y frame_w]; lra.
  - apply le_sqrt; unfold fr, o; cbn [keypoint_of_landmark kx ky lm_x lm_y frame_w]; lra.
Defined.

(** ** The receive loop of a connection *)

Lemma process_frame_engine (refs : gmap string reference) (e e' : PoseEngine.engine)
    (fr : frame) (current_exercise : option string) (res : WebsocketHandler.pose_result) :
  WebsocketHandler._process_frame refs e fr current_exercise = Some (res, e') →
  e' = WebsocketPose.engine_after_frame e fr.
Proof.
  unfold WebsocketHandler._process_frame, WebsocketPose.engine_after_frame.
  destruct (detect_keypoints fr) as [[kps |] |]; cbn [mbind option_bind]; [| | done].
  - destruct (smooth_pose e kps) as [[smoothed e1] |]; cbn [mbind option_bind]; [| done].
    intros H.
    apply bind_Some in H as (angles & _ & H).
    apply bind_Some in H as (normalized & _ & H).
    apply bind_Some in H as ([sim fb] & _ & H).
    apply bind_Some in H as (relative & _ & H).
    by injection H as _ <-.
  - by intros [= _ <-].
Qed.

Lemma receive_all_acc (lower : string → string) (refs : gmap string reference)
    (messages : list WebsocketPose.message)
    (state : option string * PoseEngine.engine) (acc : list WebsocketPose.reply) :
  foldl (λ '(state, replies) data,
           let '(state, sent) := WebsocketPose.receive lower refs state data in
           (state, replies ++ option_list sent))
        (state, acc) messages
  = ((WebsocketPose.receive_all lower refs state messages).1,
     acc ++ (WebsocketPose.receive_all lower refs state messages).2).
Proof.
  unfold WebsocketPose.receive_all. revert state acc.
  induction messages as [| data messages IH]; intros state acc.
  - cbn. by rewrite app_nil_r.
  - cbn [foldl].
    destruct (WebsocketPose.receive lower refs state data) as [state1 sent].
    rewrite (IH state1 (acc ++ option_list sent)), (IH state1 ([] ++ option_list sent)).
    cbn [fst snd app]. by rewrite app_assoc.
Qed.

Lemma receive_all_cons (lower : string → string) (refs : gmap string reference)
    (state : option string * PoseEngine.engine) (data : WebsocketPose.message)
    (messages : list WebsocketPose.message) :
  WebsocketPose.receive_all lower refs state (data :: messages)
  = ((WebsocketPose.receive_all lower refs
        (WebsocketPose.receive lower refs state data).1 messages).1,
     option_list (WebsocketPose.receive lower refs state data).2
     ++ (WebsocketPose.receive_all lower refs
           (WebsocketPose.receive lower refs state data).1 messages).2).
Proof.
  unfold WebsocketPose.receive_all at 1. cbn [foldl].
  destruct (WebsocketPose.receive lower refs state data) as [state1 sent].
  cbn [app fst snd]. apply receive_all_acc.
Qed.

Lemma receive_all_app (lower : string → string) (refs : gmap string reference)
    (state : option string * PoseEngine.engine)
    (messages1 messages2 : list WebsocketPose.message) :
  WebsocketPose.receive_all lower refs state (messages1 ++ messages2)
  = ((WebsocketPose.receive_all lower refs
        (WebsocketPose.receive_all lower refs state messages1).1 messages2).1,
     (WebsocketPose.receive_all lower refs state messages1).2
     ++ (WebsocketPose.receive_all lower refs
           (WebsocketPose.receive_all lower refs state messages1).1 messages2).2).
Proof.
  revert state. induction messages1 as [| data messages1 IH]; intros state.
  - change (WebsocketPose.receive_all lower refs state [])
      with (state, @nil WebsocketPose.reply).
    cbn [fst snd app].
    by destruct (WebsocketPose.receive_all lower refs state messages2).
  - rewrite <- app_comm_cons, !receive_all_cons, IH. cbn [fst snd].
    by rewrite app_assoc.
Qed.

Lemma receive_state (lower : string → string) (refs : gmap string reference)
    (current_exercise : option string) (e : PoseEngine.engine)
    (data : WebsocketPose.message) :
  (WebsocketPose.receive lower refs (current_exercise, e) data).1
  = (match lower <$> WebsocketPose.msg_exercise data with
     | Some exercise => Some exercise
     | None => current_exercise
     end,
     foldl WebsocketPose.engine_after_frame e (processed_frames [data])).
Proof.
  unfold WebsocketPose.receive, processed_frames.
  destruct data as [[exercise |] [[fr |] |]]; cbn; try reflexivity.
  destruct (WebsocketHandler._process_frame refs e fr current_exercise)
    as [[res e'] |] eqn:Hp; cbn; [| reflexivity].
  by rewrite (process_frame_engine _ _ _ _ _ _ Hp).
Qed.

Lemma receive_all_state (lower : string → string) (refs : gmap string reference)
    (messages : list WebsocketPose.message)
    (current_exercise : option string) (e : PoseEngine.engine) :
  (WebsocketPose.receive_all lower refs (current_exercise, e) messages).1
  = (match last (selections lower messages) with
     | Some exercise => Some exercise
     | None => current_exercise
     end,
     foldl WebsocketPose.engine_after_frame e (processed_frames messages)).
Proof.
  revert current_exercise e.
  induction messages as [| data messages IH]; intros current_exercise e; [done |].
  rewrite receive_all_cons. cbn [fst].
  rewrite receive_state, IH.
  unfold selections, processed_frames.
  destruct data as [[exercise |] [[fr |] |]]; cbn; try reflexivity;
    rewrite ?last_cons; by destruct (last _).
Qed.

Lemma websocket_pose_receive_all (lower : string → string)
    (refs : gmap string reference) (e : PoseEngine.engine)
    (messages : list WebsocketPose.message) :
  WebsocketPose.websocket_pose lower refs e messages
  = ((WebsocketPose.receive_all lower refs (None, e) messages).1.2,
     (WebsocketPose.receive_all lower refs (None, e) messages).2).
Proof.
  unfold WebsocketPose.websocket_pose.
  by destruct (WebsocketPose.receive_all lower refs (None, e) messages) as [[ex e'] r].
Qed.

Lemma receive_all_replies (lower : string → string) (refs : gmap string reference)
    (messages : list WebsocketPose.message) (state : option string * PoseEngine.engine) :
  (length (WebsocketPose.receive_all lower refs state messages).2 ≤ length messages)%nat.
Proof.
  revert state. induction messages as [| data messages IH]; intros state; [done |].
  rewrite receive_all_cons.
  destruct (WebsocketPose.receive lower refs state data) as [state1 sent].
  cbn [fst snd]. rewrite length_app. specialize (IH state1).
  destruct sent; simpl; lia.
Qed.

(** X29: the receive loop of a connection.  The engine a connection leaves
    behind is the engine after smoothing the frames that reached
    [_process_frame], whatever exercises were selected and whatever the
    references are; since the engine is shared, a second connection
    continues the smoothing where the first one stopped.  The reply to a
    message is the one a single round gives from the last exercise selected
    before it and the engine after the frames before it; and no message gets
    more than one reply. *)
Theorem websocket_connection (lower : string → string) (refs : gmap string reference)
    (e : PoseEngine.engine) :
  (∀ messages,
     (WebsocketPose.websocket_pose lower refs e messages).1
     = foldl WebsocketPose.engine_after_frame e (processed_frames messages))
  ∧ (∀ refs' messages1 messages2,
       (WebsocketPose.websocket_pose lower refs'
          (WebsocketPose.websocket_pose lower refs e messages1).1 messages2).1
       = (WebsocketPose.websocket_pose lower refs e (messages1 ++ messages2)).1)
  ∧ (∀ before data,
       (WebsocketPose.websocket_pose lower refs e (before ++ [data])).2
       = (WebsocketPose.websocket_pose lower refs e before).2
         ++ option_list
              (WebsocketPose.receive lower refs
                 (last (selections lower before),
                  foldl WebsocketPose.engine_after_frame e (processed_frames before))
                 data).2)
  ∧ (∀ messages,
       (length (WebsocketPose.websocket_pose lower refs e messages).2
        ≤ length messages)%nat).
Proof.
  assert (∀ refs0 e0 messages,
            (WebsocketPose.websocket_pose lower refs0 e0 messages).1
            = foldl WebsocketPose.engine_after_frame e0 (processed_frames messages))
    as Hengine.
  { intros refs0 e0 messages.
    by rewrite websocket_pose_receive_all, receive_all_state. }
  split; [apply Hengine |]. split; [| split].
  - intros refs' messages1 messages2. rewrite !Hengine.
    unfold processed_frames. by rewrite omap_app, foldl_app.
  - intros before data. rewrite !websocket_pose_receive_all. cbn [snd].
    rewrite receive_all_app. cbn [snd]. f_equal.
    rewrite receive_all_state, receive_all_cons. cbn [snd].
    change (WebsocketPose.receive_all lower refs _ []) with
      ((WebsocketPose.receive lower refs
          (match last (selections lower before) with
           | Some exercise => Some exercise
           | None => None
           end,
           foldl WebsocketPose.engine_after_frame e (processed_frames before)) data).1,
       @nil WebsocketPose.reply).
    cbn [snd]. rewrite app_nil_r. by destruct (last (selections lower before)).
  - intros messages. rewrite websocket_pose_receive_all. cbn [snd].
    apply receive_all_replies.
Qed.

(** ** The exercises on offer *)

Lemma table_lookup_is_Some (table : list (string * reference)) (ex : string) :
  is_Some ((list_to_map table : gmap string reference) !! ex) ↔ ex ∈ table.*1.
Proof.
  rewrite <- not_eq_None_Some, <- (not_elem_of_list_to_map table).
  destruct (decide (ex ∈ table.*1)); tauto.
Qed.

Lemma analyze_image_unknown (refs : gmap string reference) (exercise : string)
    (decoded : option frame) :
  App.analyze_image refs exercise decoded = Some App.UnknownExercise
  ↔ refs !! exercise = None.
Proof.
  unfold App.analyze_image.
  destruct (refs !! exercise) as [ref |]; [| done].
  split; [| done]. intros H. exfalso.
  destruct decoded as [fr |]; [| done].
  apply bind_Some in H as ([kps |] & _ & H); [| done].
  apply bind_Some in H as (angles & _ & H).
  apply bind_Some in H as (normalized & _ & H).
  apply bind_Some in H as (kp_score & _ & H).
  apply bind_Some in H as (overall & _ & H).
  apply bind_Some in H as (fb & _ & H).
  apply bind_Some in H as (relative & _ & H). done.
Qed.

(** X30: the exercises on offer and the exercises accepted.  The list of
    [get_exercises] is never empty.  A request is accepted by
    [start_session], and not turned away as unknown by [analyze_image],
    exactly when its lower-cased form is a label of the table.  So with an
    empty table, where the list falls back to the five built-in names, no
    listed exercise is accepted; with a table, a listed label is accepted
    when lower-casing leaves it unchanged, and the answer of
    [start_session] carries the angles of its reference. *)
Theorem listed_exercises (lower : string → string) (table : list (string * reference)) :
  get_exercises table ≠ []
  ∧ (∀ request,
       (is_Some (start_session lower table request) ↔ lower request ∈ table.*1)
       ∧ ∀ decoded,
           App.analyze_image (list_to_map table) (lower request) decoded
           = Some App.UnknownExercise
           ↔ lower request ∉ table.*1)
  ∧ (table = [] →
       get_exercises table = ALL_EXERCISES
       ∧ ∀ request, start_session lower table request = None)
  ∧ (table ≠ [] →
       ∀ ex, ex ∈ get_exercises table → lower ex = ex →
         ∃ ref, (ex, ref) ∈ table
                ∧ start_session lower table ex = Some (ex, ref_angles ref)).
Proof.
  split; [by destruct table |]. split; [| split].
  - intros request. split.
    + rewrite <- table_lookup_is_Some. unfold start_session. cbv zeta.
      destruct ((list_to_map table : gmap string reference) !! lower request)
        as [ref |]; split; intros [x Hx]; done.
    + intros decoded. rewrite analyze_image_unknown, <- table_lookup_is_Some.
      rewrite <- not_eq_None_Some.
      destruct ((list_to_map table : gmap string reference) !! lower request);
        split; try done.
      all: first [ intros H; exfalso; by apply H | intros _ H; by apply H ].
  - intros ->. split; [done |]. intros request. reflexivity.
  - intros Hne ex Hex Hlower.
    assert (ex ∈ table.*1) as Hin by (by destruct table).
    apply table_lookup_is_Some in Hin as [ref Href].
    exists ref. split; [by apply elem_of_list_to_map_2 |].
    unfold start_session. cbv zeta. by rewrite Hlower, Href.
Qed.
